(** * Account updates, call forests and the authorization pipeline

    A shallow embedding of [lib/account_update.ts]: the [AccountUpdate]
    objects live in a store (an arena indexed by object references), the
    lists that own them ([children.accountUpdates] and the list of the
    current transaction) hold references, and every function of the source
    that mutates an object is a function on stores.  Recursion through
    references is bounded by fuel; the theorems show that the height of the
    forest is enough fuel. *)

From Stdlib Require Import ZArith String List Lia.
From stdpp Require Import base tactics option list strings.

Set Default Proof Using "Type".
Local Open Scope Z_scope.
Local Open Scope nat_scope.

(** ** Results of computations that may throw *)

(** A JavaScript call either returns, throws an [Error] with a message, or
    (for recursion through object references) exhausts the fuel given to
    the model. *)
Inductive result (A : Type) : Type :=
| Ok (a : A)
| Throw (msg : string)
| OutOfFuel.
Arguments Ok {A} a.
Arguments Throw {A} msg.
Arguments OutOfFuel {A}.

#[global] Instance result_ret : MRet result := fun A a => Ok a.
#[global] Instance result_bind : MBind result := fun A B f m =>
  match m with
  | Ok a => f a
  | Throw msg => Throw msg
  | OutOfFuel => OutOfFuel
  end.

(** Reading a property of [undefined] is a [TypeError]. *)
Definition deref {A} (o : option A) : result A :=
  match o with
  | Some a => Ok a
  | None => Throw "TypeError: cannot read properties of undefined"
  end.

(** A [for ... of] loop whose body updates the loop state or throws. *)
Fixpoint forM {A S} (body : A -> S -> result S) (l : list A) (s : S) : result S :=
  match l with
  | [] => Ok s
  | x :: l' => s' ← body x s; forM body l' s'
  end.

(** [Array.prototype.findIndex], with [None] for [-1]. *)
Fixpoint findIndex {A} (p : A -> bool) (l : list A) : option nat :=
  match l with
  | [] => None
  | x :: l' => if p x then Some 0 else S <$> findIndex p l'
  end.

(** ** Primitive types *)

(** Field elements, by their canonical representative. *)
Abbreviation Field := Z.

Module PublicKey.
Record t := mk { x : Field; isOdd : bool }.

#[global] Instance eq_dec : EqDecision t.
Proof. solve_decision. Defined.

(** The well-known placeholder key. *)
Definition empty : t := {| x := 0%Z; isOdd := false |}.

Definition equals (a b : t) : bool := bool_decide (a = b).

(** Modelled from the spec: [PublicKey.isEmpty] of [lib/signature.ts],
    which is not among the sources; it holds of the deterministic
    empty placeholder key. *)
Definition isEmpty (pk : t) : bool := equals pk empty.
End PublicKey.
Abbreviation PublicKey := PublicKey.t.

Module PrivateKey.
Record t := mk { s : Z }.

#[global] Instance eq_dec : EqDecision t.
Proof. solve_decision. Defined.
End PrivateKey.
Abbreviation PrivateKey := PrivateKey.t.

Module TokenId.
Definition default : Field := 1%Z.
End TokenId.

(** ** Permissions *)

Record Permission := mkPermission {
  constant : bool;
  signatureNecessary : bool;
  signatureSufficient : bool;
}.

Module Permission.
Definition impossible : Permission :=
  {| constant := true; signatureNecessary := true; signatureSufficient := false |}.
Definition none : Permission :=
  {| constant := true; signatureNecessary := false; signatureSufficient := true |}.
Definition proof : Permission :=
  {| constant := false; signatureNecessary := false; signatureSufficient := false |}.
Definition signature : Permission :=
  {| constant := false; signatureNecessary := true; signatureSufficient := true |}.
Definition proofOrSignature : Permission :=
  {| constant := false; signatureNecessary := false; signatureSufficient := true |}.
End Permission.

Module Permissions.
Definition fromString (permission : string) : result Permission :=
  if String.eqb permission "None" then Ok Permission.none
  else if String.eqb permission "Either" then Ok Permission.proofOrSignature
  else if String.eqb permission "Proof" then Ok Permission.proof
  else if String.eqb permission "Signature" then Ok Permission.signature
  else if String.eqb permission "Impossible" then Ok Permission.impossible
  else Throw ("Cannot parse invalid permission. " +:+ permission +:+ " does not exist.").
End Permissions.

(** ** The account update objects *)

(** Object references: indices into the arena of constructed objects. *)
Abbreviation loc := nat.

(** The value of [Math.random()]; the code only compares ids with [===]. *)
Abbreviation Id := nat.

Record AuthorizationKind := mkAuthorizationKind { isSigned : bool; isProved : bool }.

(** The fields of [Body] that the functions below read or write.  The
    remaining ones ([update], [balanceChange], [events], [sequenceEvents],
    [preconditions]) are carried along untouched by all of them. *)
Record Body := mkBody {
  publicKey : PublicKey;
  tokenId : Field;
  caller : Field;
  callData : Field;
  callDepth : nat;
  useFullCommitment : bool;
  incrementNonce : bool;
  authorizationKind : AuthorizationKind;
}.

(** [Control]: the finalized authorization; [{}] has neither field. *)
Record Control := mkControl { proof : option string; signature : option string }.

Record LazySignature := mkLazySignature { privateKey : option PrivateKey }.

(** The payload of a lazy proof other than the method name and the blinding
    value (arguments, previous proofs, contract class, memoized values) is
    opaque to this file and left out. *)
Record LazyProof := mkLazyProof { methodName : string; blindingValue : Field }.

Inductive LazyAuthorization :=
| lazy_none
| lazy_signature (sig : LazySignature)
| lazy_proof (prf : LazyProof).

Inductive CallsType :=
| CallsNone
| CallsWitness
| CallsEquals (value : Field).

Record Children := mkChildren { callsType : CallsType; accountUpdates : list loc }.

Record AccountUpdate := mkAccountUpdate {
  id : Id;
  label : string;
  body : Body;
  isDelegateCall : bool;
  authorization : Control;
  lazyAuthorization : option LazyAuthorization;
  children : Children;
  parent : option loc;
  isSelf : bool;
}.

(** The store of all [AccountUpdate] objects constructed so far. *)
Abbreviation Heap := (list AccountUpdate).

(** Field assignments. *)
Definition with_callDepth (d : nat) (b : Body) : Body :=
  mkBody (publicKey b) (tokenId b) (caller b) (callData b) d
         (useFullCommitment b) (incrementNonce b) (authorizationKind b).
Definition with_caller (c : Field) (b : Body) : Body :=
  mkBody (publicKey b) (tokenId b) c (callData b) (callDepth b)
         (useFullCommitment b) (incrementNonce b) (authorizationKind b).
Definition with_tokenId (t : Field) (b : Body) : Body :=
  mkBody (publicKey b) t (caller b) (callData b) (callDepth b)
         (useFullCommitment b) (incrementNonce b) (authorizationKind b).
Definition with_authorizationKind (k : AuthorizationKind) (b : Body) : Body :=
  mkBody (publicKey b) (tokenId b) (caller b) (callData b) (callDepth b)
         (useFullCommitment b) (incrementNonce b) k.

Definition with_id (i : Id) (a : AccountUpdate) : AccountUpdate :=
  mkAccountUpdate i (label a) (body a) (isDelegateCall a) (authorization a)
                  (lazyAuthorization a) (children a) (parent a) (isSelf a).
Definition with_label (l : string) (a : AccountUpdate) : AccountUpdate :=
  mkAccountUpdate (id a) l (body a) (isDelegateCall a) (authorization a)
                  (lazyAuthorization a) (children a) (parent a) (isSelf a).
Definition with_body (f : Body -> Body) (a : AccountUpdate) : AccountUpdate :=
  mkAccountUpdate (id a) (label a) (f (body a)) (isDelegateCall a) (authorization a)
                  (lazyAuthorization a) (children a) (parent a) (isSelf a).
Definition with_isDelegateCall (d : bool) (a : AccountUpdate) : AccountUpdate :=
  mkAccountUpdate (id a) (label a) (body a) d (authorization a)
                  (lazyAuthorization a) (children a) (parent a) (isSelf a).
Definition with_authorization (c : Control) (a : AccountUpdate) : AccountUpdate :=
  mkAccountUpdate (id a) (label a) (body a) (isDelegateCall a) c
                  (lazyAuthorization a) (children a) (parent a) (isSelf a).
Definition with_lazyAuthorization (z : option LazyAuthorization) (a : AccountUpdate)
  : AccountUpdate :=
  mkAccountUpdate (id a) (label a) (body a) (isDelegateCall a) (authorization a)
                  z (children a) (parent a) (isSelf a).
Definition with_callsType (t : CallsType) (a : AccountUpdate) : AccountUpdate :=
  mkAccountUpdate (id a) (label a) (body a) (isDelegateCall a) (authorization a)
                  (lazyAuthorization a) (mkChildren t (accountUpdates (children a)))
                  (parent a) (isSelf a).
Definition with_accountUpdates (f : list loc -> list loc) (a : AccountUpdate)
  : AccountUpdate :=
  mkAccountUpdate (id a) (label a) (body a) (isDelegateCall a) (authorization a)
                  (lazyAuthorization a)
                  (mkChildren (callsType (children a)) (f (accountUpdates (children a))))
                  (parent a) (isSelf a).
Definition with_parent (p : option loc) (a : AccountUpdate) : AccountUpdate :=
  mkAccountUpdate (id a) (label a) (body a) (isDelegateCall a) (authorization a)
                  (lazyAuthorization a) (children a) p (isSelf a).

(** ** The fee payer and the command *)

Record UInt32 := mkUInt32 { value32 : Field }.

Record FeePayerBody := mkFeePayerBody {
  fp_publicKey : PublicKey;
  fp_nonce : UInt32;
  fp_fee : Field;
  fp_validUntil : option UInt32;
}.

Record FeePayerUnsigned := mkFeePayerUnsigned {
  fp_body : FeePayerBody;
  fp_authorization : string;
  fp_lazyAuthorization : option LazySignature;
}.

Record FeePayer := mkFeePayer {
  fps_body : FeePayerBody;
  fps_authorization : string;
}.

Module ZkappCommand.
Record t := mk {
  feePayer : FeePayerUnsigned;
  accountUpdates : list loc;
  memo : string;
}.
End ZkappCommand.

Module ZkappCommandSigned.
Record t := mk {
  feePayer : FeePayer;
  accountUpdates : list loc;
  memo : string;
}.
End ZkappCommandSigned.

(** ** The ambient contexts *)

(** [Mina.currentTransaction]: the sender and the top-level list. *)
Module CurrentTransaction.
Record t := mk {
  sender : option PublicKey;
  accountUpdates : list loc;
}.
End CurrentTransaction.

Record State := mkState {
  heap : Heap;
  currentTransaction : option CurrentTransaction.t;
  (** [smartContractContext.get().this.self], when inside a contract method *)
  smartContractContext : option loc;
}.

Definition with_heap (f : Heap -> Heap) (st : State) : State :=
  mkState (f (heap st)) (currentTransaction st) (smartContractContext st).
Definition with_topLevel (f : list loc -> list loc) (st : State) : State :=
  mkState (heap st)
          ((fun tx => CurrentTransaction.mk (CurrentTransaction.sender tx)
                        (f (CurrentTransaction.accountUpdates tx)))
             <$> currentTransaction st)
          (smartContractContext st).

(** ** External collaborators *)

Record Commitments := mkCommitments { commitment : Field; fullCommitment : Field }.

(** The functions of the ledger bindings, of the hashing and integer
    libraries and of the runtime that the code calls and this file does not
    define.  Every theorem holds for all of them. *)
Class Externals := {
  (** [hashWithPrefix] of [lib/hash.ts] and the two prefixes it is used with *)
  hashWithPrefix : string -> list Field -> Field;
  prefix_accountUpdateNode : string;
  prefix_accountUpdateCons : string;
  (** [AccountUpdate.prototype.hash]: the hash of the update's own data *)
  hashAccountUpdate : AccountUpdate -> Field;
  (** [inCheckedComputation()] *)
  inCheckedComputation : bool;
  (** [Ledger.customTokenId] *)
  customTokenId : PublicKey -> Field -> Field;
  (** [Ledger.transactionCommitments] of the command's JSON, which holds the
      fee payer, the listed updates and the memo *)
  transactionCommitments : FeePayerUnsigned -> list AccountUpdate -> string -> Commitments;
  (** [Ledger.signFieldElement(_, _, false)] *)
  signFieldElement : Field -> PrivateKey -> string;
  toPublicKey : PrivateKey -> PublicKey;
  toBase58 : PublicKey -> string;
  (** [Precondition.getAccountPreconditions(body).nonce]: the nonce of the
      account of a key and token id ([None] for a fee payer body) *)
  accountNonce : PublicKey -> option Field -> nat;
  (** [UInt32.from] on a number *)
  UInt32_from : nat -> result UInt32;
  (** the successive values of [Math.random()], one per constructed object *)
  random : nat -> Id;
}.


(** [Array.prototype.map] with a callback that allocates or throws. *)
Fixpoint mapM {A B S} (f : A -> S -> result (B * S)) (l : list A) (s : S)
  : result (list B * S) :=
  match l with
  | [] => Ok ([], s)
  | x :: l' =>
      '(y, s1) ← f x s;
      '(ys, s2) ← mapM f l' s1;
      Ok (y :: ys, s2)
  end.

(** [update.id === i] for the object behind a reference. *)
Definition sameId (h : Heap) (i : Id) (update : loc) : bool :=
  bool_decide (id <$> h !! update = Some i).

Module Body.
(** [Body.keepAll] *)
Definition keepAll (publicKey : PublicKey) : Body :=
  mkBody publicKey TokenId.default TokenId.default 0%Z 0 false false
         (mkAuthorizationKind false false).

Definition dummy : Body := keepAll PublicKey.empty.
End Body.

Module Token.
(** [Token.getId]: both of its branches compute the same token id. *)
Definition getId `{Externals} (tokenOwner : PublicKey) (parentTokenId : Field) : Field :=
  customTokenId tokenOwner parentTokenId.
End Token.

(** ** The [AccountUpdate] class *)

(** The object that [new AccountUpdate(body, authorization, isSelf)] builds:
    the fields have the defaults of their initializers, the id is drawn. *)
Definition AccountUpdate_init (id : Id) (body : Body) (authorization : Control)
    (isSelf : bool) : AccountUpdate :=
  mkAccountUpdate id "" body false authorization None (mkChildren CallsNone []) None isSelf.

(** [new AccountUpdate(body, authorization, isSelf)] allocates it. *)
Definition AccountUpdate_new `{Externals} (body : Body) (authorization : Control)
    (isSelf : bool) (h : Heap) : loc * Heap :=
  (length h, h ++ [AccountUpdate_init (random (length h)) body authorization isSelf]).

(** [AccountUpdate.clone] *)
Fixpoint clone `{Externals} (fuel : nat) (accountUpdate : loc) (h : Heap)
  : result (loc * Heap) :=
  match fuel with
  | 0 => OutOfFuel
  | S fuel' =>
      a ← deref (h !! accountUpdate);
      let '(cloned, h) := AccountUpdate_new (body a) (authorization a) (isSelf a) h in
      let h := alter (with_lazyAuthorization (lazyAuthorization a)) cloned h in
      let h := alter (with_callsType (callsType (children a))) cloned h in
      '(clones, h) ← mapM (clone fuel') (accountUpdates (children a)) h;
      let h := alter (with_accountUpdates (fun _ => clones)) cloned h in
      let h := alter (with_id (id a)) cloned h in
      let h := alter (with_label (label a)) cloned h in
      let h := alter (with_parent (parent a)) cloned h in
      let h := alter (with_isDelegateCall (isDelegateCall a)) cloned h in
      Ok (cloned, h)
  end.

(** [AccountUpdate.defaultAccountUpdate] *)
Definition defaultAccountUpdate `{Externals} (address : PublicKey)
    (tokenId : option Field) (h : Heap) : loc * Heap :=
  let body := Body.keepAll address in
  let body :=
    match tokenId with
    | Some t => with_caller t (with_tokenId t body)
    | None => body
    end in
  AccountUpdate_new body (mkControl None None) false h.

(** [AccountUpdate.dummy] *)
Definition dummy `{Externals} (h : Heap) : loc * Heap :=
  defaultAccountUpdate PublicKey.empty None h.

(** [AccountUpdate.prototype.isDummy] *)
Definition isDummy (a : AccountUpdate) : bool :=
  PublicKey.isEmpty (publicKey (body a)).

(** [AccountUpdate.unlink].  Its last statement, [accountUpdate.parent ===
    undefined;], is a comparison whose value is discarded. *)
Definition unlink (accountUpdate : loc) (st : State) : result State :=
  a ← deref (heap st !! accountUpdate);
  match parent a with
  | Some p =>
      pa ← deref (heap st !! p);
      match findIndex (sameId (heap st) (id a)) (accountUpdates (children pa)) with
      | Some i => Ok (with_heap (alter (with_accountUpdates (delete i)) p) st)
      | None => Ok st
      end
  | None =>
      match currentTransaction st with
      | None => Ok st
      | Some tx =>
          match findIndex (sameId (heap st) (id a)) (CurrentTransaction.accountUpdates tx) with
          | Some i => Ok (with_topLevel (delete i) st)
          | None => Ok st
          end
      end
  end.

(** ** Call forests *)

Module CallerContext.
Record t := mk { self : Field; caller : Field }.
End CallerContext.

Module CallForest.

(** [CallForest.toFlatList]: returns the flat list and the store in which
    the visited objects carry their [callDepth]. *)
Fixpoint toFlatList (fuel : nat) (forest : list loc) (depth : nat) (h : Heap)
  : result (list loc * Heap) :=
  match fuel with
  | 0 => OutOfFuel
  | S fuel' =>
      forM (fun accountUpdate '(accountUpdates_, h) =>
              a ← deref (h !! accountUpdate);
              if isDummy a then Ok (accountUpdates_, h)
              else
                let h := alter (with_body (with_callDepth depth)) accountUpdate h in
                let children := accountUpdates (children a) in
                '(sub, h) ← toFlatList fuel' children (depth + 1) h;
                Ok (accountUpdates_ ++ accountUpdate :: sub, h))
           forest ([], h)
  end.

Definition emptyHash : Field := 0%Z.

(** [CallForest.hashChildren], given [hashChildrenBase] for the recursive
    call.  [Circuit.witness] yields the value its callback computes; a failed
    [assertEquals] throws. *)
Definition hashChildrenWith `{Externals} (hashChildrenBase : loc -> result Field)
    (h : Heap) (update : loc) : result Field :=
  u ← deref (h !! update);
  match callsType (children u) with
  | CallsWitness => hashChildrenBase update
  | CallsEquals value =>
      calls ← hashChildrenBase update;
      if inCheckedComputation && negb (calls =? value)%Z
      then Throw "Field.assertEquals(): the two values are not equal"
      else Ok calls
  | CallsNone => hashChildrenBase update
  end.

(** [CallForest.hashChildrenBase] *)
Fixpoint hashChildrenBase `{Externals} (fuel : nat) (h : Heap) (update : loc)
  : result Field :=
  match fuel with
  | 0 => OutOfFuel
  | S fuel' =>
      u ← deref (h !! update);
      forM (fun accountUpdate stackHash =>
              a ← deref (h !! accountUpdate);
              calls ← hashChildrenWith (hashChildrenBase fuel' h) h accountUpdate;
              let nodeHash :=
                hashWithPrefix prefix_accountUpdateNode [hashAccountUpdate a; calls] in
              let newHash :=
                hashWithPrefix prefix_accountUpdateCons [nodeHash; stackHash] in
              Ok (if isDummy a then stackHash else newHash))
           (rev (accountUpdates (children u))) emptyHash
  end.

Definition hashChildren `{Externals} (fuel : nat) (h : Heap) (update : loc)
  : result Field :=
  hashChildrenWith (hashChildrenBase fuel h) h update.

(** The default context of [addCallers] and [computeCallerContext]. *)
Definition rootContext : CallerContext.t :=
  CallerContext.mk TokenId.default TokenId.default.

(** [CallForest.addCallers] *)
Fixpoint addCallers `{Externals} (fuel : nat) (updates : list loc)
    (context : CallerContext.t) (h : Heap) : result Heap :=
  match fuel with
  | 0 => OutOfFuel
  | S fuel' =>
      forM (fun update h =>
              u ← deref (h !! update);
              let caller :=
                if isDelegateCall u then CallerContext.caller context
                else CallerContext.self context in
              let self :=
                if isDelegateCall u then CallerContext.self context
                else Token.getId (publicKey (body u)) (tokenId (body u)) in
              let h := alter (with_body (with_caller caller)) update h in
              let childContext := CallerContext.mk self caller in
              addCallers fuel' (accountUpdates (children u)) childContext h)
           updates h
  end.

(** The [while (true)] loop of [computeCallerContext]. *)
Fixpoint lineOfAncestors (fuel : nat) (h : Heap) (current : loc) (ancestors : list loc)
  : result (list loc) :=
  match fuel with
  | 0 => OutOfFuel
  | S fuel' =>
      c ← deref (h !! current);
      match parent c with
      | None => Ok ancestors
      | Some parent => lineOfAncestors fuel' h parent (parent :: ancestors)
      end
  end.

(** [CallForest.computeCallerContext] *)
Definition computeCallerContext `{Externals} (fuel : nat) (h : Heap) (update : loc)
  : result CallerContext.t :=
  ancestors ← lineOfAncestors fuel h update [];
  forM (fun update context =>
          u ← deref (h !! update);
          if negb (isDelegateCall u)
          then Ok (CallerContext.mk
                     (Token.getId (publicKey (body u)) (tokenId (body u)))
                     (CallerContext.self context))
          else Ok context)
       ancestors rootContext.

(** [CallForest.computeCallDepth] *)
Fixpoint computeCallDepth (fuel : nat) (h : Heap) (update : loc) (callDepth : nat)
  : result nat :=
  match fuel with
  | 0 => OutOfFuel
  | S fuel' =>
      u ← deref (h !! update);
      match parent u with
      | None => Ok callDepth
      | Some parent => computeCallDepth fuel' h parent (callDepth + 1)
      end
  end.

(** [CallForest.forEach]; the callback updates the variables it closes over. *)
Fixpoint forEach {S} (fuel : nat) (h : Heap) (updates : list loc)
    (callback : loc -> S -> result S) (st : S) : result S :=
  match fuel with
  | 0 => OutOfFuel
  | S fuel' =>
      forM (fun update st =>
              st ← callback update st;
              u ← deref (h !! update);
              forEach fuel' h (accountUpdates (children u)) callback st)
           updates st
  end.

(** [CallForest.forEachPredecessor]; [updateId] is [update.id], which is
    [undefined] when the update is a fee payer. *)
Definition forEachPredecessor {S} (fuel : nat) (h : Heap) (updates : list loc)
    (updateId : option Id) (callback : loc -> S -> result S) (st : S) : result S :=
  '(_, st) ← forEach fuel h updates
    (fun otherUpdate '(isPredecessor, st) =>
       o ← deref (h !! otherUpdate);
       let isPredecessor :=
         if bool_decide (Some (id o) = updateId) then false else isPredecessor in
       if isPredecessor
       then st ← callback otherUpdate st; Ok (isPredecessor, st)
       else Ok (isPredecessor, st))
    (true, st);
  Ok st.

End CallForest.

(** ** Linking updates into the tree *)

(** [makeChildAccountUpdate] *)
Definition makeChildAccountUpdate (parent child : loc) (st : State) : result State :=
  p ← deref (heap st !! parent);
  _ ← deref (heap st !! child);
  let st := with_heap (alter (with_body (with_callDepth (callDepth (body p) + 1))) child) st in
  p ← deref (heap st !! parent);
  c ← deref (heap st !! child);
  let wasChildAlready := find (sameId (heap st) (id c)) (accountUpdates (children p)) in
  st ← match wasChildAlready with
       | Some _ => Ok st
       | None =>
           let st := with_heap (alter (with_accountUpdates (fun l => l ++ [child])) parent) st in
           unlink child st
       end;
  Ok (with_heap (alter (with_parent (Some parent)) child) st).

(** [createChildAccountUpdate] *)
Definition createChildAccountUpdate `{Externals} (parent : loc) (childAddress : PublicKey)
    (tokenId : option Field) (st : State) : result (loc * State) :=
  let '(child, h) := defaultAccountUpdate childAddress tokenId (heap st) in
  st ← makeChildAccountUpdate parent child (with_heap (fun _ => h) st);
  Ok (child, st).

(** The layouts that [witnessChildren] handles without calling
    [Circuit.witness]. *)
Inductive AccountUpdatesLayout :=
| AnyChildren
| NoDelegation.

(** [AccountUpdate.witnessChildren], for these layouts *)
Definition witnessChildren (accountUpdate : loc) (childLayout : AccountUpdatesLayout)
    (st : State) : result State :=
  match childLayout with
  | AnyChildren => Ok (with_heap (alter (with_callsType CallsWitness) accountUpdate) st)
  | NoDelegation =>
      let st := with_heap (alter (with_callsType CallsWitness) accountUpdate) st in
      a ← deref (heap st !! accountUpdate);
      if isDelegateCall a then Throw "Bool.assertFalse(): true != false" else Ok st
  end.

(** [AccountUpdate.prototype.approve] *)
Definition approve (this childUpdate : loc) (layout : AccountUpdatesLayout) (st : State)
  : result State :=
  st ← makeChildAccountUpdate this childUpdate st;
  let st := with_heap (alter (with_isDelegateCall false) this) st in
  witnessChildren childUpdate layout st.

(** [AccountUpdate.create] *)
Definition create `{Externals} (publicKey : PublicKey) (tokenId : option Field) (st : State)
  : result (loc * State) :=
  let '(accountUpdate, h) := defaultAccountUpdate publicKey tokenId (heap st) in
  let st := with_heap (fun _ => h) st in
  match smartContractContext st with
  | Some this_self =>
      st ← approve this_self accountUpdate NoDelegation st;
      Ok (accountUpdate, st)
  | None => Ok (accountUpdate, with_topLevel (fun l => l ++ [accountUpdate]) st)
  end.

(** [AccountUpdate.attachToTransaction] *)
Definition attachToTransaction (accountUpdate : loc) (st : State) : result State :=
  match smartContractContext st with
  | Some selfUpdate =>
      if bool_decide (selfUpdate = accountUpdate) then Ok st
      else approve selfUpdate accountUpdate NoDelegation st
  | None =>
      match currentTransaction st with
      | None => Ok st
      | Some tx =>
          a ← deref (heap st !! accountUpdate);
          match find (sameId (heap st) (id a)) (CurrentTransaction.accountUpdates tx) with
          | Some _ => Ok st
          | None => Ok (with_topLevel (fun l => l ++ [accountUpdate]) st)
          end
      end
  end.

(** ** Nonce resolution *)

(** The argument of [getSigningInfoUnchecked]. *)
Inductive SigningUpdate :=
| OfAccountUpdate (update : loc)
| OfFeePayer (feePayer : FeePayerUnsigned).

Record SigningInfo := mkSigningInfo { nonce : UInt32; isSameAsFeePayer : bool }.

(** [AccountUpdate.getSigningInfoUnchecked] *)
Definition getSigningInfoUnchecked `{Externals} (fuel : nat) (update : SigningUpdate)
    (st : State) : result SigningInfo :=
  '(publicKey_, tokenId_, nonce, updateId) ←
    match update with
    | OfAccountUpdate l =>
        a ← deref (heap st !! l);
        Ok (publicKey (body a), tokenId (body a),
            accountNonce (publicKey (body a)) (Some (tokenId (body a))),
            Some (id a))
    | OfFeePayer f =>
        Ok (fp_publicKey (fp_body f), TokenId.default,
            accountNonce (fp_publicKey (fp_body f)) None,
            None)
    end;
  let isFeePayer :=
    tx ← currentTransaction st;
    sender ← CurrentTransaction.sender tx;
    Some (PublicKey.equals sender publicKey_) in
  let isSameAsFeePayer :=
    match isFeePayer with
    | Some b => b && (tokenId_ =? TokenId.default)%Z
    | None => false
    end in
  let nonce := if isSameAsFeePayer then nonce + 1 else nonce in
  tx ← match currentTransaction st with
       | Some tx => Ok tx
       | None => Throw "currentTransaction.get(): no transaction is being built"
       end;
  nonce ← CallForest.forEachPredecessor fuel (heap st)
            (CurrentTransaction.accountUpdates tx) updateId
            (fun otherUpdate nonce =>
               o ← deref (heap st !! otherUpdate);
               let shouldIncreaseNonce :=
                 PublicKey.equals (publicKey (body o)) publicKey_
                 && (tokenId (body o) =? tokenId_)%Z
                 && incrementNonce (body o) in
               Ok (if shouldIncreaseNonce then nonce + 1 else nonce))
            nonce;
  nonce ← UInt32_from nonce;
  Ok (mkSigningInfo nonce isSameAsFeePayer).

(** ** Authorization *)

Module Authorization.

Definition hasLazyProof (accountUpdate : AccountUpdate) : bool :=
  match lazyAuthorization accountUpdate with
  | Some (lazy_proof _) => true
  | _ => false
  end.

Definition hasAny (accountUpdate : AccountUpdate) : bool :=
  match lazyAuthorization accountUpdate with
  | Some _ => true
  | None =>
      match proof (authorization accountUpdate), signature (authorization accountUpdate) with
      | None, None => false
      | _, _ => true
      end
  end.

Definition setSignature (signature : string) (accountUpdate : AccountUpdate) : AccountUpdate :=
  with_lazyAuthorization None
    (with_authorization (mkControl None (Some signature)) accountUpdate).

Definition setProof (proof : string) (accountUpdate : AccountUpdate) : AccountUpdate :=
  with_lazyAuthorization None
    (with_authorization (mkControl (Some proof) None) accountUpdate).

Definition setLazySignature (signature : option LazySignature)
    (accountUpdate : AccountUpdate) : AccountUpdate :=
  let signature := default (mkLazySignature None) signature in
  with_lazyAuthorization (Some (lazy_signature signature))
    (with_authorization (mkControl None None)
       (with_body (with_authorizationKind (mkAuthorizationKind true false)) accountUpdate)).

Definition setLazyProof (proof : LazyProof) (accountUpdate : AccountUpdate) : AccountUpdate :=
  with_lazyAuthorization (Some (lazy_proof proof))
    (with_authorization (mkControl None None)
       (with_body (with_authorizationKind (mkAuthorizationKind false true)) accountUpdate)).

Definition setLazyNone (accountUpdate : AccountUpdate) : AccountUpdate :=
  with_lazyAuthorization (Some lazy_none)
    (with_authorization (mkControl None None)
       (with_body (with_authorizationKind (mkAuthorizationKind false false)) accountUpdate)).

End Authorization.

(** The private key for a public key: the one given with the intent, else
    the additional key at the first index whose public key matches. *)
Definition lookupPrivateKey `{Externals} (additionalKeys : list PrivateKey)
    (privateKey : option PrivateKey) (publicKey : PublicKey) (missing : string)
  : result PrivateKey :=
  let additionalPublicKeys := map toPublicKey additionalKeys in
  match privateKey with
  | Some privateKey => Ok privateKey
  | None =>
      match findIndex (fun pk => PublicKey.equals pk publicKey) additionalPublicKeys with
      | None => Throw missing
      | Some i => deref (additionalKeys !! i)
      end
  end.

(** [addFeePayerSignature] inside [addMissingSignatures] *)
Definition addFeePayerSignature `{Externals} (cs : Commitments)
    (additionalKeys : list PrivateKey) (accountUpdate : FeePayerUnsigned)
  : result FeePayer :=
  match fp_lazyAuthorization accountUpdate with
  | None => Ok (mkFeePayer (fp_body accountUpdate) (fp_authorization accountUpdate))
  | Some lazyAuthorization =>
      privateKey ← lookupPrivateKey additionalKeys (privateKey lazyAuthorization)
        (fp_publicKey (fp_body accountUpdate))
        ("addMissingSignatures: Cannot add signature for fee payer ("
           +:+ toBase58 (fp_publicKey (fp_body accountUpdate))
           +:+ "), private key is missing.");
      let signature := signFieldElement (fullCommitment cs) privateKey in
      Ok (mkFeePayer (fp_body accountUpdate) signature)
  end.

(** [addSignature] inside [addMissingSignatures] *)
Definition addSignature `{Externals} (fuel : nat) (cs : Commitments)
    (additionalKeys : list PrivateKey) (accountUpdate : loc) (h : Heap)
  : result (loc * Heap) :=
  '(accountUpdate, h) ← clone fuel accountUpdate h;
  a ← deref (h !! accountUpdate);
  match lazyAuthorization a with
  | Some (lazy_signature sig) =>
      privateKey ← lookupPrivateKey additionalKeys (privateKey sig) (publicKey (body a))
        ("addMissingSignatures: Cannot add signature for "
           +:+ toBase58 (publicKey (body a)) +:+ ", private key is missing.");
      let transactionCommitment :=
        if useFullCommitment (body a) then fullCommitment cs else commitment cs in
      let signature := signFieldElement transactionCommitment privateKey in
      Ok (accountUpdate, alter (Authorization.setSignature signature) accountUpdate h)
  | _ => Ok (accountUpdate, h)
  end.

(** [addMissingSignatures] *)
Definition addMissingSignatures `{Externals} (fuel : nat) (zkappCommand : ZkappCommand.t)
    (additionalKeys : list PrivateKey) (h : Heap)
  : result (ZkappCommandSigned.t * Heap) :=
  listed ← forM (fun l acc => a ← deref (h !! l); Ok (acc ++ [a]))
             (ZkappCommand.accountUpdates zkappCommand) [];
  let cs := transactionCommitments (ZkappCommand.feePayer zkappCommand) listed
              (ZkappCommand.memo zkappCommand) in
  feePayer ← addFeePayerSignature cs additionalKeys (ZkappCommand.feePayer zkappCommand);
  '(accountUpdates, h) ← mapM (addSignature fuel cs additionalKeys)
                           (ZkappCommand.accountUpdates zkappCommand) h;
  Ok (ZkappCommandSigned.mk feePayer accountUpdates (ZkappCommand.memo zkappCommand), h).

(** ** Forests in the store *)

(** The shape of a tree of objects: the reference of the root and the trees
    below it.  A forest is a list of trees. *)
#[warnings="-register-all"]
Inductive tree := Node (root : loc) (subtrees : list tree).

Definition root (t : tree) : loc := match t with Node l _ => l end.
Definition subtrees (t : tree) : list tree := match t with Node _ ts => ts end.

Fixpoint height (t : tree) : nat :=
  match t with
  | Node _ ts => S (fold_right (fun t n => Nat.max (height t) n) 0 ts)
  end.

Definition forestHeight (ts : list tree) : nat :=
  fold_right (fun t n => Nat.max (height t) n) 0 ts.

(** The fuel that suffices to walk a forest: more than its height. *)
Definition fits (fuel : nat) (ts : list tree) : Prop :=
  forestHeight ts < fuel.

(** [shape h t]: in store [h], the objects reachable from [root t] through
    [children.accountUpdates] are laid out as [t]. *)
#[warnings="-register-all"]
Inductive shape (h : Heap) : tree -> Prop :=
| shape_node l a ts :
    h !! l = Some a ->
    accountUpdates (children a) = map root ts ->
    Forall (shape h) ts ->
    shape h (Node l ts).

(** The nodes in depth-first pre-order. *)
Fixpoint preorder (t : tree) : list loc :=
  match t with
  | Node l ts => l :: flat_map preorder ts
  end.

(** The nodes in pre-order, each with its ancestors, nearest first. *)
Fixpoint ancestry (anc : list loc) (t : tree) : list (loc * list loc) :=
  match t with
  | Node l ts => (l, anc) :: flat_map (ancestry (l :: anc)) ts
  end.

Definition dummyAt (h : Heap) (l : loc) : bool :=
  match h !! l with
  | Some a => isDummy a
  | None => false
  end.

(** A node is visible when neither it nor an ancestor is a dummy. *)
Definition visible (h : Heap) (p : loc * list loc) : bool :=
  forallb (fun l => negb (dummyAt h l)) (p.1 :: p.2).

(** A node that is not a dummy and has a dummy ancestor. *)
Definition belowDummy (h : Heap) (p : loc * list loc) : bool :=
  negb (dummyAt h p.1) && negb (forallb (fun l => negb (dummyAt h l)) p.2).

(** Pre-order with depths, pruned below dummies. *)
Fixpoint flatDepth (h : Heap) (d : nat) (t : tree) : list (loc * nat) :=
  match t with
  | Node l ts =>
      if dummyAt h l then [] else (l, d) :: flat_map (flatDepth h (d + 1)) ts
  end.

(** A sequence of assignments to objects of the store, in order. *)
Definition assign {V} (f : V -> AccountUpdate -> AccountUpdate) (ps : list (loc * V))
    (h : Heap) : Heap :=
  fold_left (fun h p => alter (f p.2) p.1 h) ps h.

(** The assignments [accountUpdate.body.callDepth = depth]. *)
Definition setDepths : list (loc * nat) -> Heap -> Heap :=
  assign (fun d => with_body (with_callDepth d)).

(** The assignments [update.body.caller = caller]. *)
Definition setCallers : list (loc * Field) -> Heap -> Heap :=
  assign (fun c => with_body (with_caller c)).

Definition callDepthAt (h : Heap) (l : loc) : option nat :=
  (fun a => callDepth (body a)) <$> h !! l.

(** ** The authorization slots of one update *)

(** The [authorization] slot holds a finalized signature or proof. *)
Definition finalized (a : AccountUpdate) : bool :=
  match proof (authorization a), signature (authorization a) with
  | None, None => false
  | _, _ => true
  end.

(** The [lazyAuthorization] slot is set. *)
Definition pending (a : AccountUpdate) : bool :=
  match lazyAuthorization a with
  | Some _ => true
  | None => false
  end.

(** The calls of the [Authorization] setters on one update. *)
Inductive AuthorizationCall :=
| SetSignature (signature : string)
| SetProof (proof : string)
| SetLazySignature (signature : option LazySignature)
| SetLazyProof (proof : LazyProof)
| SetLazyNone.

Definition authorizationCall (a : AccountUpdate) (c : AuthorizationCall) : AccountUpdate :=
  match c with
  | SetSignature s => Authorization.setSignature s a
  | SetProof p => Authorization.setProof p a
  | SetLazySignature s => Authorization.setLazySignature s a
  | SetLazyProof p => Authorization.setLazyProof p a
  | SetLazyNone => Authorization.setLazyNone a
  end.

(** The update with [callDepth] and [caller] blanked: two stores with the
    same erasure differ in these two fields only. *)
Definition erase (a : AccountUpdate) : AccountUpdate :=
  with_body (fun b => with_caller 0%Z (with_callDepth 0 b)) a.

(** ** A small forest, on which the theorems are exercised *)

Definition exampleKey : PublicKey := PublicKey.mk 5%Z true.

Definition exampleUpdate (i : Id) (pk : PublicKey) (cs : list loc) (p : option loc)
  : AccountUpdate :=
  mkAccountUpdate i "" (Body.keepAll pk) false (mkControl None None) None
                  (mkChildren CallsNone cs) p false.

(** Object 0 is a root with the children 1 and 3; object 1 is a dummy with
    the child 2; objects 2 and 3 are leaves. *)
Definition exampleHeap : Heap :=
  [ exampleUpdate 10 exampleKey [1; 3] None;
    exampleUpdate 11 PublicKey.empty [2] (Some 0);
    exampleUpdate 12 exampleKey [] (Some 1);
    exampleUpdate 13 exampleKey [] (Some 0) ].

Definition exampleForest : list tree :=
  [Node 0 [Node 1 [Node 2 []]; Node 3 []]].

(** Stand-ins for the external collaborators, to run the code on the
    example. *)
Definition exampleExternals : Externals := {|
  hashWithPrefix := fun prefix fields =>
    fold_left (fun acc f => (31 * acc + f + 7)%Z) fields (Z.of_nat (String.length prefix));
  prefix_accountUpdateNode := "node";
  prefix_accountUpdateCons := "cons*";
  hashAccountUpdate := fun a => (1000 + Z.of_nat (id a))%Z;
  inCheckedComputation := false;
  customTokenId := fun owner parentTokenId => (100 * PublicKey.x owner + parentTokenId)%Z;
  transactionCommitments := fun feePayer listed memo =>
    mkCommitments (Z.of_nat (length listed)) (Z.of_nat (length listed) + 1000)%Z;
  signFieldElement := fun field key =>
    if (field <? 1000)%Z then "partial" else "full";
  toPublicKey := fun key => PublicKey.mk (PrivateKey.s key) true;
  toBase58 := fun pk => if bool_decide (pk = exampleKey) then "B62example" else "B62other";
  accountNonce := fun pk token => 40;
  UInt32_from := fun n => Ok (mkUInt32 (Z.of_nat n));
  random := fun n => 100 + n;
|}.

(** ** Nodes that count for the nonce *)

(** The node targets the account of a key and token id and has
    [incrementNonce] set. *)
Definition incrementsNonce (h : Heap) (pk : PublicKey) (tid : Field) (l : loc) : bool :=
  match h !! l with
  | Some o =>
      PublicKey.equals (publicKey (body o)) pk
      && (tokenId (body o) =? tid)%Z
      && incrementNonce (body o)
  | None => false
  end.

(** ** Caller contexts *)

(** [CallForest.addCallers], also recording each update together with the
    context in which the loop processes it. *)
Fixpoint addCallersTraced `{Externals} (fuel : nat) (updates : list loc)
    (context : CallerContext.t) (h : Heap)
  : result (Heap * list (loc * CallerContext.t)) :=
  match fuel with
  | 0 => OutOfFuel
  | S fuel' =>
      forM (fun update '(h, trace) =>
              u ← deref (h !! update);
              let caller :=
                if isDelegateCall u then CallerContext.caller context
                else CallerContext.self context in
              let self :=
                if isDelegateCall u then CallerContext.self context
                else Token.getId (publicKey (body u)) (tokenId (body u)) in
              let h := alter (with_body (with_caller caller)) update h in
              let childContext := CallerContext.mk self caller in
              '(h, below) ← addCallersTraced fuel' (accountUpdates (children u))
                               childContext h;
              Ok (h, trace ++ (update, context) :: below))
           updates (h, [])
  end.

(** The context that an update hands to its children. *)
Definition childContext `{Externals} (h : Heap) (l : loc) (context : CallerContext.t)
  : CallerContext.t :=
  match h !! l with
  | Some u =>
      CallerContext.mk
        (if isDelegateCall u then CallerContext.self context
         else Token.getId (publicKey (body u)) (tokenId (body u)))
        (if isDelegateCall u then CallerContext.caller context
         else CallerContext.self context)
  | None => context
  end.

(** The context below a line of ancestors, nearest first. *)
Definition pathContext `{Externals} (h : Heap) (anc : list loc) : CallerContext.t :=
  fold_right (childContext h) CallForest.rootContext anc.

(** The caller that [addCallers] assigns to an update in a context. *)
Definition callerIn (h : Heap) (l : loc) (context : CallerContext.t) : Field :=
  match h !! l with
  | Some u =>
      if isDelegateCall u then CallerContext.caller context
      else CallerContext.self context
  | None => CallerContext.self context
  end.

Definition callerAt (h : Heap) (l : loc) : option Field :=
  (fun a => caller (body a)) <$> h !! l.

(** The [parent] of every node of the forest is its nearest ancestor, and
    [undefined] for a root. *)
Definition parentsOk (h : Heap) (ts : list tree) : Prop :=
  forall l anc, In (l, anc) (flat_map (ancestry []) ts) ->
                parent <$> h !! l = Some (head anc).

(** What [addCallers] records and assigns on a forest below the ancestors
    [anc]. *)
Definition tracedContexts `{Externals} (h : Heap) (anc : list loc) (ts : list tree)
  : list (loc * CallerContext.t) :=
  map (fun p => (p.1, pathContext h p.2)) (flat_map (ancestry anc) ts).

Definition tracedCallers `{Externals} (h : Heap) (anc : list loc) (ts : list tree)
  : list (loc * Field) :=
  map (fun p => (p.1, callerIn h p.1 (pathContext h p.2))) (flat_map (ancestry anc) ts).

(** ** Clones *)

(** The copy of an update with the clones of its children in place of its
    children. *)
Definition cloneOf (a : AccountUpdate) (clones : list loc) : AccountUpdate :=
  mkAccountUpdate (id a) (label a) (body a) (isDelegateCall a) (authorization a)
                  (lazyAuthorization a) (mkChildren (callsType (children a)) clones)
                  (parent a) (isSelf a).

(** ** Signing *)

(** The private key that signs for a public key: the key given with the
    intent, else the first additional key whose public key is that key. *)
Definition keyFor `{Externals} (additionalKeys : list PrivateKey)
    (explicit : option PrivateKey) (pk : PublicKey) : option PrivateKey :=
  match explicit with
  | Some k => Some k
  | None => find (fun sk => PublicKey.equals (toPublicKey sk) pk) additionalKeys
  end.

(** The update has a lazy signature and there is no key for it. *)
Definition missingKey `{Externals} (additionalKeys : list PrivateKey) (a : AccountUpdate)
  : bool :=
  match lazyAuthorization a with
  | Some (lazy_signature sig) =>
      match keyFor additionalKeys (privateKey sig) (publicKey (body a)) with
      | Some _ => false
      | None => true
      end
  | _ => false
  end.

(** The update that takes the place of [a] in the signed command: its clone,
    signed when [a] has a lazy signature. *)
Definition signedClone `{Externals} (cs : Commitments) (additionalKeys : list PrivateKey)
    (a : AccountUpdate) (clones : list loc) : AccountUpdate :=
  match lazyAuthorization a with
  | Some (lazy_signature sig) =>
      match keyFor additionalKeys (privateKey sig) (publicKey (body a)) with
      | Some k =>
          mkAccountUpdate (id a) (label a) (body a) (isDelegateCall a)
            (mkControl None
               (Some (signFieldElement
                        (if useFullCommitment (body a) then fullCommitment cs
                         else commitment cs) k)))
            None (mkChildren (callsType (children a)) clones) (parent a) (isSelf a)
      | None => cloneOf a clones
      end
  | _ => cloneOf a clones
  end.

(** The fee payer of the signed command. *)
Definition signedFeePayer `{Externals} (cs : Commitments) (additionalKeys : list PrivateKey)
    (fp : FeePayerUnsigned) : FeePayer :=
  match fp_lazyAuthorization fp with
  | None => mkFeePayer (fp_body fp) (fp_authorization fp)
  | Some lz =>
      match keyFor additionalKeys (privateKey lz) (fp_publicKey (fp_body fp)) with
      | Some k => mkFeePayer (fp_body fp) (signFieldElement (fullCommitment cs) k)
      | None => mkFeePayer (fp_body fp) (fp_authorization fp)
      end
  end.

(** The fee payer has a lazy signature and there is no key for it. *)
Definition missingFeePayerKey `{Externals} (additionalKeys : list PrivateKey)
    (fp : FeePayerUnsigned) : bool :=
  match fp_lazyAuthorization fp with
  | Some lz =>
      match keyFor additionalKeys (privateKey lz) (fp_publicKey (fp_body fp)) with
      | Some _ => false
      | None => true
      end
  | None => false
  end.

(** A command to sign: the fee payer and update 0 wait for the key of
    [exampleKey], update 1 carries its own key and asks for the full
    commitment, update 2 waits for a proof. *)
Definition signUpdate (i : Id) (pk : PublicKey) (full : bool)
    (lz : option LazyAuthorization) : AccountUpdate :=
  mkAccountUpdate i ""
    (mkBody pk TokenId.default TokenId.default 0%Z 0 full false
            (mkAuthorizationKind false false))
    false (mkControl None None) lz (mkChildren CallsNone []) None false.

Definition signHeap : Heap :=
  [ signUpdate 30 exampleKey false (Some (lazy_signature (mkLazySignature None)));
    signUpdate 31 (PublicKey.mk 9%Z false) true
      (Some (lazy_signature (mkLazySignature (Some (PrivateKey.mk 77%Z)))));
    signUpdate 32 exampleKey false (Some (lazy_proof (mkLazyProof "update" 0%Z))) ].

Definition signCommand : ZkappCommand.t :=
  ZkappCommand.mk
    (mkFeePayerUnsigned (mkFeePayerBody exampleKey (mkUInt32 0%Z) 0%Z None) "dummy"
       (Some (mkLazySignature None)))
    [0; 1; 2] "memo".

Definition signForest : list tree := [Node 0 []; Node 1 []; Node 2 []].



Definition nestedForest : list tree := [Node 0 [Node 1 []]].

(** A transaction with two top-level updates, objects 0 and 1. *)
Definition linkState : State :=
  mkState [exampleUpdate 40 exampleKey [] None;
           exampleUpdate 41 (PublicKey.mk 9%Z false) [] None]
          (Some (CurrentTransaction.mk (Some exampleKey) [0; 1]))
          None.

(** Views of a state: the children of an object, the top-level list and the
    parent of an object. *)
Definition childrenOf (l : loc) (st : State) : option (list loc) :=
  (fun a => accountUpdates (children a)) <$> heap st !! l.
Definition topLevel (st : State) : option (list loc) :=
  CurrentTransaction.accountUpdates <$> currentTransaction st.
Definition parentOf (l : loc) (st : State) : option (option loc) :=
  parent <$> heap st !! l.

(** A transaction of the sender [exampleKey]: object 0 is a root with the
    child 1, object 2 is a second root; all three target the account of
    [exampleKey], and objects 0 and 1 increment its nonce. *)
Definition nonceUpdate (i : Id) (inc : bool) (cs : list loc) (p : option loc)
  : AccountUpdate :=
  mkAccountUpdate i ""
    (mkBody exampleKey TokenId.default TokenId.default 0%Z 0 false inc
            (mkAuthorizationKind false false))
    false (mkControl None None) None (mkChildren CallsNone cs) p false.

Definition nonceState : State :=
  mkState [nonceUpdate 20 true [1] None; nonceUpdate 21 true [] (Some 0);
           nonceUpdate 22 false [] None]
          (Some (CurrentTransaction.mk (Some exampleKey) [0; 2]))
          None.

Definition nonceForest : list tree := [Node 0 [Node 1 []]; Node 2 []].

(** The token id of the nearest ancestor that is not a delegate call, the
    default token id when there is none; [anc] lists the ancestors, nearest
    first. *)
Fixpoint callingToken `{Externals} (h : Heap) (anc : list loc) : Field :=
  match anc with
  | [] => TokenId.default
  | p :: anc' =>
      match h !! p with
      | Some u =>
          if isDelegateCall u then callingToken h anc'
          else Token.getId (publicKey (body u)) (tokenId (body u))
      | None => callingToken h anc'
      end
  end.

(** The stand-ins, inside a checked computation. *)
Definition checkedExternals : Externals := {|
  hashWithPrefix := @hashWithPrefix exampleExternals;
  prefix_accountUpdateNode := @prefix_accountUpdateNode exampleExternals;
  prefix_accountUpdateCons := @prefix_accountUpdateCons exampleExternals;
  hashAccountUpdate := @hashAccountUpdate exampleExternals;
  inCheckedComputation := true;
  customTokenId := @customTokenId exampleExternals;
  transactionCommitments := @transactionCommitments exampleExternals;
  signFieldElement := @signFieldElement exampleExternals;
  toPublicKey := @toPublicKey exampleExternals;
  toBase58 := @toBase58 exampleExternals;
  accountNonce := @accountNonce exampleExternals;
  UInt32_from := @UInt32_from exampleExternals;
  random := @random exampleExternals;
|}.

(** Object 0 has the children 1 and 2; object 1 is a dummy that claims the
    children hash 5 and has no children; object 2 is a leaf; object 3 has
    the child 2 only. *)
Definition hashHeap : Heap :=
  [ exampleUpdate 50 exampleKey [1; 2] None;
    with_callsType (CallsEquals 5%Z) (exampleUpdate 51 PublicKey.empty [] (Some 0));
    exampleUpdate 52 exampleKey [] (Some 0);
    exampleUpdate 53 exampleKey [2] None ].

(** The list without its first element that satisfies [p]. *)
Fixpoint removeFirst {A} (p : A -> bool) (l : list A) : list A :=
  match l with
  | [] => []
  | x :: l' => if p x then l' else x :: removeFirst p l'
  end.

(** A transaction with the top-level updates 0 and 1; object 2 is the child
    of object 1. *)
Definition moveState : State :=
  mkState [exampleUpdate 60 exampleKey [] None;
           exampleUpdate 61 (PublicKey.mk 9%Z false) [2] None;
           exampleUpdate 62 exampleKey [] (Some 1)]
          (Some (CurrentTransaction.mk (Some exampleKey) [0; 1]))
          None.

(** [copyOf h h' t t']: the tree [t'] of objects of [h'] is a copy of the
    tree [t] of objects of [h]: node by node the copy has the fields of the
    original, and for children the copies of its children, in their order. *)
#[warnings="-register-all"]
Inductive copyOf (h h' : Heap) : tree -> tree -> Prop :=
| copyOf_node l l' a ts ts' :
    h !! l = Some a ->
    h' !! l' = Some (cloneOf a (map root ts')) ->
    Forall2 (copyOf h h') ts ts' ->
    copyOf h h' (Node l ts) (Node l' ts').

(** The object [l'] of [h'] stands for the root of the tree [t] of [h]: it
    is [f a clones] for the root object [a] of [t], where [clones] are the
    roots of copies of the trees below it, made of objects that [h] does not
    have. *)
Definition copyWith (f : AccountUpdate -> list loc -> AccountUpdate) (h h' : Heap)
    (t : tree) (l' : loc) : Prop :=
  exists a ts',
    h !! root t = Some a
    /\ h' !! l' = Some (f a (map root ts'))
    /\ Forall2 (copyOf h h') (subtrees t) ts'
    /\ Forall (fun x => length h <= x) (flat_map preorder ts').

(** Two updates agree in every field but the list of their children. *)
Definition sameButChildren (a a' : AccountUpdate) : Prop :=
  with_accountUpdates (fun _ => []) a' = with_accountUpdates (fun _ => []) a.

(** [Permissions.fromJSON].  An object is the list of its entries in
    property order, which is the order of [Object.entries]; the keys of an
    object are distinct, so [Object.fromEntries] gives back an object with
    the mapped entries in the same order. *)
Definition Permissions_fromJSON (permissions : list (string * string))
  : result (list (string * Permission)) :=
  forM (fun '(k, v) entries =>
          p ← Permissions.fromString v;
          Ok (entries ++ [(k, p)]))
       permissions [].

(** The JSON of the default permissions. *)
Definition examplePermissions : list (string * string) :=
  [ ("editState", "Proof"); ("send", "Proof"); ("receive", "None");
    ("setDelegate", "Signature"); ("setPermissions", "Signature");
    ("setVerificationKey", "Signature"); ("setZkappUri", "Signature");
    ("editSequenceState", "Proof"); ("setTokenSymbol", "Signature");
    ("incrementNonce", "Signature"); ("setVotingFor", "Signature") ].

(** ** Proving *)

(** The proof that a prover returns; its content is opaque to this file. *)
Abbreviation PicklesProof := string.

(** A compiled prover, by its number. *)
Abbreviation Prover := nat.

Module ZkappPublicInput.
Record t := mk { accountUpdate : Field; calls : Field }.
End ZkappPublicInput.

Module Proof.
Record t := mk {
  publicInput : ZkappPublicInput.t;
  proof : PicklesProof;
  maxProofsVerified : nat;
}.
End Proof.

(** The static fields of a contract class that [addMissingProofs] reads; of
    a method it reads the [methodName] only. *)
Module ZkappClass.
Record t := mk {
  name : string;
  _provers : option (list Prover);
  _methods : option (list string);
  _maxProofsVerified : nat;
}.
End ZkappClass.

(** What [addMissingProofs] calls and this file does not define.  The
    provers act on a world of their own; a run of a prover returns a proof
    or throws, and leaves the world as the run made it in both cases. *)
Class Proving := {
  World : Type;
  (** the [ZkappClass] field of a lazy proof *)
  zkappClassOf : LazyProof -> ZkappClass.t;
  (** [Pickles.dummyBase64Proof()] *)
  dummyBase64Proof : string;
  (** [Pickles.proofToBase64Transaction] *)
  proofToBase64Transaction : PicklesProof -> string;
  (** [zkAppProver.run] around the call [provers[i](publicInputFields,
      previousProofs)], for the entry [provers[i]], the public input, the
      command, the cloned update in its store, its index and its lazy
      proof *)
  runProver : option Prover -> list Field -> ZkappCommand.t -> Heap -> loc -> nat ->
              LazyProof -> World -> result PicklesProof * World;
}.

(** A computation that may run provers: it returns or throws, and the world
    of the provers is what the runs so far made it; a throw undoes none of
    them. *)
Definition proving `{Proving} (A : Type) : Type := World -> result A * World.

#[global] Instance proving_ret `{Proving} : MRet proving := fun A a w => (Ok a, w).
#[global] Instance proving_bind `{Proving} : MBind proving := fun A B f m w =>
  match m w with
  | (Ok a, w) => f a w
  | (Throw msg, w) => (Throw msg, w)
  | (OutOfFuel, w) => (OutOfFuel, w)
  end.

(** A step that runs no prover. *)
Definition still `{Proving} {A} (r : result A) : proving A := fun w => (r, w).

(** A [for] loop over the indices and the elements of an array. *)
Fixpoint forMi `{Proving} {A St} (body : nat -> A -> St -> proving St) (i : nat)
    (l : list A) (s : St) : proving St :=
  match l with
  | [] => mret s
  | x :: l' => s' ← body i x s; forMi body (S i) l' s'
  end.

(** [AccountUpdate.prototype.toPublicInput] *)
Definition toPublicInput `{Externals} (fuel : nat) (h : Heap) (this : loc)
  : result ZkappPublicInput.t :=
  a ← deref (h !! this);
  let accountUpdate := hashAccountUpdate a in
  calls ← CallForest.hashChildren fuel h this;
  Ok (ZkappPublicInput.mk accountUpdate calls).

(** [addProof] inside [addMissingProofs] *)
Definition addProof `{Externals} `{Proving} (fuel : nat) (zkappCommand : ZkappCommand.t)
    (proofsEnabled : bool) (index : nat) (accountUpdate : loc) (h : Heap)
  : proving (loc * option Proof.t * Heap) :=
  '(accountUpdate, h) ← still (clone fuel accountUpdate h);
  a ← still (deref (h !! accountUpdate));
  match lazyAuthorization a with
  | Some (lazy_proof lz) =>
      if negb proofsEnabled
      then mret (accountUpdate, None,
                 alter (Authorization.setProof dummyBase64Proof) accountUpdate h)
      else
        publicInput ← still (toPublicInput fuel h accountUpdate);
        let publicInputFields :=
          [ZkappPublicInput.accountUpdate publicInput; ZkappPublicInput.calls publicInput] in
        let ZkappClass := zkappClassOf lz in
        match ZkappClass._provers ZkappClass with
        | None =>
            still (Throw ("Cannot prove execution of " +:+ methodName lz
                            +:+ "(), no prover found. Try calling `await "
                            +:+ ZkappClass.name ZkappClass
                            +:+ ".compile()` first, this will cache provers in the background."))
        | Some provers =>
            let methodError :=
              "Error when computing proofs: Method " +:+ methodName lz
                +:+ " not found. Make sure your environment supports decorators, and annotate with `@method "
                +:+ methodName lz +:+ "`." in
            match ZkappClass._methods ZkappClass with
            | None => still (Throw methodError)
            | Some methods =>
                match findIndex (fun m => String.eqb m (methodName lz)) methods with
                | None => still (Throw methodError)
                | Some i =>
                    proof ← runProver (provers !! i) publicInputFields zkappCommand
                              h accountUpdate index lz;
                    let h := alter (Authorization.setProof (proofToBase64Transaction proof))
                               accountUpdate h in
                    mret (accountUpdate,
                          Some (Proof.mk publicInput proof
                                  (ZkappClass._maxProofsVerified ZkappClass)),
                          h)
                end
            end
        end
  | _ => mret (accountUpdate, None, h)
  end.

(** [addMissingProofs]: the proved command and the proofs, in the store
    after the run. *)
Definition addMissingProofs `{Externals} `{Proving} (fuel : nat)
    (zkappCommand : ZkappCommand.t) (proofsEnabled : bool) (h : Heap)
  : proving (ZkappCommand.t * list (option Proof.t) * Heap) :=
  let feePayer := ZkappCommand.feePayer zkappCommand in
  let accountUpdates := ZkappCommand.accountUpdates zkappCommand in
  let memo := ZkappCommand.memo zkappCommand in
  '(accountUpdatesProved, proofs, h) ←
    forMi (fun i accountUpdate '(accountUpdatesProved, proofs, h) =>
             '(accountUpdateProved, proof, h) ←
               addProof fuel zkappCommand proofsEnabled i accountUpdate h;
             mret (accountUpdatesProved ++ [accountUpdateProved], proofs ++ [proof], h))
          0 accountUpdates ([], [], h);
  mret (ZkappCommand.mk feePayer accountUpdatesProved memo, proofs, h).

(** The update that takes the place of [a] when no prover runs: its clone,
    with the dummy proof when [a] has a lazy proof. *)
Definition unprovedClone `{Proving} (a : AccountUpdate) (clones : list loc) : AccountUpdate :=
  if Authorization.hasLazyProof a
  then Authorization.setProof dummyBase64Proof (cloneOf a clones)
  else cloneOf a clones.

(** The error of [addProof] for a lazy proof whose contract class is not
    ready: no provers, or no method of the name. *)
Definition proverMissing `{Proving} (lz : LazyProof) : option string :=
  let methodError :=
    "Error when computing proofs: Method " +:+ methodName lz
      +:+ " not found. Make sure your environment supports decorators, and annotate with `@method "
      +:+ methodName lz +:+ "`." in
  match ZkappClass._provers (zkappClassOf lz) with
  | None =>
      Some ("Cannot prove execution of " +:+ methodName lz
              +:+ "(), no prover found. Try calling `await "
              +:+ ZkappClass.name (zkappClassOf lz)
              +:+ ".compile()` first, this will cache provers in the background.")
  | Some _ =>
      match ZkappClass._methods (zkappClassOf lz) with
      | None => Some methodError
      | Some methods =>
          match findIndex (fun m => String.eqb m (methodName lz)) methods with
          | None => Some methodError
          | Some _ => None
          end
      end
  end.

(** Stand-ins for the provers: the world counts their runs; the contract
    of the method [update] has not been compiled. *)
Definition exampleProving : Proving := {|
  World := nat;
  zkappClassOf := fun lz =>
    if String.eqb (methodName lz) "update"
    then ZkappClass.mk "Dex" None (Some ["update"]) 0
    else ZkappClass.mk "Token" (Some [0]) (Some ["mint"]) 0;
  dummyBase64Proof := "dummy-proof";
  proofToBase64Transaction := fun proof => proof;
  runProver := fun prover fields command h update index lz runs => (Ok "proof", S runs);
|}.

(** ** Signing a transaction in JSON *)

(** The JSON of a command, as [JSON.parse] gives it: the fields that
    [signJsonTransaction] reads, the authorizations, and [rest] for
    everything else. *)
Module Json.
Record AccountUpdate := mkAccountUpdate {
  body_publicKey : string;
  authorization_proof : option string;
  authorization_signature : option string;
  rest : string;
}.
Record FeePayer := mkFeePayer {
  fp_body_publicKey : string;
  fp_authorization : string;
  fp_rest : string;
}.
Record ZkappCommand := mkZkappCommand {
  feePayer : FeePayer;
  accountUpdates : list AccountUpdate;
  memo : string;
}.
End Json.

(** The functions of the ledger bindings that sign a command in JSON, on
    the parsed JSON, and [PrivateKey.fromBase58]. *)
Class JsonLedger := {
  signFeePayer : Json.ZkappCommand -> PrivateKey -> result Json.ZkappCommand;
  signOtherAccountUpdate : Json.ZkappCommand -> PrivateKey -> nat -> result Json.ZkappCommand;
  fromBase58 : string -> result PrivateKey;
}.

(** The loop of [signJsonTransaction]; the command and its length are read
    anew in every round. *)
Fixpoint signOtherAccountUpdates `{JsonLedger} (fuel : nat) (privateKey : PrivateKey)
    (publicKey : string) (i : nat) (zkappCommand : Json.ZkappCommand)
  : result Json.ZkappCommand :=
  match fuel with
  | 0 => OutOfFuel
  | S fuel' =>
      match Json.accountUpdates zkappCommand !! i with
      | None => Ok zkappCommand
      | Some accountUpdate =>
          zkappCommand ←
            (if String.eqb (Json.body_publicKey accountUpdate) publicKey
                && bool_decide (Json.authorization_proof accountUpdate = None)
             then signOtherAccountUpdate zkappCommand privateKey i
             else Ok zkappCommand);
          signOtherAccountUpdates fuel' privateKey publicKey (S i) zkappCommand
      end
  end.

(** [signJsonTransaction], from the parsed [transactionJson] to the command
    that it serializes *)
Definition signJsonTransaction `{Externals} `{JsonLedger} (fuel : nat)
    (transactionJson : Json.ZkappCommand) (privateKey : PrivateKey + string)
  : result Json.ZkappCommand :=
  privateKey ← match privateKey with
               | inl privateKey => Ok privateKey
               | inr privateKey => fromBase58 privateKey
               end;
  let publicKey := toBase58 (toPublicKey privateKey) in
  let zkappCommand := transactionJson in
  let feePayer := Json.feePayer zkappCommand in
  zkappCommand ←
    (if String.eqb (Json.fp_body_publicKey feePayer) publicKey
     then signFeePayer zkappCommand privateKey
     else Ok zkappCommand);
  signOtherAccountUpdates fuel privateKey publicKey 0 zkappCommand.

(** The public key and the proof of the listed updates of a command. *)
Definition keysAndProofs (zkappCommand : Json.ZkappCommand)
  : list (string * option string) :=
  map (fun u => (Json.body_publicKey u, Json.authorization_proof u))
      (Json.accountUpdates zkappCommand).

(** The listed update at an index belongs to the public key and is not
    authorized by a proof. *)
Definition signable (zkappCommand : Json.ZkappCommand) (publicKey : string) (i : nat)
  : bool :=
  match Json.accountUpdates zkappCommand !! i with
  | Some u =>
      String.eqb (Json.body_publicKey u) publicKey
      && bool_decide (Json.authorization_proof u = None)
  | None => false
  end.

(** Stand-ins for the ledger functions: they write the text of the private
    key in place of the signature. *)
Definition exampleLedger : JsonLedger := {|
  signFeePayer := fun zkappCommand key =>
    Ok (Json.mkZkappCommand
          (Json.mkFeePayer (Json.fp_body_publicKey (Json.feePayer zkappCommand)) "signed"
             (Json.fp_rest (Json.feePayer zkappCommand)))
          (Json.accountUpdates zkappCommand) (Json.memo zkappCommand));
  signOtherAccountUpdate := fun zkappCommand key i =>
    Ok (Json.mkZkappCommand (Json.feePayer zkappCommand)
          (alter (fun u => Json.mkAccountUpdate (Json.body_publicKey u)
                             (Json.authorization_proof u) (Some "signed") (Json.rest u))
                 i (Json.accountUpdates zkappCommand))
          (Json.memo zkappCommand));
  fromBase58 := fun text => Ok (PrivateKey.mk (Z.of_nat (String.length text)));
|}.

(** A command in JSON: the fee payer and the updates 0 and 2 belong to
    [exampleKey]; update 2 is authorized by a proof. *)
Definition exampleJson : Json.ZkappCommand :=
  Json.mkZkappCommand (Json.mkFeePayer "B62example" "" "")
    [ Json.mkAccountUpdate "B62example" None None "";
      Json.mkAccountUpdate "B62other" None None "";
      Json.mkAccountUpdate "B62example" (Some "proof") None "" ]
    "memo".

(** * Correctness *)

(** Reads through a sequence of field assignments. *)
Ltac lookup_alter :=
  repeat (rewrite list_lookup_alter;
          first [rewrite decide_True by done | rewrite decide_False by done]).

(** ** Permissions *)

(** C8: [Permissions.fromString] returns the permission named by each of the
    five strings None, Either, Proof, Signature and Impossible, and throws
    on every other string. *)
Theorem fromString_spec (permission : string) :
  match Permissions.fromString permission with
  | Ok p =>
      (permission = "None" /\ p = Permission.none)
      \/ (permission = "Either" /\ p = Permission.proofOrSignature)
      \/ (permission = "Proof" /\ p = Permission.proof)
      \/ (permission = "Signature" /\ p = Permission.signature)
      \/ (permission = "Impossible" /\ p = Permission.impossible)
  | Throw msg =>
      (permission ∉ ["None"; "Either"; "Proof"; "Signature"; "Impossible"])
      /\ msg = "Cannot parse invalid permission. " +:+ permission +:+ " does not exist."
  | OutOfFuel => False
  end.
Proof.
  unfold Permissions.fromString.
  repeat match goal with
         | |- context [String.eqb ?a ?b] =>
             destruct (String.eqb_spec a b) as [->|?]
         end; simpl; try tauto.
  split; [|done].
  rewrite !elem_of_cons, elem_of_nil. tauto.
Qed.

(** ** Authorization slots *)

Lemma authorizationCall_slots (a : AccountUpdate) (c : AuthorizationCall) :
  match c with
  | SetSignature _ | SetProof _ =>
      lazyAuthorization (authorizationCall a c) = None
      /\ finalized (authorizationCall a c) = true
  | _ =>
      authorization (authorizationCall a c) = mkControl None None
      /\ pending (authorizationCall a c) = true
  end.
Proof. by destruct c. Qed.

Lemma authorizationCall_xor (a : AccountUpdate) (c : AuthorizationCall) :
  xorb (finalized (authorizationCall a c)) (pending (authorizationCall a c)) = true.
Proof. by destruct c. Qed.

(** C5, as the code has it: a freshly constructed update has no lazy
    authorization, so at most one of the two slots is ever filled, through
    any sequence of [Authorization] calls; after at least one call exactly
    one is.  [setSignature] and [setProof] clear [lazyAuthorization]; the
    three lazy setters reset [authorization] to the empty object. *)
Theorem authorization_slots_exclusive (i : Id) (b : Body) (auth : Control)
    (isSelf : bool) (calls : list AuthorizationCall) :
  let a := fold_left authorizationCall calls (AccountUpdate_init i b auth isSelf) in
  (finalized a && pending a = false)
  /\ (calls = [] \/ xorb (finalized a) (pending a) = true)
  /\ (forall a' c,
        match c with
        | SetSignature _ | SetProof _ =>
            lazyAuthorization (authorizationCall a' c) = None
            /\ finalized (authorizationCall a' c) = true
        | _ =>
            authorization (authorizationCall a' c) = mkControl None None
            /\ pending (authorizationCall a' c) = true
        end).
Proof.
  intros a.
  assert (Hlast : calls = [] \/ xorb (finalized a) (pending a) = true).
  { subst a. destruct calls as [|c calls _] using rev_ind; [by left|right].
    rewrite fold_left_app. simpl. apply authorizationCall_xor. }
  split; [|split; [done|apply authorizationCall_slots]].
  destruct Hlast as [->|Hx].
  - subst a. simpl. unfold pending. simpl. by rewrite andb_false_r.
  - by destruct (finalized a), (pending a).
Qed.

(** C5, counterexample to the claim as stated: the update that
    [new AccountUpdate(body)] builds has neither a finalized authorization
    nor a lazy one. *)
Lemma fresh_update_has_no_authorization :
  let a := AccountUpdate_init 7 (Body.keepAll (PublicKey.mk 5%Z true)) (mkControl None None) false in
  finalized a = false /\ pending a = false /\ Authorization.hasAny a = false.
Proof. by vm_compute. Qed.

(** ** Loops and forests *)

Lemma forM_app {A S} (body : A -> S -> result S) (l1 l2 : list A) (s : S) :
  forM body (l1 ++ l2) s = (s' ← forM body l1 s; forM body l2 s').
Proof.
  revert s. induction l1 as [|x l1 IH]; intros s; simpl; [done|].
  destruct (body x s); simpl; auto.
Qed.

Lemma tree_forall_ind (P : tree -> Prop) :
  (forall l ts, Forall P ts -> P (Node l ts)) -> forall t, P t.
Proof.
  intros IH. fix F 1. intros [l ts]. apply IH.
  induction ts as [|t ts IHts]; constructor; [apply F|apply IHts].
Qed.

Lemma fits_subtrees (fuel : nat) (l : loc) (ts : list tree) :
  height (Node l ts) < S fuel -> fits fuel ts.
Proof. unfold fits, forestHeight. simpl. lia. Qed.

Lemma fits_cons (fuel : nat) (t : tree) (ts : list tree) :
  fits fuel (t :: ts) <-> height t < fuel /\ fits fuel ts.
Proof. unfold fits, forestHeight. simpl. lia. Qed.

Lemma fits_pos (fuel : nat) (ts : list tree) : fits fuel ts -> exists fuel', fuel = S fuel'.
Proof. unfold fits. destruct fuel; [lia|eauto]. Qed.

Lemma map_fst_ancestry (anc : list loc) (t : tree) :
  map fst (ancestry anc t) = preorder t.
Proof.
  revert anc. induction t as [l ts IH] using tree_forall_ind; intros anc; simpl.
  f_equal. induction IH as [|t ts Ht _ IHts]; simpl; [done|].
  by rewrite map_app, Ht, IHts.
Qed.

Lemma map_fst_ancestries (anc : list loc) (ts : list tree) :
  map fst (flat_map (ancestry anc) ts) = flat_map preorder ts.
Proof.
  induction ts as [|t ts IH]; simpl; [done|].
  by rewrite map_app, map_fst_ancestry, IH.
Qed.

(** Every ancestor list below [anc] ends with [anc]. *)
Lemma ancestry_suffix (anc : list loc) (t : tree) (p : loc * list loc) :
  In p (ancestry anc t) -> exists pre, p.2 = pre ++ anc.
Proof.
  revert anc. induction t as [l ts IH] using tree_forall_ind; intros anc; simpl.
  intros [<-|Hin]; [by exists []|].
  apply in_flat_map in Hin as (t & Ht & Hp).
  rewrite List.Forall_forall in IH. destruct (IH t Ht _ Hp) as [pre ->].
  exists (pre ++ [l]). by rewrite <- app_assoc.
Qed.

(** ** Stores that differ in [callDepth] and [caller] only *)

Lemma erase_with_callDepth (d : nat) (a : AccountUpdate) :
  erase (with_body (with_callDepth d) a) = erase a.
Proof. done. Qed.

Lemma erase_with_caller (c : Field) (a : AccountUpdate) :
  erase (with_body (with_caller c) a) = erase a.
Proof. done. Qed.

Lemma erase_alter (f : AccountUpdate -> AccountUpdate) (l : loc) (h : Heap) :
  (forall a, erase (f a) = erase a) -> erase <$> alter f l h = erase <$> h.
Proof.
  intros Hf. rewrite (list_fmap_alter erase f (fun a => a)).
  - by apply list_alter_id.
  - apply Forall_forall. intros; apply Hf.
Qed.

Lemma erase_lookup (h h' : Heap) (l : loc) (a : AccountUpdate) :
  erase <$> h = erase <$> h' -> h !! l = Some a ->
  exists a', h' !! l = Some a' /\ erase a' = erase a.
Proof.
  intros He Hl.
  assert (H : (erase <$> h') !! l = Some (erase a))
    by (rewrite <- He, list_lookup_fmap, Hl; done).
  rewrite list_lookup_fmap in H. destruct (h' !! l) as [a'|]; [|done].
  exists a'. split; [done|]. simpl in H. congruence.
Qed.

Lemma erase_dummyAt (h h' : Heap) (l : loc) :
  erase <$> h = erase <$> h' -> dummyAt h l = dummyAt h' l.
Proof.
  intros He. unfold dummyAt.
  destruct (h !! l) as [a|] eqn:Hl.
  - destruct (erase_lookup _ _ _ _ He Hl) as (a' & -> & Ha).
    unfold isDummy. by replace (publicKey (body a)) with (publicKey (body (erase a)))
      by done; rewrite <- Ha.
  - destruct (h' !! l) as [a'|] eqn:Hl'; [|done].
    destruct (erase_lookup _ _ _ _ (eq_sym He) Hl') as (a & Ha & _). congruence.
Qed.

Lemma erase_shape (h h' : Heap) (t : tree) :
  erase <$> h = erase <$> h' -> shape h t -> shape h' t.
Proof.
  intros He. induction t as [l ts IH] using tree_forall_ind.
  inversion 1 as [l' a ts' Hl Hc Hts]; subst.
  destruct (erase_lookup _ _ _ _ He Hl) as (a' & Hl' & Ha).
  apply shape_node with a'; [done| |].
  - replace (children a') with (children (erase a')) by done. by rewrite Ha.
  - rewrite Forall_forall in *. auto.
Qed.

Lemma erase_shapes (h h' : Heap) (ts : list tree) :
  erase <$> h = erase <$> h' -> Forall (shape h) ts -> Forall (shape h') ts.
Proof. intros He H. eapply Forall_impl; [exact H|]. intros t. by apply erase_shape. Qed.

Lemma erase_flatDepth (h h' : Heap) (d : nat) (t : tree) :
  erase <$> h = erase <$> h' -> flatDepth h d t = flatDepth h' d t.
Proof.
  intros He. revert d. induction t as [l ts IH] using tree_forall_ind; intros d; simpl.
  rewrite (erase_dummyAt h h' l He). destruct (dummyAt h' l); [done|]. f_equal.
  induction IH as [|t ts Ht _ IHts]; simpl; [done|]. by rewrite Ht, IHts.
Qed.

Lemma erase_flatDepths (h h' : Heap) (d : nat) (ts : list tree) :
  erase <$> h = erase <$> h' ->
  flat_map (flatDepth h d) ts = flat_map (flatDepth h' d) ts.
Proof.
  intros He. induction ts as [|t ts IH]; simpl; [done|].
  by rewrite (erase_flatDepth h h' d t He), IH.
Qed.

Lemma erase_assign {V} (f : V -> AccountUpdate -> AccountUpdate)
    (ps : list (loc * V)) (h : Heap) :
  (forall v a, erase (f v a) = erase a) -> erase <$> assign f ps h = erase <$> h.
Proof.
  intros Hf. revert h. induction ps as [|p ps IH]; intros h; simpl; [done|].
  unfold assign in *. simpl. rewrite IH. by apply erase_alter.
Qed.

Lemma erase_setDepths (ps : list (loc * nat)) (h : Heap) :
  erase <$> setDepths ps h = erase <$> h.
Proof. by apply erase_assign. Qed.

Lemma erase_setCallers (ps : list (loc * Field)) (h : Heap) :
  erase <$> setCallers ps h = erase <$> h.
Proof. by apply erase_assign. Qed.

Lemma assign_app {V} (f : V -> AccountUpdate -> AccountUpdate)
    (ps qs : list (loc * V)) (h : Heap) :
  assign f (ps ++ qs) h = assign f qs (assign f ps h).
Proof. apply fold_left_app. Qed.

Lemma setDepths_app (ps qs : list (loc * nat)) (h : Heap) :
  setDepths (ps ++ qs) h = setDepths qs (setDepths ps h).
Proof. apply assign_app. Qed.

Lemma assign_lookup_notin {V} (f : V -> AccountUpdate -> AccountUpdate)
    (ps : list (loc * V)) (h : Heap) (l : loc) :
  ~ In l (map fst ps) -> assign f ps h !! l = h !! l.
Proof.
  revert h. induction ps as [|[l' d] ps IH]; intros h Hl; [done|].
  simpl in Hl. change (assign f ((l', d) :: ps) h) with (assign f ps (alter (f d) l' h)).
  rewrite IH by tauto. apply list_lookup_alter_ne. tauto.
Qed.

Lemma assign_lookup {V} (f : V -> AccountUpdate -> AccountUpdate)
    (ps : list (loc * V)) (h : Heap) (l : loc) (d : V) (a : AccountUpdate) :
  NoDup (map fst ps) -> In (l, d) ps -> h !! l = Some a ->
  assign f ps h !! l = Some (f d a).
Proof.
  revert h. induction ps as [|[l' d'] ps IH]; intros h Hnd Hin Hl; [done|].
  simpl in Hnd. apply NoDup_cons in Hnd as [Hnotin Hnd].
  change (assign f ((l', d') :: ps) h) with (assign f ps (alter (f d') l' h)).
  destruct Hin as [[= -> ->]|Hin].
  - rewrite assign_lookup_notin by (by rewrite <- list_elem_of_In).
    by rewrite list_lookup_alter_eq, Hl.
  - assert (l' <> l).
    { intros ->. apply Hnotin, list_elem_of_In, in_map_iff. by exists (l, d). }
    apply IH; [done..|]. by rewrite list_lookup_alter_ne.
Qed.

(** ** Flattening *)

Lemma toFlatList_flatDepth (fuel : nat) :
  forall (ts : list tree) (h : Heap) (d : nat),
    Forall (shape h) ts -> fits fuel ts ->
    CallForest.toFlatList fuel (map root ts) d h
    = Ok (map fst (flat_map (flatDepth h d) ts),
          setDepths (flat_map (flatDepth h d) ts) h).
Proof.
  induction fuel as [|fuel IHfuel]; intros ts h d Hsh Hfit.
  { apply fits_pos in Hfit as [? ?]. discriminate. }
  simpl.
  change (map fst (flat_map (flatDepth h d) ts))
    with ([] ++ map fst (flat_map (flatDepth h d) ts)).
  generalize (@nil loc) as acc. revert h Hsh Hfit.
  induction ts as [|[l cs] ts IHts]; intros h Hsh Hfit acc; simpl.
  { by rewrite app_nil_r. }
  apply Forall_cons in Hsh as [Hl Hsh]. apply fits_cons in Hfit as [Hcs Hfit].
  inversion Hl as [l' a cs' Ha Hch Hsub]; subst.
  rewrite Ha. simpl. unfold dummyAt at 1 2. rewrite Ha.
  destruct (isDummy a) eqn:Hd; simpl.
  { by apply IHts. }
  set (h1 := alter (with_body (with_callDepth d)) l h).
  assert (He1 : erase <$> h1 = erase <$> h) by (by apply erase_alter).
  rewrite Hch, (IHfuel cs h1 (d + 1)); simpl;
    [|by apply (erase_shapes h)|by apply fits_subtrees in Hcs].
  rewrite (erase_flatDepths h1 h) by done.
  set (sub := flat_map (flatDepth h (d + 1)) cs).
  assert (He2 : erase <$> setDepths sub h1 = erase <$> h)
    by (by rewrite erase_setDepths).
  rewrite IHts; [|by apply (erase_shapes h)|done].
  rewrite (erase_flatDepths (setDepths sub h1) h) by done.
  f_equal. f_equal.
  - rewrite map_app, <- !app_assoc. done.
  - by rewrite setDepths_app.
Qed.

Lemma visible_below_dummy (h : Heap) (l : loc) (anc : list loc) (t : tree) :
  dummyAt h l = true ->
  List.filter (visible h) (ancestry (l :: anc) t) = [].
Proof.
  intros Hd.
  assert (H : forall p, In p (ancestry (l :: anc) t) -> visible h p = false).
  { intros p Hp. apply ancestry_suffix in Hp as [pre Hp].
    unfold visible. rewrite Hp. simpl.
    rewrite forallb_app. simpl. rewrite Hd. simpl.
    by rewrite andb_false_r, andb_false_r. }
  induction (ancestry (l :: anc) t) as [|p ps IH]; simpl; [done|].
  rewrite (H p) by (by left). apply IH. intros q Hq. apply H. by right.
Qed.

Lemma filter_flat_map {A B} (p : B -> bool) (f : A -> list B) (l : list A) :
  List.filter p (flat_map f l) = flat_map (fun a => List.filter p (f a)) l.
Proof.
  induction l as [|a l IH]; simpl; [done|]. by rewrite List.filter_app, IH.
Qed.

Lemma map_flat_map {A B C} (g : B -> C) (f : A -> list B) (l : list A) :
  map g (flat_map f l) = flat_map (fun a => map g (f a)) l.
Proof.
  induction l as [|a l IH]; simpl; [done|]. by rewrite map_app, IH.
Qed.

Lemma flat_map_Forall_ext {A B} (f g : A -> list B) (l : list A) :
  Forall (fun a => f a = g a) l -> flat_map f l = flat_map g l.
Proof. induction 1 as [|a l Ha _ IH]; simpl; [done|]. by rewrite Ha, IH. Qed.

(** The pruned pre-order lists the visible nodes, at the depth that is the
    number of their ancestors. *)
Lemma flatDepth_visible (h : Heap) (t : tree) :
  forall anc,
    forallb (fun l => negb (dummyAt h l)) anc = true ->
    flatDepth h (length anc) t
    = map (fun p => (p.1, length p.2)) (List.filter (visible h) (ancestry anc t)).
Proof.
  induction t as [l ts IH] using tree_forall_ind; intros anc Hanc; simpl.
  unfold visible at 1. simpl. rewrite Hanc, andb_true_r.
  destruct (dummyAt h l) eqn:Hd; simpl.
  - rewrite filter_flat_map.
    clear IH. induction ts as [|t ts IHts]; simpl; [done|].
    by rewrite visible_below_dummy.
  - f_equal. rewrite filter_flat_map, map_flat_map.
    apply flat_map_Forall_ext. eapply Forall_impl; [exact IH|]. simpl.
    intros t Ht. rewrite <- (Ht (l :: anc)).
    + simpl. by rewrite Nat.add_1_r.
    + simpl. by rewrite Hd, Hanc.
Qed.

Lemma flatDepths_visible (h : Heap) (ts : list tree) :
  flat_map (flatDepth h 0) ts
  = map (fun p => (p.1, length p.2))
        (List.filter (visible h) (flat_map (ancestry []) ts)).
Proof.
  rewrite filter_flat_map, map_flat_map. apply flat_map_Forall_ext.
  apply Forall_forall. intros t _. by apply (flatDepth_visible h t []).
Qed.

Lemma setDepths_lookup (ps : list (loc * nat)) (h : Heap) (l : loc) (d : nat)
    (a : AccountUpdate) :
  NoDup (map fst ps) -> In (l, d) ps -> h !! l = Some a ->
  setDepths ps h !! l = Some (with_body (with_callDepth d) a).
Proof. apply (assign_lookup (fun d => with_body (with_callDepth d))). Qed.

Lemma NoDup_map_fst_filter {A B} (p : A * B -> bool) (l : list (A * B)) :
  NoDup (map fst l) -> NoDup (map fst (List.filter p l)).
Proof.
  induction l as [|x l IH]; simpl; [done|].
  rewrite NoDup_cons. intros [Hx Hl]. destruct (p x); simpl; [|auto].
  apply NoDup_cons. split; [|auto].
  rewrite list_elem_of_In in *. rewrite in_map_iff in *.
  intros (y & Hy & Hin). apply Hx. exists y. split; [done|].
  by apply List.filter_In in Hin as [? _].
Qed.

(** [toFlatList] from depth 0: the visible nodes in pre-order, and the
    store with their depths assigned. *)
Lemma toFlatList_visible (fuel : nat) (ts : list tree) (h : Heap) :
  Forall (shape h) ts -> fits fuel ts ->
  let nodes := List.filter (visible h) (flat_map (ancestry []) ts) in
  CallForest.toFlatList fuel (map root ts) 0 h
  = Ok (map fst nodes, setDepths (map (fun p => (p.1, length p.2)) nodes) h).
Proof.
  intros Hsh Hfit nodes. rewrite toFlatList_flatDepth by done.
  rewrite flatDepths_visible. fold nodes. by rewrite map_map.
Qed.

Lemma shape_lookup (h : Heap) (ts : list tree) (l : loc) :
  Forall (shape h) ts -> In l (flat_map preorder ts) -> is_Some (h !! l).
Proof.
  intros Hsh Hin. apply in_flat_map in Hin as (t & Ht & Hl).
  rewrite List.Forall_forall in Hsh. specialize (Hsh t Ht). clear Ht ts.
  induction t as [r ts IH] using tree_forall_ind.
  inversion Hsh as [r' a ts' Ha Hch Hsub]; subst.
  destruct Hl as [<-|Hl]; [by eexists|].
  apply in_flat_map in Hl as (t & Ht & Hl).
  rewrite List.Forall_forall in IH, Hsub. apply (IH t Ht); [by apply Hsub|done].
Qed.

Lemma exampleForest_shape : Forall (shape exampleHeap) exampleForest.
Proof. repeat (econstructor; try reflexivity). Qed.

Lemma exampleForest_NoDup : NoDup (flat_map preorder exampleForest).
Proof. apply (bool_decide_unpack _). by vm_compute. Qed.

Lemma exampleForest_fits : fits 4 exampleForest.
Proof. unfold fits. simpl. lia. Qed.

Lemma NoDup_map_fst_inj {A B} (l : list (A * B)) (a : A) (b b' : B) :
  NoDup (map fst l) -> In (a, b) l -> In (a, b') l -> b = b'.
Proof.
  induction l as [|[a0 b0] l IH]; simpl; [done|].
  rewrite NoDup_cons, list_elem_of_In. intros [Hnotin Hnd] [H1|H1] [H2|H2].
  - congruence.
  - injection H1 as -> ->. destruct Hnotin. apply in_map_iff. by exists (a, b').
  - injection H2 as -> ->. destruct Hnotin. apply in_map_iff. by exists (a, b).
  - by apply IH.
Qed.

Lemma visible_partition (h : Heap) (l : list (loc * list loc)) :
  length (List.filter (visible h) l)
  + length (List.filter (dummyAt h) (map fst l))
  + length (List.filter (belowDummy h) l)
  = length l.
Proof.
  induction l as [|p l IH]; simpl; [done|].
  unfold visible at 1, belowDummy at 1. simpl.
  destruct (dummyAt h p.1), (forallb _ p.2); simpl; lia.
Qed.

(** C1, as the code has it: on a forest with [N] nodes of which [M] are
    dummies, [toFlatList] from depth 0 returns the nodes that are not
    dummies and have no dummy ancestor, in depth-first pre-order; there are
    [N - M - B] of them, where [B] counts the nodes that are not dummies and
    lie below a dummy; it sets the [callDepth] of each returned node to the
    number of its ancestors. *)
Theorem toFlatList_spec (fuel : nat) (ts : list tree) (h : Heap) :
  Forall (shape h) ts -> NoDup (flat_map preorder ts) -> fits fuel ts ->
  let all := flat_map (ancestry []) ts in
  let kept := List.filter (visible h) all in
  let N := length (flat_map preorder ts) in
  let M := length (List.filter (dummyAt h) (flat_map preorder ts)) in
  let B := length (List.filter (belowDummy h) all) in
  exists h',
    CallForest.toFlatList fuel (map root ts) 0 h = Ok (map fst kept, h')
    /\ length (map fst kept) = N - M - B
    /\ (forall l anc, In (l, anc) kept -> callDepthAt h' l = Some (length anc)).
Proof.
  intros Hsh Hnd Hfit all kept N M B.
  eexists. split; [by apply toFlatList_visible|]. split.
  - pose proof (visible_partition h all) as Hpart.
    unfold all at 2 in Hpart. rewrite map_fst_ancestries in Hpart.
    assert (HN : length all = N).
    { unfold N. by rewrite <- (map_fst_ancestries [] ts), length_map. }
    rewrite length_map. fold kept M B in Hpart. lia.
  - intros l anc Hin.
    assert (Hl : In l (flat_map preorder ts)).
    { rewrite <- (map_fst_ancestries [] ts). apply in_map_iff.
      exists (l, anc). split; [done|]. by apply List.filter_In in Hin as [? _]. }
    destruct (shape_lookup h ts l Hsh Hl) as [a Ha].
    unfold callDepthAt.
    rewrite (setDepths_lookup _ h l (length anc) a); [done| | |done].
    + rewrite map_map. simpl. apply NoDup_map_fst_filter.
      by rewrite map_fst_ancestries.
    + apply in_map_iff. by exists (l, anc).
Qed.

Lemma toFlatList_spec_witness :
  exists h',
    CallForest.toFlatList 4 [0] 0 exampleHeap = Ok ([0; 3], h')
    /\ callDepthAt h' 0 = Some 0 /\ callDepthAt h' 3 = Some 1.
Proof.
  destruct (toFlatList_spec 4 exampleForest exampleHeap
              exampleForest_shape exampleForest_NoDup exampleForest_fits)
    as (h' & Hrun & _ & Hdepth).
  exists h'. split; [exact Hrun|]. split.
  - apply (Hdepth 0 []). simpl. by left.
  - apply (Hdepth 3 [0]). simpl. right. by left.
Defined.

(** C1, counterexample to the claim as stated: of the [N = 4] nodes of the
    example forest [M = 1] is a dummy, and [toFlatList] returns 2 nodes, not
    [N - M = 3]: the node below the dummy is dropped with it. *)
Lemma toFlatList_drops_more_than_dummies :
  let N := length (flat_map preorder exampleForest) in
  let M := length (List.filter (dummyAt exampleHeap) (flat_map preorder exampleForest)) in
  exists flat h',
    CallForest.toFlatList 4 (map root exampleForest) 0 exampleHeap = Ok (flat, h')
    /\ N = 4 /\ M = 1 /\ length flat = 2 /\ length flat <> N - M.
Proof. vm_compute. eexists _, _. repeat split; lia. Qed.

(** C10: [toFlatList] does not enter the subtree of a dummy: no node that is
    a dummy or lies below one, dummy or not, is in the list it returns, and
    the objects of these nodes are left as they were. *)
Theorem toFlatList_skips_dummy_subtrees (fuel : nat) (ts : list tree) (h : Heap) :
  Forall (shape h) ts -> NoDup (flat_map preorder ts) -> fits fuel ts ->
  exists flat h',
    CallForest.toFlatList fuel (map root ts) 0 h = Ok (flat, h')
    /\ forall l anc d,
        In (l, anc) (flat_map (ancestry []) ts) ->
        In d (l :: anc) -> dummyAt h d = true ->
        ~ In l flat /\ h' !! l = h !! l.
Proof.
  intros Hsh Hnd Hfit. eexists _, _. split; [by apply toFlatList_visible|].
  intros l anc d Hin Hd Hdummy.
  assert (Hnot : ~ In l (map fst (List.filter (visible h) (flat_map (ancestry []) ts)))).
  { intros Hflat.
    apply in_map_iff in Hflat as ([l' anc'] & [= ->] & Hkept).
    apply List.filter_In in Hkept as [Hin' Hvis].
    assert (anc' = anc) as ->.
    { eapply NoDup_map_fst_inj; [|exact Hin'|exact Hin].
      by rewrite map_fst_ancestries. }
    unfold visible in Hvis. rewrite forallb_forall in Hvis.
    specialize (Hvis d Hd). by rewrite Hdummy in Hvis. }
  split; [done|].
  apply (assign_lookup_notin (fun d => with_body (with_callDepth d))).
  by rewrite map_map.
Qed.

Lemma toFlatList_skips_dummy_subtrees_witness :
  exists flat h',
    CallForest.toFlatList 4 [0] 0 exampleHeap = Ok (flat, h')
    /\ ~ In 1 flat /\ ~ In 2 flat.
Proof.
  destruct (toFlatList_skips_dummy_subtrees 4 exampleForest exampleHeap
              exampleForest_shape exampleForest_NoDup exampleForest_fits)
    as (flat & h' & Hrun & Hskip).
  exists flat, h'. split; [exact Hrun|]. split.
  - apply (Hskip 1 [0] 1); [simpl; tauto|simpl; tauto|reflexivity].
  - apply (Hskip 2 [1; 0] 1); [simpl; tauto|simpl; tauto|reflexivity].
Defined.

(** ** Hashing the children *)

Lemma deref_Some {A} (o : option A) (a : A) : o = Some a -> deref o = Ok a.
Proof. by intros ->. Qed.

Lemma hashChildrenBase_fold `{Externals} (fuel : nat) (h : Heap) (update : loc)
    (u : AccountUpdate) (cs : list (AccountUpdate * Field)) :
  h !! update = Some u ->
  Forall2 (fun child cv =>
             h !! child = Some cv.1 /\ CallForest.hashChildren fuel h child = Ok cv.2)
          (accountUpdates (children u)) cs ->
  CallForest.hashChildrenBase (S fuel) h update
  = Ok (fold_right
          (fun cv stackHash =>
             if isDummy cv.1 then stackHash
             else hashWithPrefix prefix_accountUpdateCons
                    [hashWithPrefix prefix_accountUpdateNode
                       [hashAccountUpdate cv.1; cv.2];
                     stackHash])
          CallForest.emptyHash cs).
Proof.
  intros Hu Hcs. simpl. rewrite Hu. simpl.
  induction Hcs as [|child [c v] l cs' [Hc Hv] _ IH]; simpl; [done|].
  rewrite forM_app, IH. simpl in *. rewrite Hc. simpl.
  unfold CallForest.hashChildren in Hv. by rewrite Hv.
Qed.

(** C2: [hashChildrenBase] of an update without children is [emptyHash()];
    of an update whose only child is not a dummy, has [callsType] None and
    no children, it is the cons of the node hash of the child over
    [emptyHash()]; in general it is the fold over the children, last child
    first and seeded with [emptyHash()], that conses the node hash of
    [hash(child)] and [hashChildren(child)] onto the stack hash and leaves
    the stack hash as it is at a dummy child. *)
Theorem hashChildrenBase_spec `{Externals} (fuel : nat) (h : Heap) (update : loc)
    (u : AccountUpdate) :
  h !! update = Some u ->
  (accountUpdates (children u) = [] ->
   CallForest.hashChildrenBase (S fuel) h update = Ok CallForest.emptyHash)
  /\ (forall child c,
        accountUpdates (children u) = [child] ->
        h !! child = Some c ->
        isDummy c = false ->
        callsType (children c) = CallsNone ->
        accountUpdates (children c) = [] ->
        CallForest.hashChildrenBase (S (S fuel)) h update
        = Ok (hashWithPrefix prefix_accountUpdateCons
                [hashWithPrefix prefix_accountUpdateNode
                   [hashAccountUpdate c; CallForest.emptyHash];
                 CallForest.emptyHash]))
  /\ (forall cs : list (AccountUpdate * Field),
        Forall2 (fun child cv =>
                   h !! child = Some cv.1
                   /\ CallForest.hashChildren fuel h child = Ok cv.2)
                (accountUpdates (children u)) cs ->
        CallForest.hashChildrenBase (S fuel) h update
        = Ok (fold_right
                (fun cv stackHash =>
                   if isDummy cv.1 then stackHash
                   else hashWithPrefix prefix_accountUpdateCons
                          [hashWithPrefix prefix_accountUpdateNode
                             [hashAccountUpdate cv.1; cv.2];
                           stackHash])
                CallForest.emptyHash cs)).
Proof.
  intros Hu. split; [|split].
  - intros Hnil. rewrite (hashChildrenBase_fold fuel h update u []); [done..|].
    rewrite Hnil. constructor.
  - intros child c Hone Hc Hd Hnone Hleaf.
    rewrite (hashChildrenBase_fold (S fuel) h update u [(c, CallForest.emptyHash)]);
      [by simpl; rewrite Hd|done|].
    rewrite Hone. repeat constructor; [done|]. simpl.
    unfold CallForest.hashChildren, CallForest.hashChildrenWith.
    rewrite Hc. simpl. rewrite Hnone. simpl. rewrite Hc. simpl. by rewrite Hleaf.
  - intros cs Hcs. by apply (hashChildrenBase_fold fuel h update u).
Qed.

Lemma hashChildrenBase_spec_witness :
  @CallForest.hashChildrenBase exampleExternals 2 exampleHeap 1
  = Ok (@hashWithPrefix exampleExternals "cons*"
          [@hashWithPrefix exampleExternals "node" [1012%Z; 0%Z]; 0%Z]).
Proof.
  destruct (@hashChildrenBase_spec exampleExternals 0 exampleHeap 1
              (exampleUpdate 11 PublicKey.empty [2] (Some 0)) eq_refl)
    as (_ & Hone & _).
  apply (Hone 2 (exampleUpdate 12 exampleKey [] (Some 1)));
    reflexivity.
Defined.

Lemma hashChildrenWith_unchecked `{Externals} (base : loc -> result Field) (h : Heap)
    (l : loc) (a : AccountUpdate) (v : Field) :
  inCheckedComputation = false -> h !! l = Some a -> base l = Ok v ->
  CallForest.hashChildrenWith base h l = Ok v.
Proof.
  intros Hout Ha Hv. unfold CallForest.hashChildrenWith.
  rewrite Ha. simpl. rewrite Hv, Hout. by destruct (callsType (children a)).
Qed.

(** Outside a checked computation no assertion can fail, and hashing the
    children of the root of a tree returns, given fuel above its height. *)
Lemma hashChildrenBase_returns `{Externals} (fuel : nat) :
  forall (t : tree) (h : Heap),
    shape h t -> height t < fuel -> inCheckedComputation = false ->
    exists v,
      CallForest.hashChildrenBase fuel h (root t) = Ok v
      /\ CallForest.hashChildren fuel h (root t) = Ok v.
Proof.
  induction fuel as [|fuel IHfuel]; intros [l cs] h Hsh Hfit Hout; [lia|].
  inversion Hsh as [l' a cs' Ha Hch Hsub]; subst.
  apply fits_subtrees in Hfit.
  assert (Hbase : exists v, CallForest.hashChildrenBase (S fuel) h l = Ok v).
  { simpl. rewrite Ha. simpl. rewrite Hch. clear Hsh Hch Ha.
    generalize CallForest.emptyHash as stack.
    induction cs as [|c cs IHcs] using rev_ind; intros stack; simpl; [by eexists|].
    apply Forall_app in Hsub as [Hsub Hc]. apply Forall_cons in Hc as [Hc _].
    assert (Hfit' : fits fuel cs /\ height c < fuel).
    { clear -Hfit. unfold fits, forestHeight in *.
      induction cs as [|c' cs IH]; simpl in *; [lia|].
      destruct IH as [? ?]; lia. }
    destruct Hfit' as [Hfitcs Hfitc].
    rewrite map_app, rev_app_distr. simpl.
    inversion Hc as [lc ac csc Hac Hchc Hsubc]; subst.
    simpl root. rewrite Hac. simpl.
    destruct (IHfuel (Node lc csc) h Hc Hfitc Hout) as (v & Hv & _).
    simpl root in Hv.
    rewrite (hashChildrenWith_unchecked _ h lc ac v) by done. simpl.
    by apply IHcs. }
  destruct Hbase as [v Hv]. exists v. split; [done|].
  by apply (hashChildrenWith_unchecked _ h l a v).
Qed.

(** ** Predecessors and the signing nonce *)

(** [forEach] calls back on the nodes of the forest in pre-order. *)
Lemma forEach_preorder {S} (fuel : nat) (h : Heap) (callback : loc -> S -> result S) :
  forall (ts : list tree) (st : S),
    Forall (shape h) ts -> fits fuel ts ->
    CallForest.forEach fuel h (map root ts) callback st
    = forM callback (flat_map preorder ts) st.
Proof.
  induction fuel as [|fuel IHfuel]; intros ts st Hsh Hfit.
  { apply fits_pos in Hfit as [? ?]. discriminate. }
  simpl. revert st Hsh Hfit.
  induction ts as [|[l cs] ts IHts]; intros st Hsh Hfit; simpl; [done|].
  apply Forall_cons in Hsh as [Hl Hsh]. apply fits_cons in Hfit as [Hcs Hfit].
  inversion Hl as [l' a cs' Ha Hch Hsub]; subst.
  destruct (callback l st) as [st1| |]; simpl; [|done..].
  rewrite Ha. simpl. rewrite Hch, IHfuel by (done || by apply fits_subtrees in Hcs).
  rewrite forM_app.
  destruct (forM callback (flat_map preorder cs) st1) as [st2| |]; simpl; [|done..].
  by apply IHts.
Qed.

(** The callback that [forEachPredecessor] hands to [forEach]. *)
Lemma forM_predecessors_done {S} (h : Heap) (updateId : option Id)
    (callback : loc -> S -> result S) (l : list loc) (st : S) :
  Forall (fun x => is_Some (h !! x)) l ->
  forM (fun otherUpdate '(isPredecessor, st) =>
          o ← deref (h !! otherUpdate);
          let isPredecessor :=
            if bool_decide (Some (id o) = updateId) then false else isPredecessor in
          if isPredecessor
          then st ← callback otherUpdate st; Ok (isPredecessor, st)
          else Ok (isPredecessor, st))
       l (false, st)
  = Ok (false, st).
Proof.
  induction 1 as [|x l [o Ho] _ IH]; simpl; [done|].
  rewrite Ho. simpl. by destruct (bool_decide _).
Qed.

Lemma forM_predecessors_before {S} (h : Heap) (updateId : option Id)
    (callback : loc -> S -> result S) (l : list loc) (st : S) :
  Forall (fun x => exists o, h !! x = Some o /\ Some (id o) <> updateId) l ->
  forM (fun otherUpdate '(isPredecessor, st) =>
          o ← deref (h !! otherUpdate);
          let isPredecessor :=
            if bool_decide (Some (id o) = updateId) then false else isPredecessor in
          if isPredecessor
          then st ← callback otherUpdate st; Ok (isPredecessor, st)
          else Ok (isPredecessor, st))
       l (true, st)
  = (st' ← forM callback l st; Ok (true, st')).
Proof.
  intros Hl. revert st.
  induction Hl as [|x l (o & Ho & Hid) _ IH]; intros st; simpl; [done|].
  rewrite Ho. simpl. rewrite bool_decide_eq_false_2 by done.
  destruct (callback x st) as [st1| |]; simpl; [|done..]. apply IH.
Qed.

Lemma forEachPredecessor_before {S} (fuel : nat) (h : Heap) (ts : list tree)
    (update : loc) (a : AccountUpdate) (pre post : list loc)
    (callback : loc -> S -> result S) (st : S) :
  Forall (shape h) ts -> fits fuel ts ->
  h !! update = Some a ->
  flat_map preorder ts = pre ++ update :: post ->
  Forall (fun l => sameId h (id a) l = false) pre ->
  CallForest.forEachPredecessor fuel h (map root ts) (Some (id a)) callback st
  = forM callback pre st.
Proof.
  intros Hsh Hfit Ha Hsplit Hpre. unfold CallForest.forEachPredecessor.
  rewrite forEach_preorder by done.
  assert (Hall : Forall (fun x => is_Some (h !! x)) (flat_map preorder ts)).
  { apply List.Forall_forall. intros x Hx. by apply (shape_lookup h ts). }
  rewrite Hsplit in *. apply Forall_app in Hall as [Hvpre Hvpost].
  apply Forall_cons in Hvpost as [_ Hvpost].
  rewrite forM_app, forM_predecessors_before.
  - destruct (forM callback pre st) as [st1| |]; simpl; [|done..].
    rewrite Ha. simpl. rewrite bool_decide_eq_true_2 by done. simpl.
    by rewrite forM_predecessors_done.
  - apply List.Forall_forall. intros x Hx.
    rewrite List.Forall_forall in Hvpre, Hpre.
    destruct (Hvpre x Hx) as [o Ho]. exists o. split; [done|].
    specialize (Hpre x Hx). unfold sameId in Hpre. rewrite Ho in Hpre. simpl in Hpre.
    by apply bool_decide_eq_false_1 in Hpre.
Qed.

Lemma forM_nonce (h : Heap) (pk : PublicKey) (tid : Field) (l : list loc) (n : nat) :
  Forall (fun x => is_Some (h !! x)) l ->
  forM (fun otherUpdate nonce =>
          o ← deref (h !! otherUpdate);
          let shouldIncreaseNonce :=
            PublicKey.equals (publicKey (body o)) pk
            && (tokenId (body o) =? tid)%Z
            && incrementNonce (body o) in
          Ok (if shouldIncreaseNonce then nonce + 1 else nonce))
       l n
  = Ok (n + length (List.filter (incrementsNonce h pk tid) l)).
Proof.
  intros Hl. revert n. induction Hl as [|x l [o Ho] _ IH]; intros n; simpl.
  { f_equal. lia. }
  rewrite Ho. simpl. rewrite IH. unfold incrementsNonce at 2. rewrite Ho.
  destruct (_ && _ && _); simpl; f_equal; lia.
Qed.

(** C3: the signing nonce of an update of the pending transaction is the
    nonce of its account, plus one when its key is the sender of the
    transaction and its token is the default token, plus one for every node
    that precedes it in the pre-order of the forest, targets the same key
    and token and has [incrementNonce] set; and [forEachPredecessor] runs
    its callback on exactly the nodes before the first one with the id of
    the target, in pre-order. *)
Theorem getSigningInfoUnchecked_spec `{Externals} (fuel : nat) (st : State)
    (tx : CurrentTransaction.t) (ts : list tree) (update : loc) (a : AccountUpdate)
    (pre post : list loc) :
  currentTransaction st = Some tx ->
  CurrentTransaction.accountUpdates tx = map root ts ->
  Forall (shape (heap st)) ts -> fits fuel ts ->
  heap st !! update = Some a ->
  flat_map preorder ts = pre ++ update :: post ->
  Forall (fun l => sameId (heap st) (id a) l = false) pre ->
  let pk := publicKey (body a) in
  let tid := tokenId (body a) in
  let isSame :=
    bool_decide (CurrentTransaction.sender tx = Some pk) && (tid =? TokenId.default)%Z in
  getSigningInfoUnchecked fuel (OfAccountUpdate update) st
  = (n ← UInt32_from
           (accountNonce pk (Some tid) + (if isSame then 1 else 0)
            + length (List.filter (incrementsNonce (heap st) pk tid) pre));
     Ok (mkSigningInfo n isSame))
  /\ forall (S : Type) (callback : loc -> S -> result S) (s0 : S),
      CallForest.forEachPredecessor fuel (heap st) (map root ts) (Some (id a)) callback s0
      = forM callback pre s0.
Proof.
  intros Htx Hroots Hsh Hfit Ha Hsplit Hpre pk tid isSame.
  split; [|intros S callback s0; by eapply forEachPredecessor_before].
  unfold getSigningInfoUnchecked. rewrite Ha, Htx. simpl. rewrite Hroots.
  rewrite (forEachPredecessor_before fuel (heap st) ts update a pre post) by done.
  assert (Hvalid : Forall (fun x => is_Some (heap st !! x)) pre).
  { apply List.Forall_forall. intros x Hx. apply (shape_lookup _ ts); [done|].
    rewrite Hsplit. apply in_or_app. by left. }
  rewrite forM_nonce by done. simpl.
  assert (Hsame : match CurrentTransaction.sender tx ≫= (fun sender =>
                          Some (PublicKey.equals sender (publicKey (body a)))) with
                  | Some b => b && (tokenId (body a) =? TokenId.default)%Z
                  | None => false
                  end = isSame).
  { unfold isSame, pk, tid, PublicKey.equals.
    destruct (CurrentTransaction.sender tx) as [sender|]; simpl; [|done].
    f_equal. apply bool_decide_ext. split; congruence. }
  rewrite Hsame. fold pk tid.
  by destruct isSame; simpl; rewrite ?Nat.add_0_r.
Qed.

Lemma getSigningInfoUnchecked_spec_witness :
  @getSigningInfoUnchecked exampleExternals 3 (OfAccountUpdate 2) nonceState
  = Ok (mkSigningInfo (mkUInt32 43) true).
Proof.
  destruct (@getSigningInfoUnchecked_spec exampleExternals 3 nonceState
              (CurrentTransaction.mk (Some exampleKey) [0; 2]) nonceForest 2
              (nonceUpdate 22 false [] None) [0; 1] []) as [Hnonce _].
  - reflexivity.
  - reflexivity.
  - repeat (econstructor; try reflexivity).
  - unfold fits. simpl. lia.
  - reflexivity.
  - reflexivity.
  - repeat constructor.
  - exact Hnonce.
Defined.

(** ** Caller contexts *)

(** The recording does not change what [addCallers] does. *)
Lemma addCallersTraced_addCallers `{Externals} (fuel : nat) :
  forall (updates : list loc) (context : CallerContext.t) (h : Heap),
    CallForest.addCallers fuel updates context h
    = (r ← addCallersTraced fuel updates context h; Ok r.1).
Proof.
  induction fuel as [|fuel IHfuel]; intros updates context h; simpl; [done|].
  generalize (@nil (loc * CallerContext.t)) as trace. revert h.
  induction updates as [|update updates IH]; intros h trace; simpl; [done|].
  destruct (h !! update) as [u|]; simpl; [|done].
  rewrite IHfuel.
  destruct (addCallersTraced fuel _ _ _) as [[h' below]| |]; simpl; [|done..].
  apply IH.
Qed.

Lemma erase_lookup_fmap (h h' : Heap) (l : loc) :
  erase <$> h = erase <$> h' -> erase <$> h !! l = erase <$> h' !! l.
Proof. intros He. by rewrite <- !list_lookup_fmap, He. Qed.

Lemma erase_childContext `{Externals} (h h' : Heap) (l : loc) (ctx : CallerContext.t) :
  erase <$> h = erase <$> h' -> childContext h l ctx = childContext h' l ctx.
Proof.
  intros He. apply (erase_lookup_fmap _ _ l) in He. unfold childContext.
  destruct (h !! l) as [a|], (h' !! l) as [a'|]; simpl in He; try done.
  apply (inj Some) in He.
  change (isDelegateCall a) with (isDelegateCall (erase a)).
  change (publicKey (body a)) with (publicKey (body (erase a))).
  change (tokenId (body a)) with (tokenId (body (erase a))).
  by rewrite He.
Qed.

Lemma pathContext_cons `{Externals} (h : Heap) (l : loc) (anc : list loc) :
  pathContext h (l :: anc) = childContext h l (pathContext h anc).
Proof. done. Qed.

Lemma childContext_Some `{Externals} (h : Heap) (l : loc) (a : AccountUpdate)
    (ctx : CallerContext.t) :
  h !! l = Some a ->
  childContext h l ctx
  = CallerContext.mk
      (if isDelegateCall a then CallerContext.self ctx
       else Token.getId (publicKey (body a)) (tokenId (body a)))
      (if isDelegateCall a then CallerContext.caller ctx else CallerContext.self ctx).
Proof. unfold childContext. by intros ->. Qed.

Lemma erase_pathContext `{Externals} (h h' : Heap) (anc : list loc) :
  erase <$> h = erase <$> h' -> pathContext h anc = pathContext h' anc.
Proof.
  intros He. unfold pathContext. induction anc as [|p anc IH]; simpl; [done|].
  by rewrite IH, (erase_childContext h h').
Qed.

Lemma erase_callerIn (h h' : Heap) (l : loc) (ctx : CallerContext.t) :
  erase <$> h = erase <$> h' -> callerIn h l ctx = callerIn h' l ctx.
Proof.
  intros He. apply (erase_lookup_fmap _ _ l) in He. unfold callerIn.
  destruct (h !! l) as [a|], (h' !! l) as [a'|]; simpl in He; try done.
  apply (inj Some) in He.
  change (isDelegateCall a) with (isDelegateCall (erase a)).
  by rewrite He.
Qed.

Lemma erase_tracedContexts `{Externals} (h h' : Heap) (anc : list loc) (ts : list tree) :
  erase <$> h = erase <$> h' -> tracedContexts h anc ts = tracedContexts h' anc ts.
Proof.
  intros He. apply map_ext. intros p. by rewrite (erase_pathContext h h').
Qed.

Lemma erase_tracedCallers `{Externals} (h h' : Heap) (anc : list loc) (ts : list tree) :
  erase <$> h = erase <$> h' -> tracedCallers h anc ts = tracedCallers h' anc ts.
Proof.
  intros He. apply map_ext. intros p.
  by rewrite (erase_pathContext h h'), (erase_callerIn h h').
Qed.

Lemma addCallersTraced_ancestry `{Externals} (fuel : nat) :
  forall (ts : list tree) (h : Heap) (anc : list loc),
    Forall (shape h) ts -> fits fuel ts ->
    addCallersTraced fuel (map root ts) (pathContext h anc) h
    = Ok (setCallers (tracedCallers h anc ts) h, tracedContexts h anc ts).
Proof.
  induction fuel as [|fuel IHfuel]; intros ts h anc Hsh Hfit.
  { apply fits_pos in Hfit as [? ?]. discriminate. }
  simpl.
  cut (forall (h1 : Heap) trace,
          erase <$> h1 = erase <$> h ->
          forM (fun update '(hh, trace) =>
                  u ← deref (hh !! update);
                  let caller :=
                    if isDelegateCall u then CallerContext.caller (pathContext h anc)
                    else CallerContext.self (pathContext h anc) in
                  let self :=
                    if isDelegateCall u then CallerContext.self (pathContext h anc)
                    else Token.getId (publicKey (body u)) (tokenId (body u)) in
                  let hh := alter (with_body (with_caller caller)) update hh in
                  let childContext := CallerContext.mk self caller in
                  '(hh, below) ← addCallersTraced fuel (accountUpdates (children u))
                                    childContext hh;
                  Ok (hh, trace ++ (update, pathContext h anc) :: below))
               (map root ts) (h1, trace)
          = Ok (setCallers (tracedCallers h anc ts) h1, trace ++ tracedContexts h anc ts)).
  { intros Hcut. by apply (Hcut h []). }
  induction ts as [|[l cs] ts IHts]; intros h1 trace He1; simpl.
  { by rewrite app_nil_r. }
  apply Forall_cons in Hsh as [Hl Hsh]. apply fits_cons in Hfit as [Hcs Hfit].
  inversion Hl as [l' a cs' Ha Hch Hsub]; subst.
  destruct (erase_lookup _ _ _ _ (eq_sym He1) Ha) as (a1 & Ha1 & Hera).
  assert (Hdel : isDelegateCall a1 = isDelegateCall a)
    by (by change (isDelegateCall (erase a1) = isDelegateCall (erase a)); rewrite Hera).
  assert (Hpk : publicKey (body a1) = publicKey (body a))
    by (by change (publicKey (body (erase a1)) = publicKey (body (erase a))); rewrite Hera).
  assert (Htk : tokenId (body a1) = tokenId (body a))
    by (by change (tokenId (body (erase a1)) = tokenId (body (erase a))); rewrite Hera).
  assert (Hkids : accountUpdates (children a1) = map root cs).
  { rewrite <- Hch.
    by change (accountUpdates (children (erase a1)) = accountUpdates (children (erase a)));
      rewrite Hera. }
  rewrite Ha1. simpl. rewrite Hdel, Hpk, Htk, Hkids.
  set (c := if isDelegateCall a then CallerContext.caller (pathContext h anc)
            else CallerContext.self (pathContext h anc)).
  set (h2 := alter (with_body (with_caller c)) l h1).
  assert (He2 : erase <$> h2 = erase <$> h).
  { rewrite <- He1. by apply erase_alter. }
  assert (Hchild : CallerContext.mk
                     (if isDelegateCall a then CallerContext.self (pathContext h anc)
                      else Token.getId (publicKey (body a)) (tokenId (body a))) c
                   = pathContext h2 (l :: anc)).
  { rewrite (erase_pathContext h2 h) by done.
    by rewrite pathContext_cons, (childContext_Some h l a). }
  rewrite Hchild, (IHfuel cs h2 (l :: anc)); simpl;
    [|by apply (erase_shapes h); [symmetry|]|by apply fits_subtrees in Hcs].
  rewrite (erase_tracedCallers h2 h), (erase_tracedContexts h2 h) by done.
  rewrite IHts; [|done..|by rewrite erase_setCallers].
  f_equal. f_equal.
  - unfold setCallers, tracedCallers. simpl. rewrite map_app, assign_app.
    replace (callerIn h l (pathContext h anc)) with c; [done|].
    subst c. unfold callerIn. by rewrite Ha.
  - unfold tracedContexts. simpl. rewrite map_app, <- !app_assoc. done.
Qed.

Lemma ancestry_parent (anc0 : list loc) (t : tree) (l : loc) (anc : list loc) :
  In (l, anc) (ancestry anc0 t) ->
  anc = anc0 \/ exists p anc', anc = p :: anc' /\ In (p, anc') (ancestry anc0 t).
Proof.
  revert anc0. induction t as [r cs IH] using tree_forall_ind; intros anc0; simpl.
  intros [[= -> ->]|Hin]; [by left|right].
  apply in_flat_map in Hin as (c & Hc & Hin).
  rewrite List.Forall_forall in IH.
  destruct (IH c Hc _ Hin) as [->|(p & anc' & -> & Hp)].
  - exists r, anc0. split; [done|]. by left.
  - exists p, anc'. split; [done|]. right. apply in_flat_map. by exists c.
Qed.

Lemma ancestries_parent (ts : list tree) (l p : loc) (anc : list loc) :
  In (l, p :: anc) (flat_map (ancestry []) ts) ->
  In (p, anc) (flat_map (ancestry []) ts).
Proof.
  intros Hin. apply in_flat_map in Hin as (t & Ht & Hin).
  apply ancestry_parent in Hin as [?|(p' & anc' & [= -> ->] & Hp)]; [done|].
  apply in_flat_map. by exists t.
Qed.

Lemma ancestry_depth (anc0 : list loc) (t : tree) (l : loc) (anc : list loc) :
  In (l, anc) (ancestry anc0 t) -> length anc < length anc0 + height t.
Proof.
  revert anc0. induction t as [r cs IH] using tree_forall_ind; intros anc0.
  change (height (Node r cs)) with (S (forestHeight cs)).
  intros [[= -> ->]|Hin]; [lia|].
  apply in_flat_map in Hin as (c & Hc & Hin).
  assert (Hle : forall c, In c cs -> height c <= forestHeight cs).
  { clear. induction cs as [|c' cs IH]; simpl; [done|].
    intros c [->|Hc]; [lia|]. specialize (IH c Hc). lia. }
  rewrite List.Forall_forall in IH.
  specialize (IH c Hc _ Hin). specialize (Hle c Hc). simpl in IH. lia.
Qed.

Lemma ancestries_depth (fuel : nat) (ts : list tree) (l : loc) (anc : list loc) :
  fits fuel ts -> In (l, anc) (flat_map (ancestry []) ts) -> length anc < fuel.
Proof.
  unfold fits. intros Hfit Hin. apply in_flat_map in Hin as (t & Ht & Hin).
  apply ancestry_depth in Hin. simpl in Hin.
  assert (height t <= forestHeight ts); [|lia].
  clear -Ht. induction ts as [|t' ts IH]; simpl; [done|].
  destruct Ht as [->|Ht]; [lia|]. specialize (IH Ht). lia.
Qed.

Lemma parentsOk_lookup (h : Heap) (ts : list tree) (l : loc) (anc : list loc) :
  parentsOk h ts -> In (l, anc) (flat_map (ancestry []) ts) ->
  exists a, h !! l = Some a /\ parent a = head anc.
Proof.
  intros Hp Hin. specialize (Hp l anc Hin).
  destruct (h !! l) as [a|]; [|done]. exists a. split; [done|].
  simpl in Hp. congruence.
Qed.

(** The [while] loop collects the ancestors, root first. *)
Lemma lineOfAncestors_path (h : Heap) (ts : list tree) :
  parentsOk h ts ->
  forall (anc : list loc) (l : loc) (fuel : nat) (acc : list loc),
    In (l, anc) (flat_map (ancestry []) ts) -> length anc < fuel ->
    CallForest.lineOfAncestors fuel h l acc = Ok (rev anc ++ acc).
Proof.
  intros Hp. induction anc as [|p anc IH]; intros l fuel acc Hin Hfuel;
    (destruct fuel as [|fuel]; [simpl in Hfuel; lia|]);
    destruct (parentsOk_lookup h ts l _ Hp Hin) as (a & Ha & Hpar);
    simpl; rewrite Ha; simpl; rewrite Hpar; simpl; [done|].
  rewrite (IH p fuel); [|by apply (ancestries_parent ts l)|simpl in Hfuel; lia].
  by rewrite <- app_assoc.
Qed.

Lemma ancestors_valid (h : Heap) (ts : list tree) (l : loc) (anc : list loc) :
  parentsOk h ts -> In (l, anc) (flat_map (ancestry []) ts) ->
  Forall (fun p => is_Some (h !! p)) anc.
Proof.
  intros Hp. revert l. induction anc as [|p anc IH]; intros l Hin; constructor.
  - apply ancestries_parent in Hin.
    destruct (parentsOk_lookup h ts p _ Hp Hin) as (a & -> & _). by eexists.
  - apply (IH p). by apply (ancestries_parent ts l).
Qed.

(** The loop over the ancestors accumulates the context below them. *)
Lemma forM_pathContext `{Externals} (h : Heap) (anc : list loc) :
  Forall (fun p => is_Some (h !! p)) anc ->
  forM (fun update context =>
          u ← deref (h !! update);
          if negb (isDelegateCall u)
          then Ok (CallerContext.mk
                     (Token.getId (publicKey (body u)) (tokenId (body u)))
                     (CallerContext.self context))
          else Ok context)
       (rev anc) CallForest.rootContext
  = Ok (pathContext h anc).
Proof.
  induction 1 as [|p anc [u Hu] _ IH]; [done|].
  rewrite pathContext_cons, (childContext_Some h p u) by done.
  simpl. rewrite forM_app, IH. simpl. rewrite Hu. simpl.
  destruct (isDelegateCall u); simpl; [|done]. by destruct (pathContext h anc).
Qed.

Lemma computeCallerContext_path `{Externals} (fuel : nat) (h : Heap) (ts : list tree)
    (l : loc) (anc : list loc) :
  parentsOk h ts -> fits fuel ts -> In (l, anc) (flat_map (ancestry []) ts) ->
  CallForest.computeCallerContext fuel h l = Ok (pathContext h anc).
Proof.
  intros Hp Hfit Hin. unfold CallForest.computeCallerContext.
  rewrite (lineOfAncestors_path h ts Hp anc);
    [|done|by apply (ancestries_depth fuel ts l)].
  simpl. rewrite app_nil_r. apply forM_pathContext. by apply (ancestors_valid h ts l).
Qed.

Lemma erase_parentsOk (h h' : Heap) (ts : list tree) :
  erase <$> h = erase <$> h' -> parentsOk h ts -> parentsOk h' ts.
Proof.
  intros He Hp l anc Hin. rewrite <- (Hp l anc Hin).
  apply (erase_lookup_fmap _ _ l) in He.
  destruct (h !! l) as [a|], (h' !! l) as [a'|]; simpl in *; try done.
  apply (inj Some) in He. f_equal.
  change (parent (erase a') = parent (erase a)). by rewrite He.
Qed.

(** C7: on a forest whose [parent] links agree with its shape,
    [computeCallerContext] of a node is the context in which the top-down
    pass [addCallers], started in the root context, processes that node:
    the pass visits every node once, in the recorded context, assigns the
    caller that this context gives, and the walk up the ancestors returns
    that same context, before the pass and after it. *)
Theorem computeCallerContext_addCallers `{Externals} (fuel : nat) (ts : list tree)
    (h : Heap) :
  Forall (shape h) ts -> NoDup (flat_map preorder ts) -> fits fuel ts ->
  parentsOk h ts ->
  exists h' trace,
    addCallersTraced fuel (map root ts) CallForest.rootContext h = Ok (h', trace)
    /\ CallForest.addCallers fuel (map root ts) CallForest.rootContext h = Ok h'
    /\ map fst trace = flat_map preorder ts
    /\ forall l context,
        In (l, context) trace ->
        CallForest.computeCallerContext fuel h l = Ok context
        /\ CallForest.computeCallerContext fuel h' l = Ok context
        /\ callerAt h' l = Some (callerIn h l context).
Proof.
  intros Hsh Hnd Hfit Hp.
  pose proof (addCallersTraced_ancestry fuel ts h [] Hsh Hfit) as Hrun.
  change (pathContext h []) with CallForest.rootContext in Hrun.
  eexists _, _. split; [exact Hrun|].
  split; [by rewrite addCallersTraced_addCallers, Hrun|].
  split.
  { unfold tracedContexts. rewrite map_map. apply map_fst_ancestries. }
  intros l context Hin.
  apply in_map_iff in Hin as ([l' anc] & [= -> <-] & Hin).
  assert (He : erase <$> setCallers (tracedCallers h [] ts) h = erase <$> h)
    by apply erase_setCallers.
  split; [by apply (computeCallerContext_path fuel h ts)|].
  split.
  - rewrite (erase_pathContext h _ anc (eq_sym He)).
    apply (computeCallerContext_path fuel _ ts); [|done..].
    by apply (erase_parentsOk h).
  - destruct (parentsOk_lookup h ts l anc Hp Hin) as (a & Ha & _).
    unfold callerAt, setCallers.
    rewrite (assign_lookup _ _ h l (callerIn h l (pathContext h anc)) a); [done| | |done].
    + unfold tracedCallers. rewrite map_map. simpl. by rewrite map_fst_ancestries.
    + apply in_map_iff. by exists (l, anc).
Qed.

Lemma exampleForest_parentsOk : parentsOk exampleHeap exampleForest.
Proof.
  intros l anc Hin. simpl in Hin.
  repeat (destruct Hin as [[= <- <-]|Hin]; [reflexivity|]). done.
Qed.

Lemma computeCallerContext_addCallers_witness :
  exists h',
    @CallForest.addCallers exampleExternals 4 [0] CallForest.rootContext exampleHeap = Ok h'
    /\ @CallForest.computeCallerContext exampleExternals 4 h' 2
       = Ok (CallerContext.mk 1%Z 501%Z).
Proof.
  destruct (@computeCallerContext_addCallers exampleExternals 4 exampleForest exampleHeap
              exampleForest_shape exampleForest_NoDup exampleForest_fits
              exampleForest_parentsOk) as (h' & trace & Htr & Hrun & _ & Hall).
  exists h'. split; [exact Hrun|].
  vm_compute in Htr. injection Htr as _ <-.
  apply (Hall 2 (CallerContext.mk 1%Z 501%Z)). simpl. tauto.
Defined.

(** ** Cloning *)

Lemma alter_middle {A} (f : A -> A) (l1 l2 : list A) (a : A) :
  alter f (length l1) (l1 ++ a :: l2) = l1 ++ f a :: l2.
Proof. induction l1 as [|b l1 IH]; simpl; [done|]. by rewrite <- IH. Qed.

Lemma lookup_middle {A} (l1 l2 : list A) (a : A) :
  (l1 ++ a :: l2) !! length l1 = Some a.
Proof. by rewrite list_lookup_middle. Qed.

Lemma shape_app (h ext : Heap) (t : tree) : shape h t -> shape (h ++ ext) t.
Proof.
  induction t as [l ts IH] using tree_forall_ind.
  inversion 1 as [l' a ts' Hl Hc Hts]; subst.
  apply shape_node with a; [by apply lookup_app_l_Some|done|].
  rewrite List.Forall_forall in *. auto.
Qed.

Lemma shapes_app (h ext : Heap) (ts : list tree) :
  Forall (shape h) ts -> Forall (shape (h ++ ext)) ts.
Proof. intros H. eapply Forall_impl; [exact H|]. intros t. apply shape_app. Qed.

(** [clone] of the root of a tree returns a fresh object, copies the fields
    of the root into it and leaves the store it started from in place. *)
Lemma clone_shape `{Externals} (fuel : nat) :
  forall (t : tree) (h : Heap) (a : AccountUpdate),
    shape h t -> height t < fuel -> h !! root t = Some a ->
    exists ext clones,
      clone fuel (root t) h = Ok (length h, h ++ cloneOf a clones :: ext).
Proof.
  induction fuel as [|fuel IHfuel]; intros [l cs] h a Hsh Hfit Ha; [lia|].
  simpl in Ha. inversion Hsh as [l' a' cs' Ha' Hch Hsub]; subst.
  assert (a' = a) as -> by congruence.
  apply fits_subtrees in Hfit. simpl. rewrite Ha. simpl.
  set (new := AccountUpdate_init _ _ _ _).
  rewrite !alter_middle.
  set (h0 := h ++ [_]).
  cut (forall (ts : list tree) (h1 : Heap),
          Forall (shape h1) ts -> fits fuel ts ->
          exists clones ext1, mapM (clone fuel) (map root ts) h1 = Ok (clones, h1 ++ ext1)).
  { intros Hcut.
    destruct (Hcut cs h0) as (clones & ext1 & Hmap);
      [by apply shapes_app|done|].
    rewrite Hch, Hmap. simpl. subst h0. rewrite <- app_assoc. simpl.
    rewrite !alter_middle. by exists ext1, clones. }
  clear -IHfuel. induction ts as [|t ts IHts]; intros h1 Hsh Hfit; simpl.
  { exists [], []. by rewrite app_nil_r. }
  apply Forall_cons in Hsh as [Ht Hsh]. apply fits_cons in Hfit as [Hh Hfit].
  assert (Hlook : is_Some (h1 !! root t)) by (inversion Ht; subst; by eexists).
  destruct Hlook as [a Ha].
  destruct (IHfuel t h1 a Ht) as (ext & clones & ->); [done..|]. simpl.
  destruct (IHts (h1 ++ cloneOf a clones :: ext)) as (clones' & ext1 & ->);
    [by apply shapes_app|done|]. simpl.
  eexists _, _. by rewrite <- app_assoc.
Qed.

Lemma find_In_Some {A} (p : A -> bool) (l : list A) (x : A) :
  In x l -> p x = true -> exists y, find p l = Some y.
Proof.
  induction l as [|z l IH]; simpl; [done|]. intros [->|Hx] Hp.
  - rewrite Hp. by eexists.
  - destruct (p z); [by eexists|auto].
Qed.

(** C9: the clone of an update is a new object with the id, and the parent,
    of the original, which stays as it was.  So every operation that
    identifies its argument by id behaves on the clone as on the original:
    the tests [update.id === accountUpdate.id] agree, [unlink] of the clone
    is [unlink] of the original, [forEachPredecessor] stops at the same
    node, and [attachToTransaction] does not attach the clone when the
    original is in the list. *)
Theorem clone_keeps_id `{Externals} (fuel : nat) (t : tree) (h : Heap) (a : AccountUpdate) :
  shape h t -> height t < fuel -> h !! root t = Some a ->
  exists cloned h' a',
    clone fuel (root t) h = Ok (cloned, h')
    /\ cloned <> root t
    /\ h' !! root t = Some a
    /\ h' !! cloned = Some a'
    /\ id a' = id a
    /\ (forall l, sameId h' (id a') l = sameId h' (id a) l)
    /\ (forall tx ctx,
          unlink cloned (mkState h' tx ctx) = unlink (root t) (mkState h' tx ctx))
    /\ (forall (S : Type) fuel' updates (callback : loc -> S -> result S) s0,
          CallForest.forEachPredecessor fuel' h' updates (Some (id a')) callback s0
          = CallForest.forEachPredecessor fuel' h' updates (Some (id a)) callback s0)
    /\ (forall tx,
          In (root t) (CurrentTransaction.accountUpdates tx) ->
          attachToTransaction cloned (mkState h' (Some tx) None)
          = Ok (mkState h' (Some tx) None)).
Proof.
  intros Hsh Hfit Ha.
  destruct (clone_shape fuel t h a Hsh Hfit Ha) as (ext & clones & Hrun).
  assert (Hlt : root t < length h) by (by apply lookup_lt_Some in Ha).
  assert (Horig : (h ++ cloneOf a clones :: ext) !! root t = Some a)
    by (by apply lookup_app_l_Some).
  assert (Hnew : (h ++ cloneOf a clones :: ext) !! length h = Some (cloneOf a clones))
    by apply lookup_middle.
  exists (length h), (h ++ cloneOf a clones :: ext), (cloneOf a clones).
  split; [done|]. split; [lia|]. do 3 (split; [done|]).
  split; [done|]. split; [|split; [done|]].
  - intros tx ctx. unfold unlink. simpl. by rewrite Horig, Hnew.
  - intros tx Hin. unfold attachToTransaction. simpl. rewrite Hnew. simpl.
    destruct (find_In_Some (sameId (h ++ cloneOf a clones :: ext) (id a))
                (CurrentTransaction.accountUpdates tx) (root t) Hin) as [y ->]; [|done].
    unfold sameId. rewrite Horig. simpl. by apply bool_decide_eq_true_2.
Qed.

Lemma clone_keeps_id_witness :
  exists cloned h' a',
    @clone exampleExternals 3 1 exampleHeap = Ok (cloned, h')
    /\ cloned <> 1
    /\ h' !! cloned = Some a'
    /\ id a' = 11.
Proof.
  destruct (@clone_keeps_id exampleExternals 3 (Node 1 [Node 2 []]) exampleHeap
              (exampleUpdate 11 PublicKey.empty [2] (Some 0)))
    as (cloned & h' & a' & Hrun & Hne & _ & Hnew & Hid & _).
  - repeat (econstructor; try reflexivity).
  - simpl. lia.
  - reflexivity.
  - by exists cloned, h', a'.
Defined.

(** ** Signing *)

Lemma lookupPrivateKey_keyFor `{Externals} (additionalKeys : list PrivateKey)
    (explicit : option PrivateKey) (pk : PublicKey) (missing : string) :
  lookupPrivateKey additionalKeys explicit pk missing
  = match keyFor additionalKeys explicit pk with
    | Some k => Ok k
    | None => Throw missing
    end.
Proof.
  unfold lookupPrivateKey, keyFor. destruct explicit as [k|]; [done|].
  induction additionalKeys as [|k ks IH]; simpl; [done|].
  destruct (PublicKey.equals (toPublicKey k) pk); [done|].
  rewrite <- IH. by destruct (findIndex _ _).
Qed.

Lemma addSignature_shape `{Externals} (fuel : nat) (cs : Commitments)
    (keys : list PrivateKey) (t : tree) (h : Heap) (a : AccountUpdate) :
  shape h t -> height t < fuel -> h !! root t = Some a ->
  if missingKey keys a
  then addSignature fuel cs keys (root t) h
       = Throw ("addMissingSignatures: Cannot add signature for "
                  +:+ toBase58 (publicKey (body a)) +:+ ", private key is missing.")
  else exists ext clones,
      addSignature fuel cs keys (root t) h
      = Ok (length h, h ++ signedClone cs keys a clones :: ext).
Proof.
  intros Hsh Hfit Ha.
  destruct (clone_shape fuel t h a Hsh Hfit Ha) as (ext & clones & Hrun).
  unfold addSignature, missingKey, signedClone. rewrite Hrun. simpl.
  rewrite lookup_middle. simpl.
  destruct (lazyAuthorization a) as [[|sig|prf]|]; try by exists ext, clones.
  rewrite lookupPrivateKey_keyFor. simpl.
  destruct (keyFor keys (privateKey sig) (publicKey (body a))) as [k|]; [|done].
  simpl. rewrite alter_middle. by exists ext, clones.
Qed.

Lemma mapM_addSignature_ok `{Externals} (fuel : nat) (cs : Commitments)
    (keys : list PrivateKey) :
  forall (ts : list tree) (listed : list AccountUpdate) (h : Heap),
    Forall (shape h) ts -> fits fuel ts ->
    Forall2 (fun t a => h !! root t = Some a) ts listed ->
    Forall (fun a => missingKey keys a = false) listed ->
    exists ls ext,
      mapM (addSignature fuel cs keys) (map root ts) h = Ok (ls, h ++ ext)
      /\ Forall2 (fun a l' => length h <= l'
                     /\ exists clones,
                         (h ++ ext) !! l' = Some (signedClone cs keys a clones))
                 listed ls.
Proof.
  induction ts as [|t ts IH]; intros listed h Hsh Hfit Hl Hkeys.
  { apply Forall2_nil_inv_l in Hl as ->. exists [], []. simpl.
    rewrite app_nil_r. by split. }
  apply Forall2_cons_inv_l in Hl as (a & listed' & Ha & Hl & ->).
  apply Forall_cons in Hsh as [Ht Hsh]. apply fits_cons in Hfit as [Hh Hfit].
  apply Forall_cons in Hkeys as [Hk Hkeys].
  pose proof (addSignature_shape fuel cs keys t h a Ht Hh Ha) as Hone.
  rewrite Hk in Hone. destruct Hone as (ext & clones & Hone).
  simpl. rewrite Hone. simpl.
  destruct (IH listed' (h ++ signedClone cs keys a clones :: ext))
    as (ls & ext' & Hrest & Hall);
    [by apply shapes_app|done| |done|].
  { eapply Forall2_impl; [exact Hl|]. intros; by apply lookup_app_l_Some. }
  rewrite Hrest. simpl. eexists _, _. split.
  { by rewrite <- app_assoc. }
  constructor.
  - split; [done|]. exists clones. simpl. apply lookup_middle.
  - eapply Forall2_impl; [exact Hall|]. simpl. intros b l' [Hle Hb].
    split; [rewrite length_app in Hle; lia|]. by rewrite <- app_assoc in Hb.
Qed.

Lemma mapM_addSignature_throw `{Externals} (fuel : nat) (cs : Commitments)
    (keys : list PrivateKey) (a : AccountUpdate) (post : list AccountUpdate) :
  forall (pre : list AccountUpdate) (ts : list tree) (h : Heap),
    Forall (shape h) ts -> fits fuel ts ->
    Forall2 (fun t a => h !! root t = Some a) ts (pre ++ a :: post) ->
    Forall (fun a => missingKey keys a = false) pre ->
    missingKey keys a = true ->
    mapM (addSignature fuel cs keys) (map root ts) h
    = Throw ("addMissingSignatures: Cannot add signature for "
               +:+ toBase58 (publicKey (body a)) +:+ ", private key is missing.").
Proof.
  induction pre as [|b pre IH]; intros ts h Hsh Hfit Hl Hkeys Hmiss; simpl in Hl;
    apply Forall2_cons_inv_r in Hl as (t & ts' & Hb & Hl & ->);
    apply Forall_cons in Hsh as [Ht Hsh]; apply fits_cons in Hfit as [Hh Hfit];
    pose proof (addSignature_shape fuel cs keys t h _ Ht Hh Hb) as Hone; simpl.
  - rewrite Hmiss in Hone. by rewrite Hone.
  - apply Forall_cons in Hkeys as [Hk Hkeys]. rewrite Hk in Hone.
    destruct Hone as (ext & clones & ->). simpl.
    rewrite IH; [done|by apply shapes_app|done| |done..].
    eapply Forall2_impl; [exact Hl|]. intros; by apply lookup_app_l_Some.
Qed.

Lemma forM_listed (h : Heap) (ts : list tree) (listed acc : list AccountUpdate) :
  Forall2 (fun t a => h !! root t = Some a) ts listed ->
  forM (fun l acc => a ← deref (h !! l); Ok (acc ++ [a])) (map root ts) acc
  = Ok (acc ++ listed).
Proof.
  intros Hl. revert acc. induction Hl as [|t a ts listed Ha _ IH]; intros acc; simpl.
  { by rewrite app_nil_r. }
  rewrite Ha. simpl. rewrite IH. by rewrite <- app_assoc.
Qed.

Lemma addFeePayerSignature_keyFor `{Externals} (cs : Commitments)
    (keys : list PrivateKey) (fp : FeePayerUnsigned) :
  addFeePayerSignature cs keys fp
  = if missingFeePayerKey keys fp
    then Throw ("addMissingSignatures: Cannot add signature for fee payer ("
                  +:+ toBase58 (fp_publicKey (fp_body fp))
                  +:+ "), private key is missing.")
    else Ok (signedFeePayer cs keys fp).
Proof.
  unfold addFeePayerSignature, missingFeePayerKey, signedFeePayer.
  destruct (fp_lazyAuthorization fp) as [lz|]; [|done].
  rewrite lookupPrivateKey_keyFor. by destruct (keyFor _ _ _).
Qed.

(** ** Copies of trees *)

Lemma copyOf_app (h h' ext : Heap) (t : tree) :
  forall t', copyOf h h' t t' -> copyOf h (h' ++ ext) t t'.
Proof.
  induction t as [l ts IH] using tree_forall_ind. intros t' Hc.
  inversion Hc as [? l' a ? ts' Hl Hl' Hsub]; subst.
  apply copyOf_node with a; [done|by apply lookup_app_l_Some|].
  clear -IH Hsub. induction Hsub as [|c c' ts ts' Hc _ IHsub]; [constructor|].
  apply Forall_cons in IH as [IHc IH]. constructor; [by apply IHc|by apply IHsub].
Qed.

Lemma copiesOf_app (h h' ext : Heap) (ts ts' : list tree) :
  Forall2 (copyOf h h') ts ts' -> Forall2 (copyOf h (h' ++ ext)) ts ts'.
Proof. intros Hc. eapply Forall2_impl; [exact Hc|]. intros t t'. apply copyOf_app. Qed.

Lemma copyOf_agree (h h1 h2 : Heap) (t : tree) :
  forall t', copyOf h h1 t t' ->
             Forall (fun l' => h2 !! l' = h1 !! l') (preorder t') ->
             copyOf h h2 t t'.
Proof.
  induction t as [l ts IH] using tree_forall_ind. intros t' Hc Hag.
  inversion Hc as [? l' a ? ts' Hl Hl' Hsub]; subst.
  simpl in Hag. apply Forall_cons in Hag as [Hroot Hag].
  apply copyOf_node with a; [done|congruence|].
  clear -IH Hsub Hag. induction Hsub as [|c c' ts ts' Hc _ IHsub]; [constructor|].
  apply Forall_cons in IH as [IHc IH]. simpl in Hag. apply Forall_app in Hag as [Hagc Hag].
  constructor; [by apply IHc|by apply IHsub].
Qed.

Lemma copiesOf_agree (h h1 h2 : Heap) (ts ts' : list tree) :
  Forall2 (copyOf h h1) ts ts' ->
  Forall (fun l' => h2 !! l' = h1 !! l') (flat_map preorder ts') ->
  Forall2 (copyOf h h2) ts ts'.
Proof.
  induction 1 as [|c c' ts ts' Hc _ IH]; intros Hag; [constructor|].
  simpl in Hag. apply Forall_app in Hag as [Hagc Hag].
  constructor; [by apply (copyOf_agree h h1)|by apply IH].
Qed.

Lemma copyOf_shape (h h' : Heap) (t : tree) :
  forall t', copyOf h h' t t' -> shape h' t'.
Proof.
  induction t as [l ts IH] using tree_forall_ind. intros t' Hc.
  inversion Hc as [? l' a ? ts' Hl Hl' Hsub]; subst.
  apply shape_node with (cloneOf a (map root ts')); [done|done|].
  clear -IH Hsub. induction Hsub as [|c c' ts ts' Hc _ IHsub]; [constructor|].
  apply Forall_cons in IH as [IHc IH]. constructor; [by apply IHc|by apply IHsub].
Qed.

Lemma copyOf_height (h h' : Heap) (t : tree) :
  forall t', copyOf h h' t t' -> height t' = height t.
Proof.
  induction t as [l ts IH] using tree_forall_ind. intros t' Hc.
  inversion Hc as [? l' a ? ts' Hl Hl' Hsub]; subst. simpl. f_equal.
  clear -IH Hsub. induction Hsub as [|c c' ts ts' Hc _ IHsub]; [done|].
  apply Forall_cons in IH as [IHc IH]. simpl. by rewrite (IHc c'), IHsub.
Qed.

Lemma copyOf_preorder (h h' : Heap) (t : tree) :
  forall t', copyOf h h' t t' ->
    Forall2 (fun l l' => exists a a',
               h !! l = Some a /\ h' !! l' = Some a'
               /\ sameButChildren a a' /\ parent a' = parent a)
            (preorder t) (preorder t').
Proof.
  induction t as [l ts IH] using tree_forall_ind. intros t' Hc.
  inversion Hc as [? l' a ? ts' Hl Hl' Hsub]; subst. simpl. constructor.
  { by exists a, (cloneOf a (map root ts')). }
  clear -IH Hsub. induction Hsub as [|c c' ts ts' Hc _ IHsub]; [constructor|].
  apply Forall_cons in IH as [IHc IH]. simpl.
  apply Forall2_app; [by apply IHc|by apply IHsub].
Qed.

Lemma clone_copy `{Externals} (h : Heap) (fuel : nat) :
  forall (t : tree) (h0 : Heap),
    (forall l a, h !! l = Some a -> h0 !! l = Some a) ->
    shape h t -> height t < fuel ->
    exists t' ext,
      clone fuel (root t) h0 = Ok (root t', h0 ++ ext)
      /\ root t' = length h0
      /\ copyOf h (h0 ++ ext) t t'
      /\ NoDup (preorder t')
      /\ Forall (fun l' => length h0 <= l' < length (h0 ++ ext)) (preorder t').
Proof.
  induction fuel as [|fuel IHfuel]; intros [l cs] h0 Hpre Hsh Hfit; [lia|].
  inversion Hsh as [l' a cs' Ha Hch Hsub]; subst.
  apply fits_subtrees in Hfit. simpl. rewrite (Hpre l a Ha). simpl.
  set (new := AccountUpdate_init _ _ _ _).
  rewrite !alter_middle.
  set (h1 := h0 ++ [_]).
  cut (forall (ts : list tree) (h2 : Heap),
          (forall l a, h !! l = Some a -> h2 !! l = Some a) ->
          Forall (shape h) ts -> fits fuel ts ->
          exists ts' ext1,
            mapM (clone fuel) (map root ts) h2 = Ok (map root ts', h2 ++ ext1)
            /\ Forall2 (copyOf h (h2 ++ ext1)) ts ts'
            /\ NoDup (flat_map preorder ts')
            /\ Forall (fun l' => length h2 <= l' < length (h2 ++ ext1))
                      (flat_map preorder ts')).
  { intros Hcut.
    destruct (Hcut cs h1) as (ts' & ext1 & Hmap & Hcopy & Hnd & Hrange); [|done..|].
    { intros x ax Hx. subst h1. by apply lookup_app_l_Some, Hpre. }
    rewrite Hch, Hmap. simpl. subst h1. rewrite <- app_assoc. simpl.
    rewrite !alter_middle. simpl.
    rewrite length_app in Hrange. simpl in Hrange.
    assert (Hagree : Forall (fun l' =>
                (h0 ++ cloneOf a (map root ts') :: ext1) !! l'
                = ((h0 ++ [with_callsType (callsType (children a))
                             (with_lazyAuthorization (lazyAuthorization a) new)])
                   ++ ext1) !! l') (flat_map preorder ts')).
    { eapply Forall_impl; [exact Hrange|]. intros x [Hx _]. simpl in Hx.
      rewrite <- app_assoc. simpl.
      rewrite !lookup_app_r by lia.
      destruct (x - length h0) as [|n] eqn:Hn; [lia|done]. }
    exists (Node (length h0) ts'), (cloneOf a (map root ts') :: ext1).
    split; [done|]. split; [done|]. split; [|split].
    - apply copyOf_node with a; [done|apply lookup_middle|].
      by apply (copiesOf_agree h _ _ cs ts' Hcopy).
    - simpl. apply NoDup_cons. split; [|done].
      rewrite list_elem_of_In. intros Hin.
      rewrite List.Forall_forall in Hrange. apply Hrange in Hin. lia.
    - simpl. apply Forall_cons. split.
      + rewrite length_app. simpl. lia.
      + eapply Forall_impl; [exact Hrange|]. intros x Hx. simpl in Hx.
        rewrite !length_app in *. simpl in *. lia. }
  clear -IHfuel. induction ts as [|t ts IHts]; intros h2 Hpre Hsh Hfit; simpl.
  { exists [], []. rewrite app_nil_r. repeat split; constructor. }
  apply Forall_cons in Hsh as [Ht Hsh]. apply fits_cons in Hfit as [Hh Hfit].
  destruct (IHfuel t h2 Hpre Ht Hh) as (t' & ext & -> & _ & Hc1 & Hnd1 & Hr1).
  simpl.
  destruct (IHts (h2 ++ ext)) as (ts' & ext1 & -> & Hc2 & Hnd2 & Hr2); [|done..|].
  { intros x ax Hx. by apply lookup_app_l_Some, Hpre. }
  simpl. exists (t' :: ts'), (ext ++ ext1).
  rewrite !app_assoc. repeat split.
  - constructor; [by apply copyOf_app|done].
  - simpl. apply NoDup_app. split; [done|]. split; [|done].
    intros x Hx1 Hx2. rewrite list_elem_of_In in Hx1, Hx2.
    rewrite List.Forall_forall in Hr1, Hr2.
    apply Hr1 in Hx1. apply Hr2 in Hx2. lia.
  - simpl. apply Forall_app. split.
    + eapply Forall_impl; [exact Hr1|]. intros x Hx. simpl in Hx.
      rewrite !length_app in *. lia.
    + eapply Forall_impl; [exact Hr2|]. intros x Hx. simpl in Hx.
      rewrite !length_app in *. lia.
Qed.

Lemma prefix_length (h h0 : Heap) :
  (forall l a, h !! l = Some a -> h0 !! l = Some a) -> length h <= length h0.
Proof.
  intros Hpre. destruct (decide (length h <= length h0)) as [|Hgt]; [done|].
  destruct (lookup_lt_is_Some_2 h (length h0)) as [a Ha]; [lia|].
  apply Hpre, lookup_lt_Some in Ha. lia.
Qed.

(** The clone of the root of a tree, as the functions that work on a clone
    find it: a new object that stands for the root, above copies of the
    trees below it, in a store that the clone extends. *)
Lemma clone_copyWith `{Externals} (h : Heap) (fuel : nat) (t : tree) (h0 : Heap)
    (a : AccountUpdate) :
  (forall l a, h !! l = Some a -> h0 !! l = Some a) ->
  shape h t -> height t < fuel -> h !! root t = Some a ->
  exists ts' ext,
    clone fuel (root t) h0 = Ok (length h0, h0 ++ cloneOf a (map root ts') :: ext)
    /\ Forall2 (copyOf h (h0 ++ cloneOf a (map root ts') :: ext)) (subtrees t) ts'
    /\ Forall (fun l' => length h0 < l') (flat_map preorder ts').
Proof.
  intros Hpre Hsh Hfit Ha.
  destruct (clone_copy h fuel t h0 Hpre Hsh Hfit)
    as ([l' ts'] & ext & Hrun & Hroot & Hcopy & Hnd & Hrange).
  simpl in Hroot. subst l'. destruct t as [l ts]. simpl in *.
  inversion Hcopy as [? ? a0 ? ? Hl Hl' Hsub]; subst.
  assert (a0 = a) as -> by congruence.
  destruct ext as [|x ext].
  { rewrite app_nil_r in Hl'. apply lookup_lt_Some in Hl'. lia. }
  rewrite lookup_middle in Hl'. injection Hl' as ->.
  exists ts', ext. split; [done|]. split; [done|].
  apply NoDup_cons in Hnd as [Hnotin _].
  apply Forall_cons in Hrange as [_ Hrange].
  apply List.Forall_forall. intros y Hy.
  rewrite List.Forall_forall in Hrange. specialize (Hrange y Hy).
  assert (y <> length h0) by (intros ->; by apply Hnotin, list_elem_of_In).
  lia.
Qed.


Lemma copyWith_app (f : AccountUpdate -> list loc -> AccountUpdate) (h h' ext : Heap)
    (t : tree) (l' : loc) :
  copyWith f h h' t l' -> copyWith f h (h' ++ ext) t l'.
Proof.
  intros (a & ts' & Ha & Hl' & Hsub & Hnew). exists a, ts'.
  split; [done|]. split; [by apply lookup_app_l_Some|].
  split; [by apply copiesOf_app|done].
Qed.





(** ** Linking and unlinking *)

(** C4, the code at the failing input: in a transaction with the top-level
    updates 0 and 1, [approve] moves update 1 below update 0; [unlink] then
    takes it out of the children of update 0 but leaves its [parent]
    pointing to update 0; a second [approve] by update 0 pushes update 1 onto
    the children of update 0 and unlinks it from that same list, so that it
    ends up in no owning list. *)
Theorem approve_after_unlink_drops_child :
  exists st1 st2 st3,
    approve 0 1 NoDelegation linkState = Ok st1
    /\ childrenOf 0 st1 = Some [1] /\ topLevel st1 = Some [0]
    /\ parentOf 1 st1 = Some (Some 0)
    /\ unlink 1 st1 = Ok st2
    /\ childrenOf 0 st2 = Some [] /\ topLevel st2 = Some [0]
    /\ parentOf 1 st2 = Some (Some 0)
    /\ approve 0 1 NoDelegation st2 = Ok st3
    /\ childrenOf 0 st3 = Some [] /\ topLevel st3 = Some [0]
    /\ parentOf 1 st3 = Some (Some 0).
Proof. vm_compute. eexists _, _, _. repeat split. Qed.

Lemma sameId_alter (f : AccountUpdate -> AccountUpdate) (l : loc) (h : Heap) (i : Id) :
  (forall a, id (f a) = id a) ->
  forall x, sameId (alter f l h) i x = sameId h i x.
Proof.
  intros Hf x. unfold sameId. destruct (decide (l = x)) as [->|Hne].
  - rewrite list_lookup_alter_eq. destruct (h !! x) as [a|]; simpl; [|done].
    by rewrite Hf.
  - by rewrite list_lookup_alter_ne.
Qed.

Lemma findIndex_ext {A} (p q : A -> bool) (l : list A) :
  (forall x, p x = q x) -> findIndex p l = findIndex q l.
Proof. intros H. induction l as [|x l IH]; simpl; [done|]. by rewrite H, IH. Qed.

Lemma find_ext {A} (p q : A -> bool) (l : list A) :
  (forall x, p x = q x) -> find p l = find q l.
Proof. intros H. induction l as [|x l IH]; simpl; [done|]. by rewrite H, IH. Qed.

Lemma findIndex_middle {A} (p : A -> bool) (l1 l2 : list A) (x : A) :
  Forall (fun y => p y = false) l1 -> p x = true ->
  findIndex p (l1 ++ x :: l2) = Some (length l1).
Proof.
  intros Hl Hx. induction Hl as [|y l1 Hy _ IH]; simpl; [by rewrite Hx|].
  by rewrite Hy, IH.
Qed.

Lemma findIndex_none {A} (p : A -> bool) (l : list A) :
  Forall (fun y => p y = false) l -> findIndex p l = None.
Proof. induction 1 as [|y l Hy _ IH]; simpl; [done|]. by rewrite Hy, IH. Qed.

Lemma find_none {A} (p : A -> bool) (l : list A) :
  Forall (fun y => p y = false) l -> find p l = None.
Proof. induction 1 as [|y l Hy _ IH]; simpl; [done|]. by rewrite Hy. Qed.

(** [unlink] deletes the first entry with the id of the update from the
    children of the update's [parent], or from the top-level list when it
    has no parent, and does nothing when no entry has that id. *)
Lemma unlink_spec (st : State) (l : loc) (a : AccountUpdate) :
  heap st !! l = Some a ->
  match parent a with
  | Some p =>
      forall pa, heap st !! p = Some pa ->
      (forall l1 x l2,
          accountUpdates (children pa) = l1 ++ x :: l2 ->
          Forall (fun y => sameId (heap st) (id a) y = false) l1 ->
          sameId (heap st) (id a) x = true ->
          unlink l st
          = Ok (with_heap (alter (with_accountUpdates (fun _ => l1 ++ l2)) p) st))
      /\ (Forall (fun y => sameId (heap st) (id a) y = false)
                 (accountUpdates (children pa)) ->
          unlink l st = Ok st)
  | None =>
      forall tx, currentTransaction st = Some tx ->
      (forall l1 x l2,
          CurrentTransaction.accountUpdates tx = l1 ++ x :: l2 ->
          Forall (fun y => sameId (heap st) (id a) y = false) l1 ->
          sameId (heap st) (id a) x = true ->
          unlink l st = Ok (with_topLevel (fun _ => l1 ++ l2) st))
      /\ (Forall (fun y => sameId (heap st) (id a) y = false)
                 (CurrentTransaction.accountUpdates tx) ->
          unlink l st = Ok st)
  end.
Proof.
  intros Ha. unfold unlink. rewrite Ha. simpl.
  destruct (parent a) as [p|].
  - intros pa Hpa. rewrite Hpa. simpl. split.
    + intros l1 x l2 Hsplit Hl1 Hx.
      rewrite Hsplit, (findIndex_middle _ l1 l2 x) by done.
      unfold with_heap. do 2 f_equal. apply list_alter_ext; [|done]. intros pa' Hpa'.
      assert (pa' = pa) as -> by congruence.
      unfold with_accountUpdates. by rewrite Hsplit, delete_middle.
    + intros Hnone. by rewrite findIndex_none.
  - intros tx Htx. rewrite Htx. split.
    + intros l1 x l2 Hsplit Hl1 Hx.
      rewrite Hsplit, (findIndex_middle _ l1 l2 x) by done.
      unfold with_topLevel. rewrite Htx. simpl. by rewrite Hsplit, delete_middle.
    + intros Hnone. by rewrite findIndex_none.
Qed.

Lemma sameId_self (h : Heap) (l : loc) (a : AccountUpdate) :
  h !! l = Some a -> sameId h (id a) l = true.
Proof. intros Hl. unfold sameId. rewrite Hl. by apply bool_decide_eq_true_2. Qed.

(** Reparenting on a consistent state: a child that is listed under the
    parent [q] its [parent] field names moves to the end of the children of
    the new parent [p]. *)
Lemma makeChildAccountUpdate_moves (st : State) (p c q : loc)
    (pa ca qa : AccountUpdate) (l1 l2 : list loc) :
  p <> c -> q <> c -> q <> p ->
  heap st !! p = Some pa -> heap st !! c = Some ca -> heap st !! q = Some qa ->
  parent ca = Some q ->
  accountUpdates (children qa) = l1 ++ c :: l2 ->
  Forall (fun y => sameId (heap st) (id ca) y = false) l1 ->
  Forall (fun y => sameId (heap st) (id ca) y = false) (accountUpdates (children pa)) ->
  exists st',
    makeChildAccountUpdate p c st = Ok st'
    /\ childrenOf p st' = Some (accountUpdates (children pa) ++ [c])
    /\ childrenOf q st' = Some (l1 ++ l2)
    /\ parentOf c st' = Some (Some p)
    /\ topLevel st' = topLevel st
    /\ callDepthAt (heap st') c = Some (callDepth (body pa) + 1).
Proof.
  intros Hpc Hqc Hqp Hp Hc Hq Hpar Hsplit Hl1 Hnew.
  assert (Hcp : c <> p) by auto. assert (Hcq : c <> q) by auto.
  assert (Hpq : p <> q) by auto.
  unfold makeChildAccountUpdate. rewrite Hp, Hc. simpl.
  lookup_alter. rewrite Hp, Hc. simpl.
  rewrite (find_ext _ (sameId (heap st) (id ca))) by (by apply sameId_alter).
  rewrite find_none by done.
  unfold unlink. simpl. lookup_alter. rewrite Hc. simpl.
  rewrite Hpar. lookup_alter. rewrite Hq. simpl.
  rewrite (findIndex_ext _ (sameId (heap st) (id ca))).
  2:{ intros y. by rewrite !sameId_alter. }
  rewrite Hsplit, (findIndex_middle _ l1 l2 c); [|done|by apply sameId_self]. simpl.
  eexists. split; [reflexivity|].
  unfold childrenOf, parentOf, topLevel, callDepthAt. simpl.
  lookup_alter. rewrite Hp, Hq, Hc. simpl.
  by rewrite Hsplit, delete_middle.
Qed.

(** The same call on the state that [unlink] leaves behind: the [parent]
    field of the child still names [p] while the child is not among the
    children of [p].  The child is pushed and unlinked from the list it was
    pushed to, and is not a child of [p] afterwards. *)
Lemma makeChildAccountUpdate_stale_parent (st : State) (p c : loc)
    (pa ca : AccountUpdate) :
  p <> c ->
  heap st !! p = Some pa -> heap st !! c = Some ca ->
  parent ca = Some p ->
  Forall (fun y => sameId (heap st) (id ca) y = false) (accountUpdates (children pa)) ->
  exists st',
    makeChildAccountUpdate p c st = Ok st'
    /\ childrenOf p st' = Some (accountUpdates (children pa))
    /\ parentOf c st' = Some (Some p)
    /\ topLevel st' = topLevel st.
Proof.
  intros Hpc Hp Hc Hpar Hnew.
  assert (Hcp : c <> p) by auto.
  unfold makeChildAccountUpdate. rewrite Hp, Hc. simpl.
  lookup_alter. rewrite Hp, Hc. simpl.
  rewrite (find_ext _ (sameId (heap st) (id ca))) by (by apply sameId_alter).
  rewrite find_none by done.
  unfold unlink. simpl. lookup_alter. rewrite Hc. simpl.
  rewrite Hpar. lookup_alter. rewrite Hp. simpl.
  rewrite (findIndex_ext _ (sameId (heap st) (id ca))).
  2:{ intros y. by rewrite !sameId_alter. }
  rewrite (findIndex_middle _ _ [] c); [|done|by apply sameId_self]. simpl.
  eexists. split; [reflexivity|].
  unfold childrenOf, parentOf, topLevel. simpl.
  lookup_alter. rewrite Hp, Hc. simpl.
  by rewrite (delete_middle _ []), app_nil_r.
Qed.

(** Reparenting a top-level update: it leaves the top-level list and becomes
    the last child of [p]. *)
Lemma makeChildAccountUpdate_moves_top (st : State) (p c : loc)
    (pa ca : AccountUpdate) (tx : CurrentTransaction.t) (l1 l2 : list loc) :
  p <> c ->
  heap st !! p = Some pa -> heap st !! c = Some ca ->
  parent ca = None ->
  currentTransaction st = Some tx ->
  CurrentTransaction.accountUpdates tx = l1 ++ c :: l2 ->
  Forall (fun y => sameId (heap st) (id ca) y = false) l1 ->
  Forall (fun y => sameId (heap st) (id ca) y = false) (accountUpdates (children pa)) ->
  exists st',
    makeChildAccountUpdate p c st = Ok st'
    /\ childrenOf p st' = Some (accountUpdates (children pa) ++ [c])
    /\ topLevel st' = Some (l1 ++ l2)
    /\ parentOf c st' = Some (Some p)
    /\ callDepthAt (heap st') c = Some (callDepth (body pa) + 1).
Proof.
  intros Hpc Hp Hc Hpar Htx Hsplit Hl1 Hnew.
  assert (Hcp : c <> p) by auto.
  unfold makeChildAccountUpdate. rewrite Hp, Hc. simpl.
  lookup_alter. rewrite Hp, Hc. simpl.
  rewrite (find_ext _ (sameId (heap st) (id ca))) by (by apply sameId_alter).
  rewrite find_none by done.
  unfold unlink. simpl. lookup_alter. rewrite Hc. simpl.
  rewrite Hpar, Htx.
  rewrite (findIndex_ext _ (sameId (heap st) (id ca))).
  2:{ intros y. by rewrite !sameId_alter. }
  rewrite Hsplit, (findIndex_middle _ l1 l2 c); [|done|by apply sameId_self]. simpl.
  eexists. split; [reflexivity|].
  unfold childrenOf, parentOf, topLevel, callDepthAt. simpl.
  lookup_alter. rewrite Hp, Hc, Htx. simpl.
  by rewrite Hsplit, delete_middle.
Qed.

(** * Further properties of the code *)

(** ** Walking the forest *)

Lemma forM_log {A} (l acc : list A) :
  forM (fun x visited => Ok (visited ++ [x])) l acc = Ok (acc ++ l).
Proof.
  revert acc. induction l as [|x l IH]; intros acc; simpl.
  - by rewrite app_nil_r.
  - rewrite IH. by rewrite <- app_assoc.
Qed.

(** X1: [CallForest.forEach] calls back on every node of the forest, dummy
    nodes and the nodes below them included, once each and in depth-first
    pre-order; a callback that throws ends the walk. *)
Theorem forEach_visits_every_node (fuel : nat) (h : Heap) (ts : list tree) :
  Forall (shape h) ts -> fits fuel ts ->
  CallForest.forEach fuel h (map root ts)
    (fun update visited => Ok (visited ++ [update])) []
  = Ok (flat_map preorder ts)
  /\ forall (S : Type) (callback : loc -> S -> result S) (st : S),
      CallForest.forEach fuel h (map root ts) callback st
      = forM callback (flat_map preorder ts) st.
Proof.
  intros Hsh Hfit. split.
  - rewrite forEach_preorder by done. apply forM_log.
  - intros S callback st. by apply forEach_preorder.
Qed.

Lemma forEach_visits_every_node_witness :
  CallForest.forEach 4 exampleHeap [0]
    (fun update visited => Ok (visited ++ [update])) []
  = Ok [0; 1; 2; 3].
Proof.
  exact (proj1 (forEach_visits_every_node 4 exampleHeap exampleForest
                  exampleForest_shape exampleForest_fits)).
Defined.

(** ** Call depths *)

Lemma computeCallDepth_ancestors (h : Heap) (ts : list tree) :
  parentsOk h ts ->
  forall (anc : list loc) (l : loc) (fuel d : nat),
    In (l, anc) (flat_map (ancestry []) ts) -> length anc < fuel ->
    CallForest.computeCallDepth fuel h l d = Ok (d + length anc).
Proof.
  intros Hok anc. induction anc as [|p anc IH]; intros l fuel d Hin Hlen;
    (destruct fuel as [|fuel]; [simpl in Hlen; lia|]); simpl;
    destruct (parentsOk_lookup h ts l _ Hok Hin) as (a & Ha & Hp);
    rewrite Ha; simpl; rewrite Hp; simpl.
  - f_equal. lia.
  - rewrite IH.
    + f_equal. lia.
    + by apply ancestries_parent with l.
    + simpl in Hlen. lia.
Qed.

(** X2: On a forest whose parent links are consistent
    [CallForest.computeCallDepth] returns the number of ancestors of every
    node, and this is the [callDepth] that [CallForest.toFlatList] writes
    into the nodes it returns. *)
Theorem computeCallDepth_toFlatList (fuel : nat) (ts : list tree) (h : Heap) :
  Forall (shape h) ts -> NoDup (flat_map preorder ts) -> fits fuel ts ->
  parentsOk h ts ->
  (forall l anc, In (l, anc) (flat_map (ancestry []) ts) ->
                 CallForest.computeCallDepth fuel h l 0 = Ok (length anc))
  /\ exists flat h',
      CallForest.toFlatList fuel (map root ts) 0 h = Ok (flat, h')
      /\ forall l, In l flat ->
           exists d, CallForest.computeCallDepth fuel h' l 0 = Ok d
                     /\ callDepthAt h' l = Some d.
Proof.
  intros Hsh Hnd Hfit Hok. split.
  { intros l anc Hin.
    rewrite (computeCallDepth_ancestors h ts Hok anc); [done..|].
    by apply (ancestries_depth fuel ts l). }
  eexists _, _. split; [by apply toFlatList_visible|].
  intros l Hl. apply in_map_iff in Hl as ([l' anc] & <- & Hin). simpl.
  assert (Hall : In (l', anc) (flat_map (ancestry []) ts))
    by (by apply List.filter_In in Hin as [? _]).
  exists (length anc). split.
  - rewrite (computeCallDepth_ancestors _ ts) with (anc := anc); [done| |done|].
    + apply (erase_parentsOk h); [|done]. symmetry. apply erase_setDepths.
    + by apply (ancestries_depth fuel ts l').
  - destruct (parentsOk_lookup h ts l' anc Hok Hall) as (a & Ha & _).
    unfold callDepthAt.
    rewrite (setDepths_lookup _ h l' (length anc) a); [done| | |done].
    + rewrite map_map. simpl. apply NoDup_map_fst_filter.
      by rewrite map_fst_ancestries.
    + apply in_map_iff. by exists (l', anc).
Qed.

Lemma computeCallDepth_toFlatList_witness :
  CallForest.computeCallDepth 4 exampleHeap 2 0 = Ok 2.
Proof.
  destruct (computeCallDepth_toFlatList 4 exampleForest exampleHeap
              exampleForest_shape exampleForest_NoDup exampleForest_fits
              exampleForest_parentsOk) as [Hdepth _].
  apply (Hdepth 2 [1; 0]). simpl. tauto.
Defined.

(** ** Running the passes again *)

Lemma fmap_assign {V} (g : AccountUpdate -> AccountUpdate)
    (f : V -> AccountUpdate -> AccountUpdate) (ps : list (loc * V)) (h : Heap) :
  (forall v a, g (f v a) = g a) -> g <$> assign f ps h = g <$> h.
Proof.
  intros Hf. revert h. induction ps as [|p ps IH]; intros h; [done|].
  change (assign f (p :: ps) h) with (assign f ps (alter (f p.2) p.1 h)).
  rewrite IH, (list_fmap_alter g (f p.2) (fun a => a)).
  - by apply list_alter_id.
  - apply Forall_forall. intros; apply Hf.
Qed.

Lemma length_assign {V} (f : V -> AccountUpdate -> AccountUpdate)
    (ps : list (loc * V)) (h : Heap) :
  length (assign f ps h) = length h.
Proof.
  revert h. induction ps as [|p ps IH]; intros h; [done|].
  change (assign f (p :: ps) h) with (assign f ps (alter (f p.2) p.1 h)).
  by rewrite IH, length_alter.
Qed.

Lemma assign_idempotent {V} (f : V -> AccountUpdate -> AccountUpdate)
    (ps : list (loc * V)) (h : Heap) :
  NoDup (map fst ps) -> (forall v a, f v (f v a) = f v a) ->
  assign f ps (assign f ps h) = assign f ps h.
Proof.
  intros Hnd Hf. apply list_eq. intros l.
  destruct (in_dec Nat.eq_dec l (map fst ps)) as [Hin|Hnotin].
  - apply in_map_iff in Hin as ([l' d] & <- & Hin). simpl.
    destruct (h !! l') as [a|] eqn:Ha.
    + rewrite (assign_lookup f ps _ l' d (f d a)); [|done..|by apply assign_lookup].
      rewrite (assign_lookup f ps h l' d a) by done. by rewrite Hf.
    + apply lookup_ge_None in Ha.
      rewrite !(proj2 (lookup_ge_None _ _)); [done|by rewrite ?length_assign..].
  - by rewrite !assign_lookup_notin.
Qed.

Lemma filter_visible_erase (h h' : Heap) (l : list (loc * list loc)) :
  erase <$> h = erase <$> h' -> List.filter (visible h) l = List.filter (visible h') l.
Proof.
  intros He. apply List.filter_ext. intros p. unfold visible.
  induction (p.1 :: p.2) as [|x xs IH]; [done|].
  simpl. by rewrite IH, (erase_dummyAt h h').
Qed.

(** X3: [CallForest.toFlatList] writes nothing but [callDepth], and only into
    the nodes it returns; a second run on the same forest, that is on the
    same roots in the store that the first run left, returns the same list
    and leaves the store as it is. *)
Theorem toFlatList_second_run_on_forest (fuel : nat) (ts : list tree) (h : Heap) :
  Forall (shape h) ts -> NoDup (flat_map preorder ts) -> fits fuel ts ->
  exists flat h',
    CallForest.toFlatList fuel (map root ts) 0 h = Ok (flat, h')
    /\ CallForest.toFlatList fuel (map root ts) 0 h' = Ok (flat, h')
    /\ with_body (with_callDepth 0) <$> h' = with_body (with_callDepth 0) <$> h
    /\ forall l, ~ In l flat -> h' !! l = h !! l.
Proof.
  intros Hsh Hnd Hfit.
  set (nodes := List.filter (visible h) (flat_map (ancestry []) ts)).
  set (ps := map (fun p : loc * list loc => (p.1, length p.2)) nodes).
  assert (Hfst : map fst ps = map fst nodes) by (unfold ps; by rewrite map_map).
  assert (He : erase <$> h = erase <$> setDepths ps h)
    by (symmetry; apply erase_setDepths).
  exists (map fst nodes), (setDepths ps h).
  split; [by apply toFlatList_visible|]. split; [|split].
  - rewrite toFlatList_visible by (done || by apply (erase_shapes h)).
    rewrite <- (filter_visible_erase h _ _ He). fold nodes ps.
    f_equal. f_equal. apply assign_idempotent; [|done].
    rewrite Hfst. apply NoDup_map_fst_filter. by rewrite map_fst_ancestries.
  - by apply fmap_assign.
  - intros l Hl. apply assign_lookup_notin. by rewrite Hfst.
Qed.

Lemma toFlatList_second_run_on_forest_witness :
  exists flat h',
    CallForest.toFlatList 4 [0] 0 exampleHeap = Ok (flat, h')
    /\ CallForest.toFlatList 4 [0] 0 h' = Ok (flat, h').
Proof.
  destruct (toFlatList_second_run_on_forest 4 exampleForest exampleHeap
              exampleForest_shape exampleForest_NoDup exampleForest_fits)
    as (flat & h' & Hrun & Hagain & _).
  by exists flat, h'.
Defined.

(** ** The callers that [addCallers] assigns *)

Lemma pathContext_self `{Externals} (h : Heap) (anc : list loc) :
  CallerContext.self (pathContext h anc) = callingToken h anc.
Proof.
  induction anc as [|p anc IH]; [done|].
  rewrite pathContext_cons. simpl. unfold childContext.
  destruct (h !! p) as [u|]; [|done]. simpl. by destruct (isDelegateCall u).
Qed.

(** X4: [CallForest.addCallers], started in the default context, gives every
    update that is not a delegate call the token id of its nearest
    ancestor that is not a delegate call (the default token id when there
    is none), and every delegate call the caller of its parent (the default
    token id at the top level).  It writes nothing but [caller], and run
    again on its own result it leaves the store as it is. *)
Theorem addCallers_callers `{Externals} (fuel : nat) (ts : list tree) (h : Heap) :
  Forall (shape h) ts -> NoDup (flat_map preorder ts) -> fits fuel ts ->
  exists h',
    CallForest.addCallers fuel (map root ts) CallForest.rootContext h = Ok h'
    /\ CallForest.addCallers fuel (map root ts) CallForest.rootContext h' = Ok h'
    /\ with_body (with_caller 0%Z) <$> h' = with_body (with_caller 0%Z) <$> h
    /\ forall l anc a,
        In (l, anc) (flat_map (ancestry []) ts) -> h !! l = Some a ->
        callerAt h' l
        = Some (if isDelegateCall a
                then match anc with
                     | [] => TokenId.default
                     | p :: _ => default TokenId.default (callerAt h' p)
                     end
                else callingToken h anc).
Proof.
  intros Hsh Hnd Hfit.
  pose proof (addCallersTraced_ancestry fuel ts h [] Hsh Hfit) as Hrun.
  change (pathContext h []) with CallForest.rootContext in Hrun.
  set (h' := setCallers (tracedCallers h [] ts) h) in *.
  assert (He : erase <$> h = erase <$> h') by (symmetry; apply erase_setCallers).
  assert (Hfst : map fst (tracedCallers h [] ts) = flat_map preorder ts).
  { unfold tracedCallers. rewrite map_map. simpl. apply map_fst_ancestries. }
  assert (Hat : forall l anc a,
             In (l, anc) (flat_map (ancestry []) ts) -> h !! l = Some a ->
             callerAt h' l = Some (callerIn h l (pathContext h anc))).
  { intros l anc a Hin Ha. unfold callerAt, h', setCallers.
    rewrite (assign_lookup _ _ h l (callerIn h l (pathContext h anc)) a); [done| | |done].
    - by rewrite Hfst.
    - apply in_map_iff. by exists (l, anc). }
  exists h'. split; [by rewrite addCallersTraced_addCallers, Hrun|]. split; [|split].
  - pose proof (addCallersTraced_ancestry fuel ts h' []
                  (erase_shapes h h' ts He Hsh) Hfit) as Hagain.
    change (pathContext h' []) with CallForest.rootContext in Hagain.
    rewrite addCallersTraced_addCallers, Hagain. simpl. f_equal.
    rewrite <- (erase_tracedCallers h h' [] ts He).
    apply assign_idempotent; [by rewrite Hfst|done].
  - by apply fmap_assign.
  - intros l anc a Hin Ha. rewrite (Hat l anc a Hin Ha). f_equal.
    unfold callerIn. rewrite Ha.
    destruct (isDelegateCall a); [|apply pathContext_self].
    destruct anc as [|p anc]; [done|].
    assert (Hp : In (p, anc) (flat_map (ancestry []) ts))
      by (by apply ancestries_parent with l).
    assert (Hpl : In p (flat_map preorder ts)).
    { rewrite <- (map_fst_ancestries [] ts). apply in_map_iff. by exists (p, anc). }
    destruct (shape_lookup h ts p Hsh Hpl) as [pa Hpa].
    rewrite (Hat p anc pa Hp Hpa). simpl.
    rewrite (childContext_Some h p pa) by done.
    unfold callerIn. by rewrite Hpa.
Qed.

Lemma addCallers_callers_witness :
  exists h',
    @CallForest.addCallers exampleExternals 4 [0] CallForest.rootContext exampleHeap = Ok h'
    /\ callerAt h' 2 = Some 1%Z /\ callerAt h' 3 = Some 501%Z.
Proof.
  destruct (@addCallers_callers exampleExternals 4 exampleForest exampleHeap
              exampleForest_shape exampleForest_NoDup exampleForest_fits)
    as (h' & Hrun & _ & _ & Hat).
  exists h'. split; [exact Hrun|]. split.
  - apply (Hat 2 [1; 0] (exampleUpdate 12 exampleKey [] (Some 1))); [simpl; tauto|done].
  - apply (Hat 3 [0] (exampleUpdate 13 exampleKey [] (Some 0))); [simpl; tauto|done].
Defined.

(** ** The two passes over a forest *)

Lemma alter_commute {A} (f g : A -> A) (i j : nat) (l : list A) :
  (forall a, f (g a) = g (f a)) ->
  alter f i (alter g j l) = alter g j (alter f i l).
Proof.
  intros Hfg. destruct (decide (i = j)) as [->|Hne].
  - rewrite (list_alter_alter f g), (list_alter_alter g f), !decide_True by done.
    apply list_alter_ext; [|done]. intros a _. apply Hfg.
  - by apply list_alter_alter_ne.
Qed.

Lemma assign_commute {V W} (f : V -> AccountUpdate -> AccountUpdate)
    (g : W -> AccountUpdate -> AccountUpdate) (ps : list (loc * V)) (qs : list (loc * W)) :
  (forall v w a, f v (g w a) = g w (f v a)) ->
  forall h : Heap, assign f ps (assign g qs h) = assign g qs (assign f ps h).
Proof.
  intros Hfg. induction ps as [|p ps IHp]; intros h; [done|].
  change (assign f (p :: ps) (assign g qs h))
    with (assign f ps (alter (f p.2) p.1 (assign g qs h))).
  change (assign f (p :: ps) h) with (assign f ps (alter (f p.2) p.1 h)).
  rewrite <- IHp. f_equal. clear IHp.
  revert h. induction qs as [|q qs IHq]; intros h; [done|].
  change (assign g (q :: qs) h) with (assign g qs (alter (g q.2) q.1 h)).
  change (assign g (q :: qs) (alter (f p.2) p.1 h))
    with (assign g qs (alter (g q.2) q.1 (alter (f p.2) p.1 h))).
  rewrite IHq. f_equal. by apply alter_commute.
Qed.

(** X5: [CallForest.toFlatList] and [CallForest.addCallers] can run in either
    order: the flat list is the same, and so is the store after both. *)
Theorem toFlatList_addCallers_commute `{Externals} (fuel : nat) (ts : list tree)
    (h : Heap) :
  Forall (shape h) ts -> fits fuel ts ->
  exists flat hDepths hCallers hBoth,
    CallForest.toFlatList fuel (map root ts) 0 h = Ok (flat, hDepths)
    /\ CallForest.addCallers fuel (map root ts) CallForest.rootContext h = Ok hCallers
    /\ CallForest.addCallers fuel (map root ts) CallForest.rootContext hDepths = Ok hBoth
    /\ CallForest.toFlatList fuel (map root ts) 0 hCallers = Ok (flat, hBoth).
Proof.
  intros Hsh Hfit.
  set (nodes := List.filter (visible h) (flat_map (ancestry []) ts)).
  set (ps := map (fun p : loc * list loc => (p.1, length p.2)) nodes).
  set (cs := tracedCallers h [] ts).
  assert (Hd : erase <$> h = erase <$> setDepths ps h)
    by (symmetry; apply erase_setDepths).
  assert (Hc : erase <$> h = erase <$> setCallers cs h)
    by (symmetry; apply erase_setCallers).
  exists (map fst nodes), (setDepths ps h), (setCallers cs h),
    (setCallers cs (setDepths ps h)).
  split; [by apply toFlatList_visible|]. split; [|split].
  - pose proof (addCallersTraced_ancestry fuel ts h [] Hsh Hfit) as Hrun.
    change (pathContext h []) with CallForest.rootContext in Hrun.
    by rewrite addCallersTraced_addCallers, Hrun.
  - pose proof (addCallersTraced_ancestry fuel ts (setDepths ps h) []
                  (erase_shapes h _ ts Hd Hsh) Hfit) as Hrun.
    change (pathContext (setDepths ps h) []) with CallForest.rootContext in Hrun.
    rewrite addCallersTraced_addCallers, Hrun. simpl.
    by rewrite <- (erase_tracedCallers h _ [] ts Hd).
  - rewrite toFlatList_visible by (done || by apply (erase_shapes h)).
    rewrite <- (filter_visible_erase h _ _ Hc). fold nodes ps.
    f_equal. f_equal. unfold setDepths, setCallers. apply assign_commute.
    by intros v w [].
Qed.

Lemma toFlatList_addCallers_commute_witness :
  exists flat hDepths hCallers hBoth,
    CallForest.toFlatList 4 [0] 0 exampleHeap = Ok (flat, hDepths)
    /\ @CallForest.addCallers exampleExternals 4 [0] CallForest.rootContext exampleHeap
       = Ok hCallers
    /\ @CallForest.addCallers exampleExternals 4 [0] CallForest.rootContext hDepths
       = Ok hBoth
    /\ CallForest.toFlatList 4 [0] 0 hCallers = Ok (flat, hBoth).
Proof.
  exact (@toFlatList_addCallers_commute exampleExternals 4 exampleForest exampleHeap
           exampleForest_shape exampleForest_fits).
Defined.

(** ** Dummy children and the children hash *)

Lemma hashChildren_lookup `{Externals} (fuel : nat) (h : Heap) (l : loc) (v : Field) :
  CallForest.hashChildren fuel h l = Ok v -> is_Some (h !! l).
Proof.
  unfold CallForest.hashChildren, CallForest.hashChildrenWith.
  destruct (h !! l); [by eexists|done].
Qed.

Lemma hashed_children `{Externals} (fuel : nat) (h : Heap) (l : list loc) :
  Forall (fun c => exists v, CallForest.hashChildren fuel h c = Ok v) l ->
  exists cs : list (AccountUpdate * Field),
    Forall2 (fun child cv =>
               h !! child = Some cv.1 /\ CallForest.hashChildren fuel h child = Ok cv.2)
            l cs
    /\ Forall2 (fun child cv =>
                  h !! child = Some cv.1 /\ CallForest.hashChildren fuel h child = Ok cv.2)
               (List.filter (fun c => negb (dummyAt h c)) l)
               (List.filter (fun cv => negb (isDummy cv.1)) cs).
Proof.
  induction 1 as [|c l [v Hv] _ (cs & Hall & Hkept)].
  { exists []. by split; constructor. }
  destruct (hashChildren_lookup fuel h c v Hv) as [a Ha].
  exists ((a, v) :: cs). split; [by constructor|].
  simpl. unfold dummyAt at 1. rewrite Ha.
  destruct (isDummy a); simpl; [done|by constructor].
Qed.

Lemma fold_hash_filter `{Externals} (cs : list (AccountUpdate * Field)) :
  fold_right
    (fun cv stackHash =>
       if isDummy cv.1 then stackHash
       else hashWithPrefix prefix_accountUpdateCons
              [hashWithPrefix prefix_accountUpdateNode [hashAccountUpdate cv.1; cv.2];
               stackHash])
    CallForest.emptyHash (List.filter (fun cv => negb (isDummy cv.1)) cs)
  = fold_right
      (fun cv stackHash =>
         if isDummy cv.1 then stackHash
         else hashWithPrefix prefix_accountUpdateCons
                [hashWithPrefix prefix_accountUpdateNode [hashAccountUpdate cv.1; cv.2];
                 stackHash])
      CallForest.emptyHash cs.
Proof.
  induction cs as [|[a v] cs IH]; [done|].
  simpl. destruct (isDummy a) eqn:Hd; simpl; [done|]. by rewrite Hd, IH.
Qed.

(** X6: Dummy children do not count for [CallForest.hashChildrenBase]: an update
    has the children hash of an update that lists its children without the
    dummies, and the empty hash when all its children are dummies, whenever
    the children hashes of its children return. *)
Theorem hashChildrenBase_ignores_dummies `{Externals} (fuel : nat) (h : Heap)
    (update : loc) (u : AccountUpdate) :
  h !! update = Some u ->
  Forall (fun c => exists v, CallForest.hashChildren fuel h c = Ok v)
         (accountUpdates (children u)) ->
  (forall update' u',
      h !! update' = Some u' ->
      accountUpdates (children u')
      = List.filter (fun c => negb (dummyAt h c)) (accountUpdates (children u)) ->
      CallForest.hashChildrenBase (S fuel) h update
      = CallForest.hashChildrenBase (S fuel) h update')
  /\ (Forall (fun c => dummyAt h c = true) (accountUpdates (children u)) ->
      CallForest.hashChildrenBase (S fuel) h update = Ok CallForest.emptyHash).
Proof.
  intros Hu Hret.
  destruct (hashed_children fuel h _ Hret) as (cs & Hall & Hkept).
  split.
  - intros update' u' Hu' Hch. rewrite <- Hch in Hkept.
    rewrite (hashChildrenBase_fold fuel h update u cs Hu Hall).
    rewrite (hashChildrenBase_fold fuel h update' u' _ Hu' Hkept).
    by rewrite fold_hash_filter.
  - intros Hdummies.
    rewrite (hashChildrenBase_fold fuel h update u cs Hu Hall). f_equal.
    clear Hkept Hret Hu.
    induction Hall as [|c [a v] l cs' [Hc _] _ IH]; [done|].
    apply Forall_cons in Hdummies as [Hd Hdummies].
    unfold dummyAt in Hd. rewrite Hc in Hd. simpl in *. rewrite Hd. by apply IH.
Qed.

Lemma hashChildrenBase_ignores_dummies_witness :
  @CallForest.hashChildrenBase exampleExternals 2 hashHeap 0
  = @CallForest.hashChildrenBase exampleExternals 2 hashHeap 3.
Proof.
  refine (proj1 (@hashChildrenBase_ignores_dummies exampleExternals 1 hashHeap 0
                   (exampleUpdate 50 exampleKey [1; 2] None) eq_refl _)
            3 (exampleUpdate 53 exampleKey [2] None) eq_refl eq_refl).
  repeat constructor; by eexists.
Defined.

Lemma forM_hash_returns `{Externals} (fuel : nat) (h : Heap) (l : list loc) :
  Forall (fun c => exists v, CallForest.hashChildren fuel h c = Ok v) l ->
  forall stackHash, exists stackHash',
    forM (fun accountUpdate stackHash =>
            a ← deref (h !! accountUpdate);
            calls ← CallForest.hashChildrenWith (CallForest.hashChildrenBase fuel h) h
                      accountUpdate;
            let nodeHash :=
              hashWithPrefix prefix_accountUpdateNode [hashAccountUpdate a; calls] in
            let newHash :=
              hashWithPrefix prefix_accountUpdateCons [nodeHash; stackHash] in
            Ok (if isDummy a then stackHash else newHash))
         l stackHash
    = Ok stackHash'.
Proof.
  induction 1 as [|c l [v Hv] _ IH]; intros stackHash; simpl; [by eexists|].
  destruct (hashChildren_lookup fuel h c v Hv) as [a Ha]. rewrite Ha. simpl.
  unfold CallForest.hashChildren in Hv. rewrite Hv. simpl. apply IH.
Qed.

(** X7: A dummy child is left out of the hash, but its own children hash is
    computed all the same: when that throws (a failed assertion on the
    children hash it claims, in a checked computation),
    [CallForest.hashChildrenBase] of the parent throws with it. *)
Theorem hashChildrenBase_dummy_child_throws `{Externals} (fuel : nat) (h : Heap)
    (update : loc) (u d : AccountUpdate) (l1 l2 : list loc) (child : loc) (msg : string) :
  h !! update = Some u ->
  accountUpdates (children u) = l1 ++ child :: l2 ->
  h !! child = Some d -> isDummy d = true ->
  Forall (fun c => exists v, CallForest.hashChildren fuel h c = Ok v) l2 ->
  CallForest.hashChildren fuel h child = Throw msg ->
  CallForest.hashChildrenBase (S fuel) h update = Throw msg.
Proof.
  intros Hu Hch Hd _ Hl2 Hthrow. simpl. rewrite Hu. simpl. rewrite Hch.
  rewrite rev_app_distr. simpl. rewrite <- app_assoc, forM_app.
  apply Forall_rev in Hl2.
  destruct (forM_hash_returns fuel h (rev l2) Hl2 CallForest.emptyHash) as [s Hs].
  cbv zeta in Hs. rewrite Hs. simpl. rewrite Hd. simpl.
  unfold CallForest.hashChildren in Hthrow. by rewrite Hthrow.
Qed.

Lemma hashChildrenBase_dummy_child_throws_witness :
  @CallForest.hashChildrenBase checkedExternals 2 hashHeap 0
  = Throw "Field.assertEquals(): the two values are not equal".
Proof.
  apply (@hashChildrenBase_dummy_child_throws checkedExternals 1 hashHeap 0
           (exampleUpdate 50 exampleKey [1; 2] None)
           (with_callsType (CallsEquals 5%Z) (exampleUpdate 51 PublicKey.empty [] (Some 0)))
           [] [2] 1);
    try reflexivity.
  repeat constructor. by eexists.
Defined.

(** ** Linking and unlinking *)

Lemma lookup_alter_proj {B} (g : AccountUpdate -> B) (f : AccountUpdate -> AccountUpdate)
    (l x : loc) (h : Heap) :
  (forall a, g (f a) = g a) -> g <$> alter f l h !! x = g <$> h !! x.
Proof.
  intros Hf. rewrite list_lookup_alter. destruct (decide (l = x)) as [->|]; [|done].
  destruct (h !! x); simpl; [|done]. by rewrite Hf.
Qed.

Lemma findIndex_removeFirst {A} (p : A -> bool) (l : list A) :
  match findIndex p l with
  | Some i => delete i l
  | None => l
  end = removeFirst p l.
Proof.
  induction l as [|x l IH]; [done|].
  simpl. destruct (p x); [done|].
  destruct (findIndex p l); simpl in *; by rewrite <- IH.
Qed.

(** X8: [AccountUpdate.unlink] removes the first entry that carries the id of
    the update from the list that the update's [parent] field selects, the
    children of the parent or else the top-level list of the transaction,
    and changes nothing else: no other list, and no [parent] field, the
    update's own included. *)
Theorem unlink_removes_first_match (st : State) (l : loc) (a : AccountUpdate) :
  heap st !! l = Some a ->
  (forall p, parent a = Some p -> is_Some (heap st !! p)) ->
  exists st',
    unlink l st = Ok st'
    /\ (forall x, parentOf x st' = parentOf x st)
    /\ smartContractContext st' = smartContractContext st
    /\ match parent a with
       | Some p =>
           topLevel st' = topLevel st
           /\ (forall x, x <> p -> heap st' !! x = heap st !! x)
           /\ childrenOf p st'
              = removeFirst (sameId (heap st) (id a)) <$> childrenOf p st
       | None =>
           heap st' = heap st
           /\ topLevel st' = removeFirst (sameId (heap st) (id a)) <$> topLevel st
       end.
Proof.
  intros Ha Hp. unfold unlink. rewrite Ha. simpl.
  destruct (parent a) as [p|].
  - destruct (Hp p eq_refl) as [pa Hpa]. rewrite Hpa. simpl.
    pose proof (findIndex_removeFirst (sameId (heap st) (id a))
                  (accountUpdates (children pa))) as Hrm.
    unfold childrenOf at 2. rewrite Hpa. simpl. rewrite <- Hrm.
    destruct (findIndex _ _) as [i|].
    + eexists. split; [reflexivity|].
      unfold parentOf, childrenOf, topLevel. simpl.
      split; [intros x; by apply lookup_alter_proj|]. split; [done|].
      split; [done|]. split.
      * intros x Hx. by rewrite list_lookup_alter_ne.
      * by rewrite list_lookup_alter_eq, Hpa.
    + eexists. split; [reflexivity|].
      unfold childrenOf. rewrite Hpa. by repeat split.
  - destruct (currentTransaction st) as [tx|] eqn:Htx.
    + pose proof (findIndex_removeFirst (sameId (heap st) (id a))
                    (CurrentTransaction.accountUpdates tx)) as Hrm.
      unfold topLevel at 2. rewrite Htx. simpl. rewrite <- Hrm.
      destruct (findIndex _ _) as [i|].
      * eexists. split; [reflexivity|].
        unfold topLevel, with_topLevel. simpl. rewrite Htx. by repeat split.
      * eexists. split; [reflexivity|].
        unfold topLevel. rewrite Htx. by repeat split.
    + eexists. split; [reflexivity|].
      unfold topLevel. rewrite Htx. by repeat split.
Qed.

Lemma unlink_removes_first_match_witness :
  exists st',
    unlink 2 moveState = Ok st'
    /\ childrenOf 1 st' = Some [] /\ parentOf 2 st' = Some (Some 1).
Proof.
  destruct (unlink_removes_first_match moveState 2
              (exampleUpdate 62 exampleKey [] (Some 1)) eq_refl)
    as (st' & Hrun & Hpar & _ & _ & _ & Hch).
  { intros p [= <-]. by eexists. }
  exists st'. split; [exact Hrun|]. split; [exact Hch|apply Hpar].
Defined.

(** X9: [makeChildAccountUpdate] with a child whose id is already carried by an
    entry of the parent's children adds no entry and unlinks nothing: it
    sets the [callDepth] and the [parent] of the child and writes nothing
    else, so that every other object, every list and the contexts are as
    they were. *)
Theorem makeChildAccountUpdate_known_child (st : State) (p c x : loc)
    (pa ca : AccountUpdate) :
  heap st !! p = Some pa -> heap st !! c = Some ca ->
  In x (accountUpdates (children pa)) -> sameId (heap st) (id ca) x = true ->
  exists st',
    makeChildAccountUpdate p c st = Ok st'
    /\ heap st' !! c
       = Some (with_parent (Some p)
                 (with_body (with_callDepth (callDepth (body pa) + 1)) ca))
    /\ (forall y, y <> c -> heap st' !! y = heap st !! y)
    /\ length (heap st') = length (heap st)
    /\ currentTransaction st' = currentTransaction st
    /\ smartContractContext st' = smartContractContext st
    /\ (forall y, childrenOf y st' = childrenOf y st)
    /\ topLevel st' = topLevel st
    /\ parentOf c st' = Some (Some p)
    /\ callDepthAt (heap st') c = Some (callDepth (body pa) + 1).
Proof.
  intros Hp Hc Hin Hx.
  assert (Hrun : makeChildAccountUpdate p c st
                 = Ok (with_heap (alter (with_parent (Some p)) c)
                         (with_heap
                            (alter (with_body (with_callDepth (callDepth (body pa) + 1))) c)
                            st))).
  { unfold makeChildAccountUpdate. rewrite Hp, Hc. simpl.
    rewrite list_lookup_alter_eq, Hc. simpl.
    assert (Hp' : exists pa',
               alter (with_body (with_callDepth (callDepth (body pa) + 1))) c (heap st) !! p
               = Some pa' /\ accountUpdates (children pa') = accountUpdates (children pa)).
    { rewrite list_lookup_alter. destruct (decide (c = p)) as [->|]; [|by exists pa].
      rewrite Hp. by eexists. }
    destruct Hp' as (pa' & -> & Hch). simpl. rewrite Hch.
    rewrite (find_ext _ (sameId (heap st) (id ca))) by (by apply sameId_alter).
    by destruct (find_In_Some _ _ x Hin Hx) as [y ->]. }
  eexists. split; [exact Hrun|].
  unfold childrenOf, parentOf, topLevel, callDepthAt. simpl.
  split; [by rewrite !list_lookup_alter_eq, Hc|].
  split; [intros y Hy; by rewrite !list_lookup_alter_ne|].
  split; [by rewrite !length_alter|].
  split; [done|]. split; [done|].
  split; [intros y; by rewrite !lookup_alter_proj|].
  split; [done|].
  by rewrite !list_lookup_alter_eq, Hc.
Qed.

Lemma makeChildAccountUpdate_known_child_witness :
  exists st',
    makeChildAccountUpdate 1 2 moveState = Ok st'
    /\ childrenOf 1 st' = Some [2] /\ topLevel st' = Some [0; 1]
    /\ heap st' !! 1 = heap moveState !! 1.
Proof.
  destruct (makeChildAccountUpdate_known_child moveState 1 2 2
              (exampleUpdate 61 (PublicKey.mk 9%Z false) [2] None)
              (exampleUpdate 62 exampleKey [] (Some 1)))
    as (st' & Hrun & _ & Hframe & _ & _ & _ & Hch & Htop & _); [done|done|by left|done|].
  exists st'. split; [exact Hrun|]. split; [apply Hch|]. split; [exact Htop|].
  apply Hframe. lia.
Defined.

(** X10: [approve] of a top-level update moves it from the list of the
    transaction to the end of the approver's children, sets its [parent],
    its [callDepth] (one more than the approver's) and its [callsType]
    (Witness), and clears the approver's [isDelegateCall]; with the layout
    NoDelegation it throws when the child is a delegate call. *)
Theorem approve_moves_top_level_update (st : State) (p c : loc)
    (pa ca : AccountUpdate) (tx : CurrentTransaction.t) (l1 l2 : list loc)
    (layout : AccountUpdatesLayout) :
  p <> c ->
  heap st !! p = Some pa -> heap st !! c = Some ca ->
  parent ca = None ->
  currentTransaction st = Some tx ->
  CurrentTransaction.accountUpdates tx = l1 ++ c :: l2 ->
  Forall (fun y => sameId (heap st) (id ca) y = false) l1 ->
  Forall (fun y => sameId (heap st) (id ca) y = false) (accountUpdates (children pa)) ->
  if match layout with NoDelegation => isDelegateCall ca | AnyChildren => false end
  then approve p c layout st = Throw "Bool.assertFalse(): true != false"
  else exists st',
      approve p c layout st = Ok st'
      /\ childrenOf p st' = Some (accountUpdates (children pa) ++ [c])
      /\ topLevel st' = Some (l1 ++ l2)
      /\ parentOf c st' = Some (Some p)
      /\ callDepthAt (heap st') c = Some (callDepth (body pa) + 1)
      /\ isDelegateCall <$> heap st' !! p = Some false
      /\ (fun a => callsType (children a)) <$> heap st' !! c = Some CallsWitness.
Proof.
  intros Hpc Hp Hc Hpar Htx Hsplit Hl1 Hnew.
  assert (Hcp : c <> p) by auto.
  unfold approve, makeChildAccountUpdate. rewrite Hp, Hc. simpl.
  lookup_alter. rewrite Hp, Hc. simpl.
  rewrite (find_ext _ (sameId (heap st) (id ca))) by (by apply sameId_alter).
  rewrite find_none by done.
  unfold unlink. simpl. lookup_alter. rewrite Hc. simpl.
  rewrite Hpar, Htx.
  rewrite (findIndex_ext _ (sameId (heap st) (id ca))).
  2:{ intros y. by rewrite !sameId_alter. }
  rewrite Hsplit, (findIndex_middle _ l1 l2 c); [|done|by apply sameId_self]. simpl.
  unfold witnessChildren.
  destruct layout; simpl.
  - eexists. split; [reflexivity|].
    unfold childrenOf, parentOf, topLevel, callDepthAt. simpl.
    lookup_alter. rewrite Hp, Hc, Htx. simpl.
    by rewrite Hsplit, delete_middle.
  - lookup_alter. rewrite Hc. simpl.
    destruct (isDelegateCall ca); [done|].
    eexists. split; [reflexivity|].
    unfold childrenOf, parentOf, topLevel, callDepthAt. simpl.
    lookup_alter. rewrite Hp, Hc, Htx. simpl.
    by rewrite Hsplit, delete_middle.
Qed.

Lemma approve_moves_top_level_update_witness :
  exists st',
    approve 0 1 NoDelegation linkState = Ok st'
    /\ childrenOf 0 st' = Some [1] /\ topLevel st' = Some [0].
Proof.
  pose proof (approve_moves_top_level_update linkState 0 1
                (exampleUpdate 40 exampleKey [] None)
                (exampleUpdate 41 (PublicKey.mk 9%Z false) [] None)
                (CurrentTransaction.mk (Some exampleKey) [0; 1]) [0] [] NoDelegation)
    as Happ.
  destruct Happ as (st' & Hrun & Hch & Htop & _);
    [lia|done|done|done|done|done|by repeat constructor|by constructor|].
  by exists st'.
Defined.

(** X11: [approve] of an update that is listed under another parent, the one its
    [parent] field names, moves it to the end of the approver's children and
    takes it out of the children of that parent; the top-level list of the
    transaction is not touched.  With the layout NoDelegation it throws when
    the child is a delegate call. *)
Theorem approve_moves_child_between_parents (st : State) (p c q : loc)
    (pa ca qa : AccountUpdate) (l1 l2 : list loc) (layout : AccountUpdatesLayout) :
  p <> c -> q <> c -> q <> p ->
  heap st !! p = Some pa -> heap st !! c = Some ca -> heap st !! q = Some qa ->
  parent ca = Some q ->
  accountUpdates (children qa) = l1 ++ c :: l2 ->
  Forall (fun y => sameId (heap st) (id ca) y = false) l1 ->
  Forall (fun y => sameId (heap st) (id ca) y = false) (accountUpdates (children pa)) ->
  if match layout with NoDelegation => isDelegateCall ca | AnyChildren => false end
  then approve p c layout st = Throw "Bool.assertFalse(): true != false"
  else exists st',
      approve p c layout st = Ok st'
      /\ childrenOf p st' = Some (accountUpdates (children pa) ++ [c])
      /\ childrenOf q st' = Some (l1 ++ l2)
      /\ parentOf c st' = Some (Some p)
      /\ topLevel st' = topLevel st
      /\ callDepthAt (heap st') c = Some (callDepth (body pa) + 1)
      /\ isDelegateCall <$> heap st' !! p = Some false
      /\ (fun a => callsType (children a)) <$> heap st' !! c = Some CallsWitness.
Proof.
  intros Hpc Hqc Hqp Hp Hc Hq Hpar Hsplit Hl1 Hnew.
  assert (Hcp : c <> p) by auto. assert (Hcq : c <> q) by auto.
  assert (Hpq : p <> q) by auto.
  unfold approve, makeChildAccountUpdate. rewrite Hp, Hc. simpl.
  lookup_alter. rewrite Hp, Hc. simpl.
  rewrite (find_ext _ (sameId (heap st) (id ca))) by (by apply sameId_alter).
  rewrite find_none by done.
  unfold unlink. simpl. lookup_alter. rewrite Hc. simpl.
  rewrite Hpar. lookup_alter. rewrite Hq. simpl.
  rewrite (findIndex_ext _ (sameId (heap st) (id ca))).
  2:{ intros y. by rewrite !sameId_alter. }
  rewrite Hsplit, (findIndex_middle _ l1 l2 c); [|done|by apply sameId_self]. simpl.
  unfold witnessChildren.
  destruct layout; simpl.
  - eexists. split; [reflexivity|].
    unfold childrenOf, parentOf, topLevel, callDepthAt. simpl.
    lookup_alter. rewrite Hp, Hq, Hc. simpl.
    by rewrite Hsplit, delete_middle.
  - lookup_alter. rewrite Hc. simpl.
    destruct (isDelegateCall ca); [done|].
    eexists. split; [reflexivity|].
    unfold childrenOf, parentOf, topLevel, callDepthAt. simpl.
    lookup_alter. rewrite Hp, Hq, Hc. simpl.
    by rewrite Hsplit, delete_middle.
Qed.

Lemma approve_moves_child_between_parents_witness :
  exists st',
    approve 0 2 NoDelegation moveState = Ok st'
    /\ childrenOf 0 st' = Some [2] /\ childrenOf 1 st' = Some []
    /\ parentOf 2 st' = Some (Some 0).
Proof.
  pose proof (approve_moves_child_between_parents moveState 0 2 1
                (exampleUpdate 60 exampleKey [] None)
                (exampleUpdate 62 exampleKey [] (Some 1))
                (exampleUpdate 61 (PublicKey.mk 9%Z false) [2] None) [] [] NoDelegation)
    as Happ.
  destruct Happ as (st' & Hrun & Hp & Hq & Hpar & _);
    [lia|lia|lia|done|done|done|done|done|by constructor|by constructor|].
  by exists st'.
Defined.

Lemma sameId_app (h ext : Heap) (i : Id) (y : loc) :
  y < length h -> sameId (h ++ ext) i y = sameId h i y.
Proof. intros Hy. unfold sameId. by rewrite lookup_app_l. Qed.

Lemma makeChildAccountUpdate_fresh (h : Heap) (tx : option CurrentTransaction.t)
    (ctx : option loc) (p : loc) (pa new : AccountUpdate) :
  h !! p = Some pa ->
  parent new = None ->
  Forall (fun y => y < length h /\ sameId h (id new) y = false)
         (accountUpdates (children pa)) ->
  (forall t, tx = Some t ->
     Forall (fun y => y < length h /\ sameId h (id new) y = false)
            (CurrentTransaction.accountUpdates t)) ->
  makeChildAccountUpdate p (length h) (mkState (h ++ [new]) tx ctx)
  = Ok (mkState
          (alter (with_parent (Some p)) (length h)
             (alter (with_accountUpdates (fun l => l ++ [length h])) p
                (alter (with_body (with_callDepth (callDepth (body pa) + 1))) (length h)
                   (h ++ [new]))))
          tx ctx).
Proof.
  intros Hp Hpar Hch Htop.
  assert (Hlt : p < length h) by (by apply lookup_lt_Some in Hp).
  assert (Hpc : p <> length h) by lia.
  assert (Hcp : length h <> p) by auto.
  assert (Hnew : (h ++ [new]) !! length h = Some new) by apply lookup_middle.
  assert (Hp' : (h ++ [new]) !! p = Some pa) by (by rewrite lookup_app_l).
  unfold makeChildAccountUpdate. simpl. rewrite Hp', Hnew. simpl.
  lookup_alter. rewrite Hp', Hnew. simpl.
  rewrite (find_ext _ (sameId (h ++ [new]) (id new))) by (by apply sameId_alter).
  rewrite find_none.
  2:{ eapply Forall_impl; [exact Hch|]. intros y [Hy Hid]. by rewrite sameId_app. }
  unfold unlink. simpl. lookup_alter. rewrite Hnew. simpl. rewrite Hpar.
  destruct tx as [t|]; [|done].
  rewrite (findIndex_ext _ (sameId (h ++ [new]) (id new))).
  2:{ intros y. by rewrite !sameId_alter. }
  rewrite findIndex_none; [done|].
  eapply Forall_impl; [exact (Htop t eq_refl)|].
  intros y [Hy Hid]. by rewrite sameId_app.
Qed.

(** X12: [createChildAccountUpdate] constructs an update for the address and
    token id, appends it to the children of the parent and returns it; its
    [parent] is the parent and its [callDepth] one more than the parent's.
    The id drawn for it must not be carried by a child of the parent or by a
    top-level update of the transaction. *)
Theorem createChildAccountUpdate_appends `{Externals} (st : State) (parent : loc)
    (pa : AccountUpdate) (childAddress : PublicKey) (tokenId : option Field) :
  heap st !! parent = Some pa ->
  Forall (fun y => y < length (heap st)
                   /\ sameId (heap st) (random (length (heap st))) y = false)
         (accountUpdates (children pa)) ->
  (forall tx, currentTransaction st = Some tx ->
     Forall (fun y => y < length (heap st)
                      /\ sameId (heap st) (random (length (heap st))) y = false)
            (CurrentTransaction.accountUpdates tx)) ->
  let child := length (heap st) in
  let childBody :=
    match tokenId with
    | Some t => with_caller t (with_tokenId t (Body.keepAll childAddress))
    | None => Body.keepAll childAddress
    end in
  exists st',
    createChildAccountUpdate parent childAddress tokenId st = Ok (child, st')
    /\ heap st' !! child
       = Some (mkAccountUpdate (random (length (heap st))) ""
                 (with_callDepth (callDepth (body pa) + 1) childBody) false
                 (mkControl None None) None (mkChildren CallsNone [])
                 (Some parent) false)
    /\ childrenOf parent st' = Some (accountUpdates (children pa) ++ [child])
    /\ topLevel st' = topLevel st
    /\ smartContractContext st' = smartContractContext st
    /\ length (heap st') = S (length (heap st))
    /\ forall x, x <> parent -> x <> child -> heap st' !! x = heap st !! x.
Proof.
  intros Hp Hch Htop child childBody. subst child.
  assert (Hlt : parent < length (heap st)) by (by apply lookup_lt_Some in Hp).
  assert (Hpc : parent <> length (heap st)) by lia.
  assert (Hcp : length (heap st) <> parent) by auto.
  unfold createChildAccountUpdate, defaultAccountUpdate, AccountUpdate_new.
  fold childBody. simpl.
  set (new := AccountUpdate_init (random (length (heap st))) childBody
                (mkControl None None) false).
  assert (Hnew : (heap st ++ [new]) !! length (heap st) = Some new) by apply lookup_middle.
  assert (Hp' : (heap st ++ [new]) !! parent = Some pa) by (by rewrite lookup_app_l).
  change (with_heap (fun _ : Heap => heap st ++ [new]) st)
    with (mkState (heap st ++ [new]) (currentTransaction st) (smartContractContext st)).
  rewrite (makeChildAccountUpdate_fresh (heap st) (currentTransaction st)
             (smartContractContext st) parent pa new Hp eq_refl Hch Htop).
  simpl. eexists. split; [reflexivity|].
  unfold childrenOf, topLevel. simpl.
  split; [by lookup_alter; rewrite Hnew|].
  split; [by lookup_alter; rewrite Hp'|].
  split; [done|]. split; [done|].
  split; [by rewrite !length_alter, length_app; simpl; lia|].
  intros x Hx Hxc. lookup_alter.
  destruct (decide (x < length (heap st))) as [Hxl|Hxl]; [by rewrite lookup_app_l|].
  rewrite !(proj2 (lookup_ge_None _ _)); [done|lia|rewrite length_app; simpl; lia].
Qed.

Lemma createChildAccountUpdate_appends_witness :
  exists st',
    @createChildAccountUpdate exampleExternals 0 exampleKey (Some 7%Z) linkState
    = Ok (2, st')
    /\ childrenOf 0 st' = Some [2] /\ topLevel st' = Some [0; 1].
Proof.
  destruct (@createChildAccountUpdate_appends exampleExternals linkState 0
              (exampleUpdate 40 exampleKey [] None) exampleKey (Some 7%Z))
    as (st' & Hrun & _ & Hch & Htop & _).
  - reflexivity.
  - constructor.
  - intros tx [= <-]. repeat constructor.
  - by exists st'.
Defined.

(** X13: Outside a contract method [attachToTransaction] can only append the
    update to the top-level list of the transaction, and does so unless an
    entry carries its id already: it writes to no object, so the update
    stays in the children of its parent if it has one, and attaching again
    changes nothing. *)
Theorem attachToTransaction_outside_contract (st : State) (l : loc) (a : AccountUpdate) :
  smartContractContext st = None ->
  heap st !! l = Some a ->
  exists st',
    attachToTransaction l st = Ok st'
    /\ heap st' = heap st
    /\ smartContractContext st' = None
    /\ attachToTransaction l st' = Ok st'
    /\ forall tx, currentTransaction st = Some tx ->
         let listed := CurrentTransaction.accountUpdates tx in
         topLevel st'
         = Some (if existsb (sameId (heap st) (id a)) listed
                 then listed else listed ++ [l]).
Proof.
  intros Hctx Ha. unfold attachToTransaction. rewrite Hctx.
  destruct (currentTransaction st) as [tx|] eqn:Htx.
  2:{ exists st. rewrite Hctx, Htx. by repeat split. }
  rewrite Ha. simpl.
  destruct (find _ _) as [x|] eqn:Hfind.
  - exists st. rewrite Hctx, Htx, Ha. simpl. rewrite Hfind.
    repeat split; try done.
    intros tx' [= <-]. simpl. unfold topLevel. rewrite Htx. simpl.
    apply find_some in Hfind as [Hin Hx].
    by rewrite (proj2 (existsb_exists _ _)) by (by exists x).
  - eexists. split; [reflexivity|]. simpl. rewrite Htx, Ha. simpl.
    split; [done|]. split; [done|]. split.
    + rewrite Hctx.
      destruct (find_In_Some (sameId (heap st) (id a))
                  (CurrentTransaction.accountUpdates tx ++ [l]) l) as [y ->];
        [|by apply sameId_self|done].
      apply in_or_app. right. by left.
    + intros tx' [= <-]. simpl. unfold topLevel. simpl. rewrite Htx. simpl.
      destruct (existsb _ _) eqn:Hex; [|done].
      apply existsb_exists in Hex as (x & Hin & Hx).
      destruct (find_In_Some _ _ x Hin Hx) as [y Hy]. congruence.
Qed.

Lemma attachToTransaction_outside_contract_witness :
  exists st',
    attachToTransaction 2 moveState = Ok st'
    /\ topLevel st' = Some [0; 1; 2] /\ childrenOf 1 st' = Some [2].
Proof.
  destruct (attachToTransaction_outside_contract moveState 2
              (exampleUpdate 62 exampleKey [] (Some 1)) eq_refl eq_refl)
    as (st' & Hrun & Hheap & _ & _ & Htop).
  exists st'. split; [exact Hrun|]. split.
  - exact (Htop _ eq_refl).
  - unfold childrenOf. by rewrite Hheap.
Defined.

(** ** Creating an update inside a contract method *)

(** X14: Inside a contract method [AccountUpdate.create] makes the new update the
    last child of the update of the contract and approves it: the new update
    has the contract's update as [parent], a [callDepth] one more than its
    parent's and the [callsType] Witness, the contract's update is no
    delegate call, and the top-level list of the transaction is not touched.
    The id drawn for the new update must not be carried by a child of the
    contract's update or by a top-level update. *)
Theorem create_inside_contract `{Externals} (st : State) (self : loc) (sa : AccountUpdate)
    (publicKey : PublicKey) (tokenId : option Field) :
  smartContractContext st = Some self ->
  heap st !! self = Some sa ->
  Forall (fun y => y < length (heap st)
                   /\ sameId (heap st) (random (length (heap st))) y = false)
         (accountUpdates (children sa)) ->
  (forall tx, currentTransaction st = Some tx ->
     Forall (fun y => y < length (heap st)
                      /\ sameId (heap st) (random (length (heap st))) y = false)
            (CurrentTransaction.accountUpdates tx)) ->
  let created := length (heap st) in
  let createdBody :=
    match tokenId with
    | Some t => with_caller t (with_tokenId t (Body.keepAll publicKey))
    | None => Body.keepAll publicKey
    end in
  exists st',
    create publicKey tokenId st = Ok (created, st')
    /\ heap st' !! created
       = Some (mkAccountUpdate (random (length (heap st))) ""
                 (with_callDepth (callDepth (body sa) + 1) createdBody) false
                 (mkControl None None) None (mkChildren CallsWitness [])
                 (Some self) false)
    /\ childrenOf self st' = Some (accountUpdates (children sa) ++ [created])
    /\ isDelegateCall <$> heap st' !! self = Some false
    /\ topLevel st' = topLevel st.
Proof.
  intros Hctx Hs Hch Htop created createdBody. subst created.
  assert (Hlt : self < length (heap st)) by (by apply lookup_lt_Some in Hs).
  assert (Hpc : self <> length (heap st)) by lia.
  assert (Hcp : length (heap st) <> self) by auto.
  unfold create, defaultAccountUpdate, AccountUpdate_new.
  fold createdBody. simpl. rewrite Hctx.
  set (new := AccountUpdate_init (random (length (heap st))) createdBody
                (mkControl None None) false).
  assert (Hnew : (heap st ++ [new]) !! length (heap st) = Some new) by apply lookup_middle.
  assert (Hs' : (heap st ++ [new]) !! self = Some sa) by (by rewrite lookup_app_l).
  unfold approve.
  change (with_heap (fun _ : Heap => heap st ++ [new]) st)
    with (mkState (heap st ++ [new]) (currentTransaction st) (smartContractContext st)).
  rewrite (makeChildAccountUpdate_fresh (heap st) (currentTransaction st)
             (smartContractContext st) self sa new Hs eq_refl Hch Htop).
  simpl. lookup_alter. rewrite Hnew. simpl.
  eexists. split; [reflexivity|].
  unfold childrenOf, topLevel. simpl. lookup_alter. by rewrite Hnew, Hs'.
Qed.

Lemma create_inside_contract_witness :
  exists st',
    @create exampleExternals exampleKey None
      (mkState (heap linkState) (currentTransaction linkState) (Some 0))
    = Ok (2, st')
    /\ childrenOf 0 st' = Some [2] /\ topLevel st' = Some [0; 1].
Proof.
  destruct (@create_inside_contract exampleExternals
              (mkState (heap linkState) (currentTransaction linkState) (Some 0)) 0
              (exampleUpdate 40 exampleKey [] None) exampleKey None)
    as (st' & Hrun & _ & Hch & _ & Htop).
  - reflexivity.
  - reflexivity.
  - constructor.
  - intros tx [= <-]. repeat constructor.
  - by exists st'.
Defined.

(** ** Nonces *)

Lemma getSigningInfoUnchecked_account `{Externals} (fuel : nat) (st : State)
    (tx : CurrentTransaction.t) (ts : list tree) (update : loc) (a : AccountUpdate)
    (pre post : list loc) :
  currentTransaction st = Some tx ->
  CurrentTransaction.accountUpdates tx = map root ts ->
  Forall (shape (heap st)) ts -> fits fuel ts ->
  heap st !! update = Some a ->
  flat_map preorder ts = pre ++ update :: post ->
  Forall (fun l => sameId (heap st) (id a) l = false) pre ->
  let pk := publicKey (body a) in
  let tid := tokenId (body a) in
  let isSame :=
    bool_decide (CurrentTransaction.sender tx = Some pk) && (tid =? TokenId.default)%Z in
  getSigningInfoUnchecked fuel (OfAccountUpdate update) st
  = (n ← UInt32_from
           (accountNonce pk (Some tid) + (if isSame then 1 else 0)
            + length (List.filter (incrementsNonce (heap st) pk tid) pre));
     Ok (mkSigningInfo n isSame)).
Proof.
  intros Htx Hroots Hsh Hfit Ha Hsplit Hpre pk tid isSame.
  unfold getSigningInfoUnchecked. rewrite Ha, Htx. simpl. rewrite Hroots.
  rewrite (forEachPredecessor_before fuel (heap st) ts update a pre post) by done.
  assert (Hvalid : Forall (fun x => is_Some (heap st !! x)) pre).
  { apply List.Forall_forall. intros x Hx. apply (shape_lookup _ ts); [done|].
    rewrite Hsplit. apply in_or_app. by left. }
  rewrite forM_nonce by done. simpl.
  assert (Hsame : match CurrentTransaction.sender tx ≫= (fun sender =>
                          Some (PublicKey.equals sender (publicKey (body a)))) with
                  | Some b => b && (tokenId (body a) =? TokenId.default)%Z
                  | None => false
                  end = isSame).
  { unfold isSame, pk, tid, PublicKey.equals.
    destruct (CurrentTransaction.sender tx) as [sender|]; simpl; [|done].
    f_equal. apply bool_decide_ext. split; congruence. }
  rewrite Hsame. fold pk tid.
  by destruct isSame; simpl; rewrite ?Nat.add_0_r.
Qed.

(** X15: Of two updates of the same account in one transaction, the one that
    comes later in pre-order gets the nonce of the earlier one, plus one if
    the earlier one increments the nonce, plus one for every update of the
    account between them that increments the nonce. *)
Theorem getSigningInfoUnchecked_later_update `{Externals} (fuel : nat) (st : State)
    (tx : CurrentTransaction.t) (ts : list tree) (u1 u2 : loc) (a1 a2 : AccountUpdate)
    (pre mid post : list loc) :
  currentTransaction st = Some tx ->
  CurrentTransaction.accountUpdates tx = map root ts ->
  Forall (shape (heap st)) ts -> fits fuel ts ->
  heap st !! u1 = Some a1 -> heap st !! u2 = Some a2 ->
  flat_map preorder ts = pre ++ u1 :: mid ++ u2 :: post ->
  Forall (fun l => sameId (heap st) (id a1) l = false) pre ->
  Forall (fun l => sameId (heap st) (id a2) l = false) (pre ++ u1 :: mid) ->
  publicKey (body a1) = publicKey (body a2) ->
  tokenId (body a1) = tokenId (body a2) ->
  exists n isSame,
    getSigningInfoUnchecked fuel (OfAccountUpdate u1) st
    = (nonce ← UInt32_from n; Ok (mkSigningInfo nonce isSame))
    /\ getSigningInfoUnchecked fuel (OfAccountUpdate u2) st
       = (nonce ← UInt32_from
                    (n + (if incrementNonce (body a1) then 1 else 0)
                     + length (List.filter
                                 (incrementsNonce (heap st) (publicKey (body a1))
                                    (tokenId (body a1))) mid));
          Ok (mkSigningInfo nonce isSame)).
Proof.
  intros Htx Hroots Hsh Hfit Ha1 Ha2 Hsplit Hpre1 Hpre2 Hpk Htid.
  eexists _, _. split.
  - by apply (getSigningInfoUnchecked_account fuel st tx ts u1 a1 pre (mid ++ u2 :: post)).
  - rewrite (getSigningInfoUnchecked_account fuel st tx ts u2 a2 (pre ++ u1 :: mid) post);
      [|done..|by rewrite <- app_assoc|done].
    rewrite <- Hpk, <- Htid. do 2 f_equal.
    rewrite List.filter_app, length_app. simpl.
    unfold incrementsNonce at 2. rewrite Ha1.
    unfold PublicKey.equals.
    rewrite (bool_decide_eq_true_2 (publicKey (body a1) = publicKey (body a1))) by done.
    rewrite Z.eqb_refl. simpl.
    destruct (incrementNonce (body a1)); simpl; lia.
Qed.

Lemma getSigningInfoUnchecked_later_update_witness :
  exists n isSame,
    @getSigningInfoUnchecked exampleExternals 3 (OfAccountUpdate 0) nonceState
    = Ok (mkSigningInfo (mkUInt32 (Z.of_nat n)) isSame)
    /\ @getSigningInfoUnchecked exampleExternals 3 (OfAccountUpdate 2) nonceState
       = Ok (mkSigningInfo (mkUInt32 (Z.of_nat (n + 1 + 1))) isSame).
Proof.
  destruct (@getSigningInfoUnchecked_later_update exampleExternals 3 nonceState
              (CurrentTransaction.mk (Some exampleKey) [0; 2]) nonceForest 0 2
              (nonceUpdate 20 true [1] None) (nonceUpdate 22 false [] None)
              [] [1] []) as (n & isSame & H1 & H2).
  - reflexivity.
  - reflexivity.
  - repeat (econstructor; try reflexivity).
  - unfold fits. simpl. lia.
  - reflexivity.
  - reflexivity.
  - reflexivity.
  - constructor.
  - repeat constructor.
  - reflexivity.
  - reflexivity.
  - exists n, isSame. split; [exact H1|exact H2].
Defined.

Lemma forEachPredecessor_all {S} (fuel : nat) (h : Heap) (ts : list tree)
    (callback : loc -> S -> result S) (st : S) :
  Forall (shape h) ts -> fits fuel ts ->
  CallForest.forEachPredecessor fuel h (map root ts) None callback st
  = forM callback (flat_map preorder ts) st.
Proof.
  intros Hsh Hfit. unfold CallForest.forEachPredecessor.
  rewrite forEach_preorder by done.
  rewrite forM_predecessors_before.
  - by destruct (forM callback (flat_map preorder ts) st).
  - apply List.Forall_forall. intros x Hx.
    destruct (shape_lookup h ts x Hsh Hx) as [o Ho]. by exists o.
Qed.

(** X16: For a fee payer [getSigningInfoUnchecked] counts every update of the
    transaction that targets the fee payer's account with the default token
    id and increments the nonce, wherever it is in the forest: the nonce is
    the account nonce, plus one if the fee payer is the sender, plus that
    count. *)
Theorem getSigningInfoUnchecked_feePayer `{Externals} (fuel : nat) (st : State)
    (tx : CurrentTransaction.t) (ts : list tree) (feePayer : FeePayerUnsigned) :
  currentTransaction st = Some tx ->
  CurrentTransaction.accountUpdates tx = map root ts ->
  Forall (shape (heap st)) ts -> fits fuel ts ->
  let pk := fp_publicKey (fp_body feePayer) in
  let isSame := bool_decide (CurrentTransaction.sender tx = Some pk) in
  getSigningInfoUnchecked fuel (OfFeePayer feePayer) st
  = (n ← UInt32_from
           (accountNonce pk None + (if isSame then 1 else 0)
            + length (List.filter (incrementsNonce (heap st) pk TokenId.default)
                        (flat_map preorder ts)));
     Ok (mkSigningInfo n isSame)).
Proof.
  intros Htx Hroots Hsh Hfit pk isSame.
  unfold getSigningInfoUnchecked. rewrite Htx. simpl. rewrite Hroots.
  rewrite forEachPredecessor_all by done.
  assert (Hvalid : Forall (fun x => is_Some (heap st !! x)) (flat_map preorder ts)).
  { apply List.Forall_forall. intros x Hx. by apply (shape_lookup _ ts). }
  rewrite forM_nonce by done. simpl.
  assert (Hsame : match CurrentTransaction.sender tx ≫= (fun sender =>
                          Some (PublicKey.equals sender (fp_publicKey (fp_body feePayer)))) with
                  | Some b => b && true
                  | None => false
                  end = isSame).
  { unfold isSame, pk, PublicKey.equals.
    destruct (CurrentTransaction.sender tx) as [sender|]; simpl; [|done].
    rewrite andb_true_r. apply bool_decide_ext. split; congruence. }
  rewrite Hsame. fold pk.
  by destruct isSame; simpl; rewrite ?Nat.add_0_r.
Qed.

Lemma getSigningInfoUnchecked_feePayer_witness :
  @getSigningInfoUnchecked exampleExternals 3
    (OfFeePayer (mkFeePayerUnsigned (mkFeePayerBody exampleKey (mkUInt32 0%Z) 0%Z None)
                   "" None))
    nonceState
  = Ok (mkSigningInfo (mkUInt32 43) true).
Proof.
  apply (@getSigningInfoUnchecked_feePayer exampleExternals 3 nonceState
           (CurrentTransaction.mk (Some exampleKey) [0; 2]) nonceForest).
  - reflexivity.
  - reflexivity.
  - repeat (econstructor; try reflexivity).
  - unfold fits. simpl. lia.
Defined.

(** ** Deep copies *)

(** X17: [AccountUpdate.clone] copies the whole tree below the update: it
    returns the root of a tree of new objects, pairwise distinct, that is a
    copy of the original tree: node by node the copy has every field of the
    original, and for children the copies of the children of the original,
    in their order.  So the copy of a child keeps the [parent] of the child,
    an object of the original tree.  No object of the original store is
    written. *)
Theorem clone_copies_the_tree `{Externals} (fuel : nat) (t : tree) (h : Heap) :
  shape h t -> height t < fuel ->
  exists t' h',
    clone fuel (root t) h = Ok (root t', h')
    /\ (forall l a, h !! l = Some a -> h' !! l = Some a)
    /\ copyOf h h' t t'
    /\ shape h' t'
    /\ height t' = height t
    /\ NoDup (preorder t')
    /\ Forall (fun l' => length h <= l') (preorder t')
    /\ Forall2 (fun l l' => exists a a',
                  h !! l = Some a /\ h' !! l' = Some a'
                  /\ sameButChildren a a' /\ parent a' = parent a)
               (preorder t) (preorder t').
Proof.
  intros Hsh Hfit.
  destruct (clone_copy h fuel t h) as (t' & ext & Hrun & _ & Hcopy & Hnd & Hr);
    [done..|].
  exists t', (h ++ ext). split; [done|]. split.
  { intros l a Hl. by apply lookup_app_l_Some. }
  split; [done|]. split; [by apply (copyOf_shape h _ t)|].
  split; [by apply (copyOf_height h (h ++ ext))|]. split; [done|]. split.
  - eapply Forall_impl; [exact Hr|]. intros x Hx. simpl in Hx. lia.
  - by apply copyOf_preorder.
Qed.

Lemma clone_copies_the_tree_witness :
  exists t' h',
    @clone exampleExternals 4 0 exampleHeap = Ok (root t', h')
    /\ copyOf exampleHeap h' (Node 0 [Node 1 [Node 2 []]; Node 3 []]) t'
    /\ height t' = 3
    /\ Forall (fun l' => 4 <= l') (preorder t').
Proof.
  destruct (@clone_copies_the_tree exampleExternals 4 (Node 0 [Node 1 [Node 2 []]; Node 3 []])
              exampleHeap) as (t' & h' & Hrun & _ & Hcopy & _ & Hh & _ & Hfresh & _).
  - pose proof exampleForest_shape as Hsh. by apply Forall_cons in Hsh as [Hsh _].
  - simpl. lia.
  - by exists t', h'.
Defined.

(** ** The authorization kind *)

(** X18: Through any sequence of calls of the [Authorization] setters on a new
    update, the [authorizationKind] of the body agrees with the lazy
    authorization that is pending: signed for a lazy signature, proved for a
    lazy proof, neither for the lazy authorization none. *)
Theorem authorizationKind_follows_lazyAuthorization (i : Id) (b : Body) (auth : Control)
    (isSelf : bool) (calls : list AuthorizationCall) :
  let a := fold_left authorizationCall calls (AccountUpdate_init i b auth isSelf) in
  match lazyAuthorization a with
  | Some (lazy_signature _) =>
      authorizationKind (body a) = mkAuthorizationKind true false
  | Some (lazy_proof _) =>
      authorizationKind (body a) = mkAuthorizationKind false true
  | Some lazy_none =>
      authorizationKind (body a) = mkAuthorizationKind false false
  | None => True
  end.
Proof.
  induction calls as [|c calls IH] using rev_ind; [done|].
  rewrite fold_left_app. simpl. by destruct c.
Qed.

(** ** What a signed command holds *)

Lemma first_true {A} (p : A -> bool) (l : list A) :
  Forall (fun x => p x = false) l
  \/ exists pre a post, l = pre ++ a :: post
                        /\ Forall (fun x => p x = false) pre /\ p a = true.
Proof.
  induction l as [|x l IH]; [by left|].
  destruct (p x) eqn:Hx.
  - right. by exists [], x, l.
  - destruct IH as [Hall|(pre & a & post & -> & Hpre & Ha)].
    + left. by constructor.
    + right. exists (x :: pre), a, post. repeat split; [|done]. by constructor.
Qed.

(** X19: When [addMissingSignatures] returns, a key was there for the fee payer
    and for every listed update with a lazy signature; the command it
    returns has the memo of the given one and the body of its fee payer, and
    for every listed update a copy with the same id and body, which carries
    a signature and no lazy authorization if the update had a lazy
    signature, and the authorization and lazy authorization of the update
    otherwise.  The objects of the given store are as they were. *)
Theorem addMissingSignatures_result `{Externals} (fuel : nat) (cmd : ZkappCommand.t)
    (keys : list PrivateKey) (h h' : Heap) (ts : list tree) (listed : list AccountUpdate)
    (signed : ZkappCommandSigned.t) :
  ZkappCommand.accountUpdates cmd = map root ts ->
  Forall (shape h) ts -> fits fuel ts ->
  Forall2 (fun t a => h !! root t = Some a) ts listed ->
  addMissingSignatures fuel cmd keys h = Ok (signed, h') ->
  missingFeePayerKey keys (ZkappCommand.feePayer cmd) = false
  /\ Forall (fun a => missingKey keys a = false) listed
  /\ ZkappCommandSigned.memo signed = ZkappCommand.memo cmd
  /\ fps_body (ZkappCommandSigned.feePayer signed) = fp_body (ZkappCommand.feePayer cmd)
  /\ (forall l a, h !! l = Some a -> h' !! l = Some a)
  /\ Forall2 (fun a l' =>
                exists a',
                  h' !! l' = Some a' /\ id a' = id a /\ body a' = body a
                  /\ match lazyAuthorization a with
                     | Some (lazy_signature _) =>
                         lazyAuthorization a' = None
                         /\ proof (authorization a') = None
                         /\ is_Some (signature (authorization a'))
                     | z => lazyAuthorization a' = z
                            /\ authorization a' = authorization a
                     end)
             listed (ZkappCommandSigned.accountUpdates signed).
Proof.
  intros Hroots Hsh Hfit Hl Hrun.
  unfold addMissingSignatures in Hrun.
  rewrite Hroots, (forM_listed h ts listed []) in Hrun by done. simpl in Hrun.
  rewrite addFeePayerSignature_keyFor in Hrun.
  set (cs := transactionCommitments _ _ _) in Hrun.
  destruct (missingFeePayerKey keys (ZkappCommand.feePayer cmd)) eqn:Hfee; [done|].
  simpl in Hrun.
  destruct (first_true (missingKey keys) listed)
    as [Hkeys|(pre & a & post & -> & Hpre & Hmiss)].
  2:{ by rewrite (mapM_addSignature_throw fuel cs keys a post pre ts h) in Hrun. }
  destruct (mapM_addSignature_ok fuel cs keys ts listed h Hsh Hfit Hl Hkeys)
    as (ls & ext & Hmap & Hall).
  rewrite Hmap in Hrun. simpl in Hrun. injection Hrun as <- <-. simpl.
  split; [done|]. split; [done|]. split; [done|]. split.
  { unfold signedFeePayer. destruct (fp_lazyAuthorization _); [|done].
    by destruct (keyFor _ _ _). }
  split; [intros l a Ha; by apply lookup_app_l_Some|].
  clearbody cs. clear -Hall Hkeys. revert Hkeys.
  induction Hall as [|a l' listed' ls' [_ [clones Hl']] _ IH]; intros Hkeys;
    [constructor|].
  apply Forall_cons in Hkeys as [Hk Hkeys].
  constructor; [|by apply IH].
  eexists. split; [exact Hl'|].
  unfold signedClone, missingKey in *.
  destruct (lazyAuthorization a) as [[|sig|prf]|] eqn:Hlz; simpl; try by rewrite ?Hlz.
  destruct (keyFor keys (privateKey sig) (publicKey (body a))); [|done].
  simpl. repeat split; by eexists.
Qed.

Lemma addMissingSignatures_result_witness :
  exists signed h',
    @addMissingSignatures exampleExternals 2 signCommand [PrivateKey.mk 5%Z] signHeap
    = Ok (signed, h')
    /\ ZkappCommandSigned.memo signed = "memo"
    /\ length (ZkappCommandSigned.accountUpdates signed) = 3.
Proof.
  destruct (@addMissingSignatures exampleExternals 2 signCommand [PrivateKey.mk 5%Z] signHeap)
    as [[signed h']| |] eqn:Hrun; [|by vm_compute in Hrun..].
  destruct (@addMissingSignatures_result exampleExternals 2 signCommand [PrivateKey.mk 5%Z]
              signHeap h' signForest signHeap signed)
    as (_ & _ & Hmemo & _ & _ & Hall).
  - reflexivity.
  - repeat (econstructor; try reflexivity).
  - unfold fits. simpl. lia.
  - repeat constructor.
  - exact Hrun.
  - exists signed, h'. split; [done|]. split; [exact Hmemo|].
    by rewrite <- (Forall2_length _ _ _ Hall).
Defined.

(** ** Proving *)

Lemma forMi_app `{Proving} {A St} (body : nat -> A -> St -> proving St)
    (l1 l2 : list A) :
  forall (i : nat) (s : St) (w : World),
    forMi body i (l1 ++ l2) s w
    = (s' ← forMi body i l1 s; forMi body (i + length l1) l2 s') w.
Proof.
  induction l1 as [|x l1 IH]; intros i s w; simpl.
  - unfold mbind, proving_bind, mret, proving_ret. by rewrite Nat.add_0_r.
  - unfold mbind, proving_bind in *.
    destruct (body i x s w) as [[s1| |] w1]; [|done..].
    rewrite IH. by replace (S i + length l1) with (i + S (length l1)) by lia.
Qed.

Lemma addProof_unproved `{Externals} `{Proving} (h : Heap) (fuel : nat)
    (cmd : ZkappCommand.t) (proofsEnabled : bool) (index : nat) (t : tree) (h0 : Heap)
    (a : AccountUpdate) (w : World) :
  (forall l a, h !! l = Some a -> h0 !! l = Some a) ->
  shape h t -> height t < fuel -> h !! root t = Some a ->
  proofsEnabled = false \/ Authorization.hasLazyProof a = false ->
  exists ext,
    addProof fuel cmd proofsEnabled index (root t) h0 w
    = (Ok (length h0, None, h0 ++ ext), w)
    /\ copyWith unprovedClone h (h0 ++ ext) t (length h0).
Proof.
  intros Hpre Hsh Hfit Ha Hcase.
  destruct (clone_copyWith h fuel t h0 a Hpre Hsh Hfit Ha)
    as (ts' & ext & Hrun & Hsub & Hbelow).
  assert (Hnew : Forall (fun x => length h <= x) (flat_map preorder ts')).
  { pose proof (prefix_length h h0 Hpre). eapply Forall_impl; [exact Hbelow|].
    intros y Hy. simpl in Hy. lia. }
  unfold addProof, mbind, proving_bind, still, mret, proving_ret. rewrite Hrun.
  rewrite lookup_middle. simpl.
  unfold Authorization.hasLazyProof in Hcase.
  destruct (lazyAuthorization a) as [[|sig|lz]|] eqn:Hlz.
  1,2,4: exists (cloneOf a (map root ts') :: ext); split; [done|];
    exists a, ts'; unfold unprovedClone, Authorization.hasLazyProof;
    rewrite Hlz, lookup_middle; by repeat split.
  destruct Hcase as [->|?]; [|done]. simpl. rewrite alter_middle.
  eexists (_ :: ext). split; [reflexivity|].
  exists a, ts'. unfold unprovedClone, Authorization.hasLazyProof.
  rewrite Hlz, lookup_middle. split; [done|]. split; [done|]. split; [|done].
  apply (copiesOf_agree h _ _ _ _ Hsub).
  eapply Forall_impl; [exact Hbelow|]. intros y Hy. simpl in Hy.
  rewrite !lookup_app_r by lia.
  destruct (y - length h0) as [|n] eqn:Hn; [lia|done].
Qed.

Lemma forMi_addProof_unproved `{Externals} `{Proving} (h : Heap) (fuel : nat)
    (cmd : ZkappCommand.t) (proofsEnabled : bool) (w : World) :
  forall (ts : list tree) (listed : list AccountUpdate) (h0 : Heap) (i : nat)
         (proved : list loc) (proofs : list (option Proof.t)),
    (forall l a, h !! l = Some a -> h0 !! l = Some a) ->
    Forall (shape h) ts -> fits fuel ts ->
    Forall2 (fun t a => h !! root t = Some a) ts listed ->
    proofsEnabled = false
    \/ Forall (fun a => Authorization.hasLazyProof a = false) listed ->
    exists ls ext,
      forMi (fun i accountUpdate '(accountUpdatesProved, proofs, h) =>
               '(accountUpdateProved, proof, h) ←
                 addProof fuel cmd proofsEnabled i accountUpdate h;
               mret (accountUpdatesProved ++ [accountUpdateProved], proofs ++ [proof], h))
            i (map root ts) (proved, proofs, h0) w
      = (Ok (proved ++ ls, proofs ++ replicate (length ts) None, h0 ++ ext), w)
      /\ Forall2 (fun t l' => length h0 <= l'
                     /\ copyWith unprovedClone h (h0 ++ ext) t l')
                 ts ls.
Proof.
  induction ts as [|t ts IH]; intros listed h0 i proved proofs Hpre Hsh Hfit Hl Hcase.
  { exists [], []. simpl. rewrite !app_nil_r. by split. }
  inversion Hl as [|? a ? listed' Ha Hl']; subst.
  apply Forall_cons in Hsh as [Ht Hsh]. apply fits_cons in Hfit as [Hh Hfit].
  simpl. unfold mbind at 1, proving_bind at 1. unfold mbind at 1, proving_bind at 1.
  destruct (addProof_unproved h fuel cmd proofsEnabled i t h0 a w Hpre Ht Hh Ha)
    as (ext & -> & Hcopy).
  { destruct Hcase as [?|Hall]; [by left|right]. by apply Forall_cons in Hall as [? _]. }
  unfold mret at 1, proving_ret at 1.
  destruct (IH listed' (h0 ++ ext) (S i) (proved ++ [length h0]) (proofs ++ [None]))
    as (ls & ext1 & -> & Hls).
  - intros x ax Hx. by apply lookup_app_l_Some, Hpre.
  - done.
  - done.
  - done.
  - destruct Hcase as [?|Hall]; [by left|right]. by apply Forall_cons in Hall as [_ ?].
  - exists (length h0 :: ls), (ext ++ ext1).
    rewrite <- !app_assoc. simpl. split; [done|].
    constructor.
    + split; [done|]. rewrite app_assoc. by apply copyWith_app.
    + eapply Forall2_impl; [exact Hls|]. intros t' l' [Hle Hc].
      rewrite length_app in Hle. split; [lia|]. by rewrite app_assoc.
Qed.

(** X20: With [proofsEnabled] false, or when no listed update has a lazy
    proof, [addMissingProofs] runs no prover, so that the world of the
    provers is as before: it returns the command with the same fee payer and
    memo and, for every listed update, a new object, its clone, in which a
    lazy proof is replaced by the dummy proof and every other field is kept,
    above copies of the trees below the listed update; and it returns one
    undefined proof per listed update.  No object of the given store is
    written. *)
Theorem addMissingProofs_without_provers `{Externals} `{Proving} (fuel : nat)
    (cmd : ZkappCommand.t) (proofsEnabled : bool) (h : Heap) (w : World)
    (ts : list tree) (listed : list AccountUpdate) :
  ZkappCommand.accountUpdates cmd = map root ts ->
  Forall (shape h) ts -> fits fuel ts ->
  Forall2 (fun t a => h !! root t = Some a) ts listed ->
  proofsEnabled = false
  \/ Forall (fun a => Authorization.hasLazyProof a = false) listed ->
  exists proved ext,
    addMissingProofs fuel cmd proofsEnabled h w
    = (Ok (ZkappCommand.mk (ZkappCommand.feePayer cmd) proved (ZkappCommand.memo cmd),
           replicate (length listed) None, h ++ ext),
       w)
    /\ Forall2 (fun t l' => length h <= l'
                   /\ copyWith unprovedClone h (h ++ ext) t l')
               ts proved.
Proof.
  intros Hroots Hsh Hfit Hl Hcase. unfold addMissingProofs. rewrite Hroots.
  unfold mbind, proving_bind.
  destruct (forMi_addProof_unproved h fuel cmd proofsEnabled w ts listed h 0 [] [])
    as (ls & ext & Hrun & Hls); [done..|].
  unfold mbind, proving_bind in Hrun. rewrite Hrun. simpl.
  exists ls, ext. split; [|done].
  unfold mret, proving_ret. by rewrite (Forall2_length _ _ _ Hl).
Qed.

Lemma addMissingProofs_without_provers_witness :
  exists proved ext,
    @addMissingProofs exampleExternals exampleProving 2 signCommand false signHeap 0
    = (Ok (ZkappCommand.mk (ZkappCommand.feePayer signCommand) proved "memo",
           [None; None; None], signHeap ++ ext),
       0).
Proof.
  destruct (@addMissingProofs_without_provers exampleExternals exampleProving 2
              signCommand false signHeap 0 signForest signHeap)
    as (proved & ext & Hrun & _).
  - reflexivity.
  - repeat (econstructor; try reflexivity).
  - unfold fits. simpl. lia.
  - repeat constructor.
  - by left.
  - by exists proved, ext.
Defined.

Lemma addProof_proverMissing `{Externals} `{Proving} (h : Heap) (fuel : nat)
    (cmd : ZkappCommand.t) (index : nat) (t : tree) (h0 : Heap) (a : AccountUpdate)
    (lz : LazyProof) (msg : string) (w : World) :
  inCheckedComputation = false ->
  (forall l a, h !! l = Some a -> h0 !! l = Some a) ->
  shape h t -> height t < fuel -> h !! root t = Some a ->
  lazyAuthorization a = Some (lazy_proof lz) ->
  proverMissing lz = Some msg ->
  addProof fuel cmd true index (root t) h0 w = (Throw msg, w).
Proof.
  intros Hun Hpre Hsh Hfit Ha Hlz Hmiss.
  destruct (clone_copy h fuel t h0 Hpre Hsh Hfit)
    as (t' & ext & Hrun & Hroot & Hcopy & _ & _).
  unfold addProof, mbind, proving_bind, still, mret, proving_ret. rewrite Hrun.
  pose proof (copyOf_shape h _ t t' Hcopy) as Hsh'.
  pose proof (copyOf_height h _ t t' Hcopy) as Hh.
  destruct t as [l ts], t' as [l' ts']. simpl in *.
  inversion Hcopy as [? ? a0 ? ? Hl Hl' Hsub]; subst.
  assert (a0 = a) as -> by congruence.
  rewrite Hl'. simpl. rewrite Hlz. simpl.
  unfold toPublicInput. rewrite Hl'. simpl.
  destruct (hashChildrenBase_returns fuel (Node (length h0) ts') (h0 ++ ext) Hsh')
    as (v & _ & Hv); [simpl in *; lia|done|].
  simpl in Hv. rewrite Hv. simpl.
  unfold proverMissing in Hmiss.
  destruct (ZkappClass._provers (zkappClassOf lz)); [|congruence].
  destruct (ZkappClass._methods (zkappClassOf lz)); [|congruence].
  destruct (findIndex _ _); [done|congruence].
Qed.

(** X21: With proofs enabled, outside a checked computation,
    [addMissingProofs] throws at the first listed update with a lazy proof
    whose contract class has no provers, or no method of the name of the
    proof, when the updates before it have no lazy proof.  The message names
    the method and, for missing provers, the class to compile; and no prover
    has run by then: the world of the provers is as it was before the
    call. *)
Theorem addMissingProofs_prover_missing `{Externals} `{Proving} (fuel : nat)
    (cmd : ZkappCommand.t) (h : Heap) (w : World) (ts : list tree)
    (pre post : list AccountUpdate) (a : AccountUpdate) (lz : LazyProof) (msg : string) :
  inCheckedComputation = false ->
  ZkappCommand.accountUpdates cmd = map root ts ->
  Forall (shape h) ts -> fits fuel ts ->
  Forall2 (fun t a => h !! root t = Some a) ts (pre ++ a :: post) ->
  Forall (fun a => Authorization.hasLazyProof a = false) pre ->
  lazyAuthorization a = Some (lazy_proof lz) ->
  proverMissing lz = Some msg ->
  addMissingProofs fuel cmd true h w = (Throw msg, w).
Proof.
  intros Hun Hroots Hsh Hfit Hl Hpre Hlz Hmiss.
  unfold addMissingProofs. rewrite Hroots.
  apply Forall2_app_inv_r in Hl as (ts1 & ts2 & Hl1 & Hl2 & ->).
  inversion Hl2 as [|t ? ts3 ? Ha Hl3]; subst.
  apply Forall_app in Hsh as [Hsh1 Hsh2].
  apply Forall_cons in Hsh2 as [Ht _].
  assert (Hfit1 : fits fuel ts1 /\ height t < fuel).
  { clear -Hfit. induction ts1 as [|t1 ts1 IH]; simpl in Hfit.
    - apply fits_cons in Hfit as [? _]. split; [unfold fits; simpl; lia|done].
    - apply fits_cons in Hfit as [? Hfit]. destruct (IH Hfit) as [? ?].
      split; [by apply fits_cons|done]. }
  destruct Hfit1 as [Hfit1 Hht].
  unfold mbind at 1, proving_bind at 1.
  rewrite map_app, forMi_app.
  unfold mbind at 1, proving_bind at 1.
  destruct (forMi_addProof_unproved h fuel cmd true w ts1 pre h 0 [] [])
    as (ls & ext & Hrun & _); [done..|by right|].
  rewrite Hrun. simpl.
  unfold mbind at 1, proving_bind at 1. unfold mbind at 1, proving_bind at 1.
  rewrite (addProof_proverMissing h fuel cmd _ t (h ++ ext) a lz msg w); try done.
  intros x ax Hx. by apply lookup_app_l_Some.
Qed.

Lemma addMissingProofs_prover_missing_witness :
  @addMissingProofs exampleExternals exampleProving 2 signCommand true signHeap 0
  = (Throw "Cannot prove execution of update(), no prover found. Try calling `await Dex.compile()` first, this will cache provers in the background.",
     0).
Proof.
  apply (@addMissingProofs_prover_missing exampleExternals exampleProving 2 signCommand
           signHeap 0 signForest
           [signUpdate 30 exampleKey false (Some (lazy_signature (mkLazySignature None)));
            signUpdate 31 (PublicKey.mk 9%Z false) true
              (Some (lazy_signature (mkLazySignature (Some (PrivateKey.mk 77%Z)))))]
           []
           (signUpdate 32 exampleKey false (Some (lazy_proof (mkLazyProof "update" 0%Z))))
           (mkLazyProof "update" 0%Z)).
  - reflexivity.
  - reflexivity.
  - repeat (econstructor; try reflexivity).
  - unfold fits. simpl. lia.
  - repeat constructor.
  - repeat constructor.
  - reflexivity.
  - reflexivity.
Defined.

(** ** Signing a transaction in JSON *)

Lemma signOtherAccountUpdates_fold `{JsonLedger} (privateKey : PrivateKey)
    (publicKey : string) (transaction : Json.ZkappCommand) :
  (forall c i c', signOtherAccountUpdate c privateKey i = Ok c' ->
                  keysAndProofs c' = keysAndProofs c) ->
  forall (fuel i : nat) (c : Json.ZkappCommand),
    keysAndProofs c = keysAndProofs transaction ->
    length (Json.accountUpdates transaction) - i < fuel ->
    signOtherAccountUpdates fuel privateKey publicKey i c
    = forM (fun i c => signOtherAccountUpdate c privateKey i)
           (List.filter (signable transaction publicKey)
              (seq i (length (Json.accountUpdates transaction) - i)))
           c.
Proof.
  intros Hkeep. induction fuel as [|fuel IH]; intros i c Hc Hfuel; [lia|].
  simpl.
  assert (Hlook : (fun u => (Json.body_publicKey u, Json.authorization_proof u))
                    <$> Json.accountUpdates c !! i
                  = (fun u => (Json.body_publicKey u, Json.authorization_proof u))
                      <$> Json.accountUpdates transaction !! i).
  { rewrite <- !list_lookup_fmap. unfold keysAndProofs in Hc.
    change (@map) with (@fmap list _) in Hc. by rewrite Hc. }
  destruct (Json.accountUpdates transaction !! i) as [u0|] eqn:Hu0;
    destruct (Json.accountUpdates c !! i) as [u|] eqn:Hu; try done.
  - simpl in Hlook. injection Hlook as Hk Hp.
    pose proof (lookup_lt_Some _ _ _ Hu0) as Hlt.
    replace (length (Json.accountUpdates transaction) - i)
      with (S (length (Json.accountUpdates transaction) - S i)) by lia.
    simpl. unfold signable at 1. rewrite Hu0, <- Hk, <- Hp.
    destruct (String.eqb (Json.body_publicKey u) publicKey
              && bool_decide (Json.authorization_proof u = None)); simpl.
    + destruct (signOtherAccountUpdate c privateKey i) as [c'| |] eqn:Hsign;
        simpl; [|done..].
      apply IH; [|lia]. by rewrite (Hkeep _ _ _ Hsign).
    + apply IH; [done|lia].
  - apply lookup_ge_None in Hu0.
    by replace (length (Json.accountUpdates transaction) - i) with 0 by lia.
Qed.

Lemma signOtherAccountUpdates_none `{JsonLedger} (privateKey : PrivateKey)
    (publicKey : string) (transaction : Json.ZkappCommand) :
  (forall i, signable transaction publicKey i = false) ->
  forall (fuel i : nat),
    length (Json.accountUpdates transaction) - i < fuel ->
    signOtherAccountUpdates fuel privateKey publicKey i transaction = Ok transaction.
Proof.
  intros Hnone. induction fuel as [|fuel IH]; intros i Hfuel; [lia|]. simpl.
  destruct (Json.accountUpdates transaction !! i) as [u|] eqn:Hu; [|done].
  specialize (Hnone i). unfold signable in Hnone. rewrite Hu in Hnone.
  rewrite Hnone. simpl. apply IH. apply lookup_lt_Some in Hu. lia.
Qed.

(** X22: [signJsonTransaction] signs the fee payer first, when its public key is
    the one of the private key, and then the listed updates that have this
    public key and are not authorized by a proof, by rising index; which
    updates these are is decided by the given transaction, when the ledger
    functions keep the public keys and the proofs of the listed updates.
    When neither the fee payer nor a listed update is one of them, the
    transaction is returned as it is, whatever the ledger functions do. *)
Theorem signJsonTransaction_spec `{Externals} `{JsonLedger} (fuel : nat)
    (transaction : Json.ZkappCommand) (privateKey : PrivateKey) :
  length (Json.accountUpdates transaction) < fuel ->
  let publicKey := toBase58 (toPublicKey privateKey) in
  let mine := List.filter (signable transaction publicKey)
                (seq 0 (length (Json.accountUpdates transaction))) in
  ((forall c c', signFeePayer c privateKey = Ok c' -> keysAndProofs c' = keysAndProofs c) ->
   (forall c i c', signOtherAccountUpdate c privateKey i = Ok c' ->
                   keysAndProofs c' = keysAndProofs c) ->
   signJsonTransaction fuel transaction (inl privateKey)
   = (c ← (if String.eqb (Json.fp_body_publicKey (Json.feePayer transaction)) publicKey
           then signFeePayer transaction privateKey
           else Ok transaction);
      forM (fun i c => signOtherAccountUpdate c privateKey i) mine c))
  /\ (String.eqb (Json.fp_body_publicKey (Json.feePayer transaction)) publicKey = false ->
      mine = [] ->
      signJsonTransaction fuel transaction (inl privateKey) = Ok transaction).
Proof.
  intros Hfuel publicKey mine. split.
  - intros Hfee Hother. unfold signJsonTransaction. simpl. fold publicKey.
    destruct (String.eqb _ publicKey).
    + destruct (signFeePayer transaction privateKey) as [c| |] eqn:Hsign; simpl; [|done..].
      rewrite (signOtherAccountUpdates_fold privateKey publicKey transaction Hother);
        [|by apply Hfee|lia].
      by rewrite Nat.sub_0_r.
    + simpl.
      rewrite (signOtherAccountUpdates_fold privateKey publicKey transaction Hother);
        [|done|lia].
      by rewrite Nat.sub_0_r.
  - intros Hfee Hmine. unfold signJsonTransaction. simpl. fold publicKey.
    rewrite Hfee. simpl.
    assert (Hnone : forall i, signable transaction publicKey i = false).
    { intros i. destruct (signable transaction publicKey i) eqn:Hs; [|done].
      assert (Hin : In i mine).
      { apply List.filter_In. split; [|done]. apply in_seq.
        unfold signable in Hs.
        destruct (Json.accountUpdates transaction !! i) eqn:Hi; [|done].
        apply lookup_lt_Some in Hi. lia. }
      by rewrite Hmine in Hin. }
    apply signOtherAccountUpdates_none; [done|lia].
Qed.

Lemma signJsonTransaction_spec_witness :
  @signJsonTransaction exampleExternals exampleLedger 4 exampleJson
    (inl (PrivateKey.mk 5%Z))
  = Ok (Json.mkZkappCommand (Json.mkFeePayer "B62example" "signed" "")
          [ Json.mkAccountUpdate "B62example" None (Some "signed") "";
            Json.mkAccountUpdate "B62other" None None "";
            Json.mkAccountUpdate "B62example" (Some "proof") None "" ]
          "memo").
Proof.
  refine (proj1 (@signJsonTransaction_spec exampleExternals exampleLedger 4 exampleJson
                   (PrivateKey.mk 5%Z) _) _ _).
  - simpl. lia.
  - intros c c' [= <-]. reflexivity.
  - intros c i c' [= <-]. unfold keysAndProofs. simpl.
    change (@map) with (@fmap list _).
    apply list_eq. intros j. rewrite !list_lookup_fmap, list_lookup_alter.
    destruct (decide (i = j)) as [->|]; [|done].
    by destruct (Json.accountUpdates c !! j).
Defined.

(** ** Permissions from JSON *)

Lemma fromString_cases (permission : string) :
  (permission = "None" /\ Permissions.fromString permission = Ok Permission.none)
  \/ (permission = "Either"
      /\ Permissions.fromString permission = Ok Permission.proofOrSignature)
  \/ (permission = "Proof" /\ Permissions.fromString permission = Ok Permission.proof)
  \/ (permission = "Signature"
      /\ Permissions.fromString permission = Ok Permission.signature)
  \/ (permission = "Impossible"
      /\ Permissions.fromString permission = Ok Permission.impossible)
  \/ Permissions.fromString permission
     = Throw ("Cannot parse invalid permission. " +:+ permission +:+ " does not exist.").
Proof.
  unfold Permissions.fromString.
  repeat match goal with
         | |- context [String.eqb ?a ?b] =>
             destruct (String.eqb_spec a b) as [->|?]; [tauto|]
         end.
  tauto.
Qed.

Lemma fromString_inj (s1 s2 : string) (p : Permission) :
  Permissions.fromString s1 = Ok p -> Permissions.fromString s2 = Ok p -> s1 = s2.
Proof.
  destruct (fromString_cases s1) as [[-> ->]|[[-> ->]|[[-> ->]|[[-> ->]|[[-> ->]| ->]]]]];
    destruct (fromString_cases s2) as [[-> ->]|[[-> ->]|[[-> ->]|[[-> ->]|[[-> ->]| ->]]]]];
    intros H1 H2; try done; by rewrite <- H1 in H2.
Qed.

Lemma forM_fromJSON (ps : list (string * string)) (acc : list (string * Permission)) :
  (forall qs,
      Forall2 (fun kv kp => kv.1 = kp.1 /\ Permissions.fromString kv.2 = Ok kp.2) ps qs ->
      forM (fun '(k, v) entries =>
              p ← Permissions.fromString v; Ok (entries ++ [(k, p)])) ps acc
      = Ok (acc ++ qs))
  /\ (forall pre k v post,
        ps = pre ++ (k, v) :: post ->
        Forall (fun kv => exists p, Permissions.fromString kv.2 = Ok p) pre ->
        (forall p, Permissions.fromString v <> Ok p) ->
        forM (fun '(k, v) entries =>
                p ← Permissions.fromString v; Ok (entries ++ [(k, p)])) ps acc
        = Throw ("Cannot parse invalid permission. " +:+ v +:+ " does not exist.")).
Proof.
  revert acc. induction ps as [|[k0 v0] ps IH]; intros acc; split.
  - intros qs Hqs. inversion Hqs. by rewrite app_nil_r.
  - intros [|? ?] ? ? ? ?; discriminate.
  - intros qs Hqs. inversion Hqs as [|? [k1 p1] ? qs' [Hk Hv] Hrest]; subst.
    simpl in *. subst. rewrite Hv. simpl.
    rewrite (proj1 (IH _) qs' Hrest). by rewrite <- app_assoc.
  - intros pre k v post Hsplit Hpre Hbad. simpl.
    destruct pre as [|[k1 v1] pre]; simpl in Hsplit.
    + injection Hsplit as -> -> ->.
      destruct (fromString_cases v) as [[_ Hv]|[[_ Hv]|[[_ Hv]|[[_ Hv]|[[_ Hv]| ->]]]]];
        [by apply Hbad in Hv..|done].
    + injection Hsplit as -> -> ->.
      apply Forall_cons in Hpre as [[p Hp] Hpre]. simpl in Hp. rewrite Hp. simpl.
      by apply (proj2 (IH _) pre k v post).
Qed.

(** X23: [Permissions.fromJSON] parses the value of every entry with
    [fromString] and keeps the keys and their order; it throws for the first
    value, in the order of the entries, that is not the name of a
    permission. *)
Theorem fromJSON_spec (permissions : list (string * string)) :
  (forall parsed,
      Forall2 (fun kv kp => kv.1 = kp.1 /\ Permissions.fromString kv.2 = Ok kp.2)
              permissions parsed ->
      Permissions_fromJSON permissions = Ok parsed)
  /\ (forall pre k v post,
        permissions = pre ++ (k, v) :: post ->
        Forall (fun kv => exists p, Permissions.fromString kv.2 = Ok p) pre ->
        (forall p, Permissions.fromString v <> Ok p) ->
        Permissions_fromJSON permissions
        = Throw ("Cannot parse invalid permission. " +:+ v +:+ " does not exist.")).
Proof.
  split.
  - intros parsed Hp. by apply (proj1 (forM_fromJSON permissions [])).
  - apply (proj2 (forM_fromJSON permissions [])).
Qed.

Lemma fromJSON_spec_witness :
  Permissions_fromJSON examplePermissions
  = Ok [ ("editState", Permission.proof); ("send", Permission.proof);
         ("receive", Permission.none); ("setDelegate", Permission.signature);
         ("setPermissions", Permission.signature);
         ("setVerificationKey", Permission.signature);
         ("setZkappUri", Permission.signature);
         ("editSequenceState", Permission.proof);
         ("setTokenSymbol", Permission.signature);
         ("incrementNonce", Permission.signature);
         ("setVotingFor", Permission.signature) ]
  /\ Permissions_fromJSON [("editState", "Proof"); ("send", "Sig"); ("receive", "no")]
     = Throw "Cannot parse invalid permission. Sig does not exist.".
Proof.
  split.
  - apply (proj1 (fromJSON_spec examplePermissions)).
    repeat constructor.
  - apply (proj2 (fromJSON_spec [("editState", "Proof"); ("send", "Sig"); ("receive", "no")])
             [("editState", "Proof")] "send" "Sig" [("receive", "no")]).
    + reflexivity.
    + repeat constructor. by eexists.
    + intros p. discriminate.
Defined.

Lemma forM_fromJSON_inv (ps : list (string * string)) :
  forall (acc out : list (string * Permission)),
    forM (fun '(k, v) entries =>
            p ← Permissions.fromString v; Ok (entries ++ [(k, p)])) ps acc
    = Ok out ->
    exists qs, out = acc ++ qs
      /\ Forall2 (fun kv kp => kv.1 = kp.1 /\ Permissions.fromString kv.2 = Ok kp.2) ps qs.
Proof.
  induction ps as [|[k v] ps IH]; intros acc out Hrun; simpl in Hrun.
  - injection Hrun as <-. exists []. by rewrite app_nil_r.
  - destruct (Permissions.fromString v) as [p| |] eqn:Hv; [|done..]. simpl in Hrun.
    destruct (IH _ _ Hrun) as (qs & -> & Hqs).
    exists ((k, p) :: qs). rewrite <- app_assoc. split; [done|]. by constructor.
Qed.

(** X24: Parsing permissions loses nothing: [Permissions.fromString] gives
    different permissions for different names, and two JSON objects that
    [Permissions.fromJSON] parses to the same permissions are equal. *)
Theorem fromJSON_injective (permissions1 permissions2 : list (string * string))
    (parsed : list (string * Permission)) :
  Permissions_fromJSON permissions1 = Ok parsed ->
  Permissions_fromJSON permissions2 = Ok parsed ->
  permissions1 = permissions2.
Proof.
  intros H1 H2.
  apply forM_fromJSON_inv in H1 as (qs1 & -> & H1).
  apply forM_fromJSON_inv in H2 as (qs2 & Heq & H2). simpl in Heq. subst qs2.
  revert permissions2 H2.
  induction H1 as [|[k1 v1] [k p] ps1 qs [Hk1 Hv1] _ IH]; intros ps2 H2.
  - by inversion H2.
  - inversion H2 as [|[k2 v2] ? ps2' ? [Hk2 Hv2] Hrest]; subst. simpl in *. subst.
    f_equal; [|by apply IH].
    f_equal. by apply (fromString_inj v1 v2 p).
Qed.

Lemma fromJSON_injective_witness :
  Permissions_fromJSON [("send", "Proof"); ("receive", "None")]
  = Ok [("send", Permission.proof); ("receive", Permission.none)]
  /\ [("send", "Proof"); ("receive", "None")] = [("send", "Proof"); ("receive", "None")].
Proof.
  split; [reflexivity|].
  apply (fromJSON_injective [("send", "Proof"); ("receive", "None")]
           [("send", "Proof"); ("receive", "None")]
           [("send", Permission.proof); ("receive", Permission.none)]);
    reflexivity.
Defined.

